(** * pls: a verification development for [pls.py]

    [pls.py] is a command-line assistant: it makes sure a local Ollama
    server is running (starting one when needed), sends the query to the
    model, cleans the reply up into a shell command, asks for confirmation
    and runs it, and finally stops the server it started.

    Definitions:
    - [PyStr]: the Python [str] operations the program uses, over lists of
      Unicode code points;
    - [sanitize_command] and the argument handling of [main];
    - [Session]: the effectful part ([is_ollama_running], [start_ollama],
      [stop_ollama], [signal_handler], [main]) in a state-and-exception
      monad that records every external action in a trace, with the
      vocabulary and the small program logic of the statements;
      [console.print] can raise rich's MarkupError where the program
      puts data of the run into markup.

    Theorems:
    - [PyStrFacts]: trimming, joining and splitting;
    - [SanitizeFacts]: what [sanitize_command] drops, keeps and unwraps,
      when it is idempotent, the shape and the length of its results;
    - [SessionFacts]: the health probe, the mode flag, confirmation and
      execution, empty replies, the server that is already running, the
      server that never comes up or comes up in time, how often a
      launched server is stopped, [stop_ollama] and the signal handler
      action by action, how many actions a run takes, how interrupted
      runs and runs with a failing inference call end, and which server
      processes a run acts on. *)

From Stdlib Require Import List NArith Bool Lia Arith String Ascii.
Import ListNotations.

Set Implicit Arguments.

(* ================================================================== *)
(** * Python strings *)
(* ================================================================== *)

Module PyStr.

Local Open Scope N_scope.

(** A Python [str] is a sequence of Unicode code points. *)
Definition char := N.
Definition str := list char.

(** ASCII literals of the source, as code points. *)
Fixpoint lit (s : string) : str :=
  match s with
  | EmptyString => []
  | String a s' => N_of_ascii a :: lit s'
  end.

Definition LF : char := 10.
Definition CR : char := 13.
Definition BACKTICK : char := 96.
Definition DQUOTE : char := 34.

(** [str.isspace] for one code point: CPython's [_Py_ascii_whitespace]
    table together with [_PyUnicode_IsWhitespace]. *)
Definition isspace (c : char) : bool :=
  ((9 <=? c) && (c <=? 13)) || ((28 <=? c) && (c <=? 32))
  || (c =? 133) || (c =? 160) || (c =? 5760)
  || ((8192 <=? c) && (c <=? 8202))
  || (c =? 8232) || (c =? 8233) || (c =? 8239) || (c =? 8287)
  || (c =? 12288).

(** The line boundaries of [str.splitlines]: \n \v \f \r \x1c \x1d \x1e
    \x85 U+2028 U+2029 (and \r\n as one boundary, see [splitlines]). *)
Definition islinebreak (c : char) : bool :=
  ((10 <=? c) && (c <=? 13)) || ((28 <=? c) && (c <=? 30))
  || (c =? 133) || (c =? 8232) || (c =? 8233).

(** [s.lstrip()] *)
Fixpoint lstrip (s : str) : str :=
  match s with
  | [] => []
  | c :: r => if isspace c then lstrip r else s
  end.

(** [s.rstrip()] *)
Fixpoint rstrip (s : str) : str :=
  match s with
  | [] => []
  | c :: r =>
      match rstrip r with
      | [] => if isspace c then [] else [c]
      | r' => c :: r'
      end
  end.

(** [s.strip()]: whitespace removed at both ends. *)
Definition strip (s : str) : str := rstrip (lstrip s).

(** [s.startswith(p)] *)
Fixpoint startswith (p s : str) : bool :=
  match p, s with
  | [], _ => true
  | _ :: _, [] => false
  | a :: p', b :: s' => (a =? b) && startswith p' s'
  end.

(** [s.endswith(p)] *)
Definition endswith (p s : str) : bool := startswith (rev p) (rev s).

(** [p in s]: substring test. *)
Fixpoint contains (p s : str) : bool :=
  startswith p s ||
  match s with
  | [] => false
  | _ :: r => contains p r
  end.

(** [s.splitlines()]: the lines of [s] without their line boundaries; a
    boundary at the very end opens no further line. *)
Fixpoint splitlines (s : str) : list str :=
  match s with
  | [] => []
  | c :: r =>
      if islinebreak c then
        [] :: match r with
              | d :: r' => if (c =? CR) && (d =? LF) then splitlines r'
                           else splitlines r
              | [] => []
              end
      else
        match splitlines r with
        | [] => [[c]]
        | l :: ls => (c :: l) :: ls
        end
  end.

(** [sep.join(ls)] *)
Fixpoint join (sep : str) (ls : list str) : str :=
  match ls with
  | [] => []
  | l :: rest =>
      match rest with
      | [] => l
      | _ :: _ => l ++ sep ++ join sep rest
      end
  end.

(** [s[1:-1]] *)
Definition slice_1_m1 (s : str) : str := removelast (tl s).

(** [len(s)] *)
Definition len (s : str) : nat := List.length s.

(** Equality of strings, for [x in [a, b, c]] and [list.remove]. *)
Fixpoint str_eqb (a b : str) : bool :=
  match a, b with
  | [], [] => true
  | x :: a', y :: b' => (x =? y) && str_eqb a' b'
  | _, _ => false
  end.

(** ASCII part of [str.lower]: A-Z to a-z, every other ASCII code point
    unchanged. *)
Definition ascii_lower (c : char) : char :=
  if (65 <=? c) && (c <=? 90) then c + 32 else c.

Definition is_ascii (c : char) : bool := c <? 128.

End PyStr.

Import PyStr.

(* ================================================================== *)
(** * The command extractor *)
(* ================================================================== *)

(** The markdown fence marker and the inline-code delimiter. *)
Definition FENCE : str := [BACKTICK; BACKTICK; BACKTICK].
Definition TICK : str := [BACKTICK].

(** The test of the list comprehension of [sanitize_command]:
    [ln.strip().startswith("```")]. *)
Definition is_fence_line (ln : str) : bool := startswith FENCE (strip ln).

(** [raw.startswith("`") and raw.endswith("`") and len(raw) > 2] *)
Definition is_wrapped (raw : str) : bool :=
  startswith TICK raw && endswith TICK raw && (2 <? len raw)%nat.

(** [sanitize_command], statement by statement. *)
Definition sanitize_command (raw : str) : str :=
  let raw := strip raw in
  let raw :=
    if contains FENCE raw then
      let lines := splitlines raw in
      let lines := filter (fun ln => negb (is_fence_line ln)) lines in
      strip (join [LF] lines)
    else raw in
  let raw :=
    if is_wrapped raw then strip (slice_1_m1 raw) else raw in
  raw.

(** The two rewriting steps of [sanitize_command] on their own, for the
    statements below: step 1 on a trimmed text, and step 2. *)
Definition kept_lines (raw : str) : list str :=
  filter (fun ln => negb (is_fence_line ln)) (splitlines raw).

Definition remove_fences (raw : str) : str :=
  if contains FENCE raw then strip (join [LF] (kept_lines raw)) else raw.

Definition unwrap_backticks (raw : str) : str :=
  if is_wrapped raw then strip (slice_1_m1 raw) else raw.

(** ** Vocabulary of the statements about the extractor *)

(** "A line that is purely a fence delimiter", in the words of the
    specification: the trimmed line is the marker alone, or the marker
    with a language tag after it (as in the [```bash] of its example),
    a tag being free of whitespace and of backticks. To be compared with
    [is_fence_line]. *)
Definition spec_purely_delimiter (ln : str) : bool :=
  let t := strip ln in
  startswith FENCE t &&
  forallb (fun c => negb (isspace c) && negb (c =? BACKTICK)%N) (skipn 3 t).

(** A text of whitespace only, and a text without line boundary. *)
Definition blank (s : str) : Prop := forallb isspace s = true.
Definition nobreak (s : str) : Prop :=
  forallb (fun c => negb (islinebreak c)) s = true.

(** [trimmed ls out]: [out] is what is left of the lines [ls] when the
    blank lines before the first and after the last non-blank line go,
    and the whitespace before the first and after the last of the
    remaining lines; the lines in between stay as they are, blank ones
    included. *)
Inductive trimmed : list str -> list str -> Prop :=
| trimmed_none ls :
    Forall blank ls -> trimmed ls []
| trimmed_one pre l post :
    Forall blank pre -> ~ blank l -> Forall blank post ->
    trimmed (pre ++ l :: post) [strip l]
| trimmed_many pre a mid z post :
    Forall blank pre -> ~ blank a -> ~ blank z -> Forall blank post ->
    trimmed (pre ++ a :: mid ++ z :: post) (lstrip a :: mid ++ [rstrip z]).

(** A text whose only line boundaries are newlines. *)
Definition lf_only (s : str) : Prop :=
  forallb (fun c => negb (islinebreak c) || (c =? LF)%N) s = true.

(** A text made of whitespace and fence markers only. *)
Inductive fences_and_space : str -> Prop :=
| fs_nil : fences_and_space []
| fs_space c s : isspace c = true -> fences_and_space s ->
                 fences_and_space (c :: s)
| fs_fence s : fences_and_space s -> fences_and_space (FENCE ++ s).

(** The texts used by the examples. *)
Definition battery_cmd : str :=
  lit "pmset -g batt | grep -o " ++ [DQUOTE] ++ lit "[0-9]*%" ++ [DQUOTE].
Definition battery_raw : str :=
  lit "```bash" ++ [LF] ++ battery_cmd ++ [LF] ++ lit "```".
Definition inline_fenced : str := lit "```ls -la```".
Definition ip_cmd : str := lit "ipconfig getifaddr en0 | pbcopy".
Definition ip_raw : str := lit "`ipconfig getifaddr en0 | pbcopy`".


(* ================================================================== *)
(** * Argument handling of [main] *)
(* ================================================================== *)

(** [x in l] for a list of strings. *)
Definition list_in (x : str) (l : list str) : bool := existsb (str_eqb x) l.

(** [l.remove(x)]: the first item equal to [x] goes; [None] stands for the
    ValueError Python raises when there is none. *)
Fixpoint list_remove (x : str) (l : list str) : option (list str) :=
  match l with
  | [] => None
  | y :: r =>
      if str_eqb y x then Some r
      else match list_remove x r with
           | Some r' => Some (y :: r')
           | None => None
           end
  end.

Definition DASH_A : str := lit "-a".
Definition SPACE : str := lit " ".

(* ================================================================== *)
(** * The session: server lifecycle and [main] *)
(* ================================================================== *)

Module Session.

(** ** The outside world *)

(** A launched process ([subprocess.Popen] object), by its pid. *)
Definition handle := nat.

(** The exceptions [requests.get] raises, by class. ProxyError, SSLError
    and ConnectTimeout derive from ConnectionError; ConnectTimeout and
    ReadTimeout derive from Timeout. *)
Inductive requests_error :=
| ConnectionError | ProxyError | SSLError | ConnectTimeout | ReadTimeout
| TooManyRedirects | ChunkedEncodingError | ContentDecodingError.

Definition isinstance_ConnectionError (e : requests_error) : bool :=
  match e with
  | ConnectionError | ProxyError | SSLError | ConnectTimeout => true
  | _ => false
  end.

Definition isinstance_ReadTimeout (e : requests_error) : bool :=
  match e with
  | ReadTimeout => true
  | _ => false
  end.

Definition isinstance_Timeout (e : requests_error) : bool :=
  match e with
  | ConnectTimeout | ReadTimeout => true
  | _ => false
  end.

(** What [requests.get(OLLAMA_API_URL, timeout=0.5)] does: a response with
    some status code, or an exception. *)
Inductive get_outcome :=
| Response (status : nat)
| GetRaises (e : requests_error).

(** What [ollama.chat(...)] followed by [response['message']['content']]
    does: the generated text, or some exception. *)
Inductive chat_outcome :=
| ChatReply (content : str)
| ChatRaises (msg : str).

(** Everything a run depends on besides [sys.argv]. *)
Record env := {
  http_get : nat -> get_outcome;   (* outcome of the n-th GET of the run *)
  new_process : handle;            (* the process [Popen] launches *)
  exits_in_time : nat -> bool;     (* n-th [process.wait(timeout=2)]:
                                      [false] is TimeoutExpired *)
  chat_result : chat_outcome;
  confirm_input : str;             (* what the user types at the prompt *)
  unicode_lower : str -> str;      (* [str.lower] on text beyond ASCII *)
  markup_error : str -> option str;  (* rich's markup parser on a text:
                                      the message of the MarkupError it
                                      raises, when it raises one *)
  requests_text : requests_error -> str;  (* [str(e)] of such an exception *)
  sigint : option nat              (* SIGINT arrives just before the n-th
                                      external action, if at all *)
}.

(** ** Exceptions *)

(** Instances of [Exception]. *)
Inductive error :=
| RequestsError (e : requests_error)
| ChatError (msg : str)
| ValueError
| IndexError
| MarkupError (msg : str).       (* rich.errors.MarkupError *)

(** [SystemExit] is a [BaseException] and not an [Exception]. *)
Inductive exn :=
| SystemExit (code : nat)
| PyError (e : error).

(** ** The trace of external actions *)

Inductive role := System | User | Assistant.

(** What [console.print] is called with. *)
Inductive message :=
| MInterrupted                   (* "Interrupted! Shutting down..." *)
| MUsage (prog : str)            (* "Usage: ..." *)
| MStartError                    (* "Error: Could not start Ollama." *)
| MEmptyCommand                  (* "Error: Model returned an empty command." *)
| MError (e : error)             (* "Error: {e}" *)
| MAborted                       (* "Aborted." *)
| MPutToSleep                    (* "... put back to sleep." *)
| MAnswer (content : str)        (* the Answer panel *)
| MSuggested (command : str).    (* the Suggested Command panel *)

(** An event records a call that returned, with its arguments. For
    [EPrint] the characters that reach the terminal are rich's rendering
    of the message (styles applied, unknown tags dropped, emoji codes
    replaced, the lines of a [Syntax] panel cropped to the panel width);
    the rendering is not modelled, only whether the markup parser
    accepts the text (see [console_print]). *)
Inductive event :=
| EGet (o : get_outcome)         (* requests.get *)
| EPkill                         (* pkill -9 -f ollama *)
| EPopen (h : handle)            (* Popen(["ollama", "serve"]) *)
| ESleep                         (* time.sleep(0.5) *)
| ETerminate (h : handle)        (* process.terminate() *)
| EWait (h : handle) (exited : bool)   (* process.wait(timeout=2) *)
| EKill (h : handle)             (* process.kill() *)
| EChat (messages : list (role * str)) (* ollama.chat *)
| EPrint (m : message)           (* console.print *)
| EInput                         (* console.input *)
| ERun (command : str).          (* subprocess.run(command, shell=True) *)

(** ** The monad: state, exceptions, and a fuel marker for the poll loop *)

Record state := {
  server_process : option handle;  (* the global of that name *)
  gets : nat;                      (* GETs issued so far *)
  waits : nat;                     (* [process.wait] calls so far *)
  clock : nat;                     (* external actions so far *)
  trace : list event
}.

Definition initial : state :=
  {| server_process := None; gets := 0; waits := 0; clock := 0; trace := [] |}.

Inductive result (A : Type) :=
| Normal (a : A)
| Raised (e : exn)
| OutOfFuel.
Arguments Raised {A} e.
Arguments OutOfFuel {A}.

Definition M (A : Type) := state -> result A * state.

Definition ret {A} (a : A) : M A := fun s => (Normal a, s).

Definition bind {A B} (m : M A) (k : A -> M B) : M B :=
  fun s =>
    match m s with
    | (Normal a, s') => k a s'
    | (Raised e, s') => (Raised e, s')
    | (OutOfFuel, s') => (OutOfFuel, s')
    end.

Definition raise {A} (e : exn) : M A := fun s => (Raised e, s).

(** [sys.exit(code)] *)
Definition sys_exit {A} (code : nat) : M A := raise (SystemExit code).

(** [try: body  except Exception as e: handler(e)] *)
Definition try_except {A} (body : M A) (handler : error -> M A) : M A :=
  fun s =>
    match body s with
    | (Raised (PyError e), s') => handler e s'
    | other => other
    end.

(** [try: body  finally: final]; an exception of [final] replaces the
    outcome of [body]. *)
Definition try_finally {A} (body : M A) (final : M unit) : M A :=
  fun s =>
    match body s with
    | (OutOfFuel, s') => (OutOfFuel, s')
    | (r, s') =>
        match final s' with
        | (Normal _, s'') => (r, s'')
        | (Raised e, s'') => (Raised e, s'')
        | (OutOfFuel, s'') => (OutOfFuel, s'')
        end
    end.

Declare Scope session_scope.
Delimit Scope session_scope with session.
Notation "x <- m ;; k" := (bind m (fun x => k))
  (at level 61, m at next level, right associativity) : session_scope.
Notation "m ;; k" := (bind m (fun _ => k))
  (at level 61, right associativity) : session_scope.
Local Open Scope session_scope.

(** Truth value of a process object or [None]. *)
Definition truthy (p : option handle) : bool :=
  match p with
  | Some _ => true
  | None => false
  end.

(** State updates. *)
Definition log (e : event) (s : state) : state :=
  {| server_process := server_process s; gets := gets s; waits := waits s;
     clock := clock s; trace := trace s ++ [e] |}.

Definition tick (s : state) : state :=
  {| server_process := server_process s; gets := gets s; waits := waits s;
     clock := S (clock s); trace := trace s |}.

Definition count_get (s : state) : state :=
  {| server_process := server_process s; gets := S (gets s);
     waits := waits s; clock := clock s; trace := trace s |}.

Definition count_wait (s : state) : state :=
  {| server_process := server_process s; gets := gets s;
     waits := S (waits s); clock := clock s; trace := trace s |}.

Definition assign_server_process (p : option handle) (s : state) : state :=
  {| server_process := p; gets := gets s; waits := waits s;
     clock := clock s; trace := trace s |}.

Definition get_server_process : M (option handle) :=
  fun s => (Normal (server_process s), s).

Definition set_server_process (p : option handle) : M unit :=
  fun s => (Normal tt, assign_server_process p s).

(** Appends one external action to the trace. *)
Definition emit (e : event) : M unit :=
  fun s => (Normal tt, log e s).

(** ** What [console.print] parses as markup

    A string given to [console.print], and a string that is the content
    of a [Panel], goes through rich's markup parser. Where the program
    puts data of the run into such a string, the parser can raise
    [MarkupError] (a closing tag that matches no open tag, as in
    "[/INST]"). *)

(** [str(e)] *)
Definition error_text (E : env) (e : error) : str :=
  match e with
  | RequestsError r => requests_text E r
  | ChatError msg => msg
  | ValueError => lit "list.remove(x): x not in list"
  | IndexError => lit "list index out of range"
  | MarkupError msg => msg
  end.

(** The f-strings of lines 96 and 168. *)
Definition usage_line (prog : str) : str :=
  lit "[bold]Usage:[/bold] " ++ prog ++ lit " [-a] 'your query here'".

Definition error_line (E : env) (e : error) : str :=
  lit "[bold red]Error:[/bold red] " ++ error_text E e.

(** The text that depends on the run and is parsed as markup, for each
    message: the two f-strings and the content of the Answer panel. The
    other messages are fixed, well-formed markup, and the command of the
    Suggested Command panel is inside a [Syntax], which is not parsed as
    markup. *)
Definition markup_of (E : env) (m : message) : option str :=
  match m with
  | MUsage prog => Some (usage_line prog)
  | MError e => Some (error_line E e)
  | MAnswer content => Some content
  | MInterrupted | MStartError | MEmptyCommand | MAborted | MPutToSleep
  | MSuggested _ => None
  end.

(** The message of the [MarkupError] that printing [m] raises, if it
    raises one. *)
Definition markup_failure (E : env) (m : message) : option str :=
  match markup_of E m with
  | Some text => markup_error E text
  | None => None
  end.

(** ** External actions

    Python runs a pending signal handler when the interpreter gets
    control back; [pending] is what happens at such a point, and every
    external action starts with one. The moments between two external
    actions are not told apart, and the spinner of [console.status] and
    the syntax highlighting leave no event. *)
Section Actions.

Variable E : env.
Variable pending : M unit.

Definition act (e : event) : M unit := pending ;; emit e.

(** [console.print(...)]: rich renders before it writes, so a
    [MarkupError] leaves nothing on the terminal. The terminal is taken to
    accept what is written (UTF-8). *)
Definition console_print (m : message) : M unit :=
  match markup_failure E m with
  | Some msg => pending ;; raise (PyError (MarkupError msg))
  | None => act (EPrint m)
  end.

(** [requests.get(OLLAMA_API_URL, timeout=0.5)] *)
Definition requests_get : M get_outcome :=
  pending ;;
  fun s =>
    let o := http_get E (gets s) in
    (Normal o, log (EGet o) (count_get s)).

(** [process.wait(timeout=2)]: [true] when the process has exited in time,
    [false] for TimeoutExpired. *)
Definition process_wait (h : handle) : M bool :=
  pending ;;
  fun s =>
    let b := exits_in_time E (waits s) in
    (Normal b, log (EWait h b) (count_wait s)).

Definition cleanup_zombies : M unit := act EPkill.

Definition is_ollama_running : M bool :=
  o <- requests_get ;;
  match o with
  | Response _ => ret true
  | GetRaises e =>
      if isinstance_ConnectionError e || isinstance_ReadTimeout e
      then ret false
      else raise (PyError (RequestsError e))
  end.

(** The [while] loop of [start_ollama]; [retries] is the variable of that
    name, [fuel] bounds the number of iterations of the model. *)
Fixpoint poll_until_running (fuel retries : nat) : M unit :=
  match fuel with
  | 0 => fun s => (OutOfFuel, s)
  | S fuel' =>
      up <- is_ollama_running ;;
      if negb up then
        act ESleep ;;
        let retries := retries + 1 in
        if 20 <? retries then
          console_print MStartError ;;
          sys_exit 1
        else poll_until_running fuel' retries
      else ret tt
  end.

Definition start_ollama_fuel (fuel : nat) : M handle :=
  act (EPopen (new_process E)) ;;
  let process := new_process E in
  let retries := 0 in
  poll_until_running fuel retries ;;
  ret process.

Definition start_ollama : M handle := start_ollama_fuel 64.

Definition stop_ollama (process : option handle) : M unit :=
  match process with
  | Some h =>
      act (ETerminate h) ;;
      exited <- process_wait h ;;
      if exited then ret tt else act (EKill h)
  | None => ret tt
  end.

End Actions.

(** ** The signal handler and its delivery *)

(** Inside the handler no further signal is looked at. *)
Definition signal_handler (E : env) : M unit :=
  console_print E (ret tt) MInterrupted ;;
  server_process <- get_server_process ;;
  (if truthy server_process
   then stop_ollama E (ret tt) server_process
   else ret tt) ;;
  sys_exit 0.

(** One external action of the main flow begins: the handler runs first
    when this is the moment SIGINT arrives. Its [SystemExit] then unwinds
    the main flow from this action on, through [except] and [finally]. *)
Definition deliver (E : env) : M unit :=
  fun s =>
    match sigint E with
    | Some n =>
        if n =? clock s then signal_handler E (tick s)
        else (Normal tt, tick s)
    | None => (Normal tt, tick s)
    end.

(** ** [main] *)

(** [str.lower]. *)
Definition lower (E : env) (s : str) : str :=
  if forallb is_ascii s then map ascii_lower s else unicode_lower E s.

Definition system_instruction (ask_mode : bool) : str :=
  if ask_mode then
    lit "You are a concise macOS (Apple Silicon) assistant. "
    ++ lit "Answer clearly and accurately."
  else
    lit "You are an expert macOS (Apple Silicon) terminal assistant. "
    ++ lit "Output ONLY the raw, single-line command string. No markdown. No explanations."
    ++ [LF]
    ++ lit "GUIDELINES:" ++ [LF]
    ++ lit "1. TOOLS: Use modern native tools (pmset for battery, ipconfig for IP, diskutil, etc). "
    ++ lit "Avoid Linux-specific flags (e.g. use 'grep -E', never 'grep -P')." ++ [LF]
    ++ lit "2. FORMAT: Chain commands with '&&' or '|' into a single line. "
    ++ lit "Be robust with regex (match units like '%' to avoid false positives)." ++ [LF]
    ++ lit "3. OUTPUT: Print to STDOUT by default. Only use '| pbcopy' if the user explicitly asks to 'copy' or 'clip'.".

Definition chat_messages (ask_mode : bool) (query : str) : list (role * str) :=
  [ (System, system_instruction ask_mode);
    (User, lit "get battery");
    (Assistant, battery_cmd);
    (User, lit "copy ip address");
    (Assistant, ip_cmd);
    (User, query) ].

(** [confirm in ['', 'y', 'yes']] *)
Definition affirmative (confirm : str) : bool :=
  list_in confirm [lit ""; lit "y"; lit "yes"].

Section Main.

Variable E : env.

(** [ollama.chat(...)] and the extraction of the stripped content. *)
Definition ollama_chat (ask_mode : bool) (query : str) : M str :=
  act (deliver E) (EChat (chat_messages ask_mode query)) ;;
  match chat_result E with
  | ChatReply content => ret (strip content)
  | ChatRaises msg => raise (PyError (ChatError msg))
  end.

(** [console.input(...)] *)
Definition console_input : M str :=
  act (deliver E) EInput ;;
  ret (confirm_input E).

(** The "DETECT MODE" block: the mode flag and what is left of
    [sys.argv]. *)
Definition detect_mode (argv : list str) : M (bool * list str) :=
  if list_in DASH_A argv then
    match list_remove DASH_A argv with
    | Some argv' => ret (true, argv')
    | None => raise (PyError ValueError)
    end
  else ret (false, argv).

(** The "DISPLAY OUTPUT" block. *)
Definition display_output (ask_mode : bool) (content : str) : M unit :=
  if ask_mode then
    console_print E (deliver E) (MAnswer content)
  else
    let command := sanitize_command content in
    match command with
    | [] => console_print E (deliver E) MEmptyCommand
    | _ :: _ =>
        console_print E (deliver E) (MSuggested command) ;;
        confirm <- console_input ;;
        let confirm := lower E confirm in
        if affirmative confirm then
          act (deliver E) (ERun command)
        else
          console_print E (deliver E) MAborted
    end.

(** The inference call and the display of its result (the rest of the
    [try] block of [main]). *)
Definition ask_and_display (ask_mode : bool) (query : str) : M unit :=
  content <- ollama_chat ask_mode query ;;
  display_output ask_mode content.

(** [main], from the installation of the handler on. *)
Definition main (argv : list str) : M unit :=
  mode <- detect_mode argv ;;
  let '(ask_mode, argv) := mode in
  if (List.length argv <? 2)%nat then
    match argv with
    | prog :: _ => console_print E (deliver E) (MUsage prog) ;; sys_exit 1
    | [] => raise (PyError IndexError)
    end
  else
    let query := join SPACE (tl argv) in
    running <- is_ollama_running E (deliver E) ;;
    (if negb running then cleanup_zombies (deliver E) else ret tt) ;;
    was_already_running <- is_ollama_running E (deliver E) ;;
    try_finally
      (try_except
         ((if negb was_already_running then
             process <- start_ollama E (deliver E) ;;
             set_server_process (Some process)
           else ret tt) ;;
          ask_and_display ask_mode query)
         (fun e => console_print E (deliver E) (MError e)))
      (server_process <- get_server_process ;;
       if negb was_already_running && truthy server_process then
         stop_ollama E (deliver E) server_process ;;
         console_print E (deliver E) MPutToSleep
       else ret tt).

(** A run of the program from the initial state. *)
Definition run (argv : list str) : result unit * state := main argv initial.

End Main.

(** ** Observations on a run *)

(** How often [stop_ollama] was entered for process [h]: each entry with
    a process begins with [terminate]. *)
Fixpoint stops_of (h : handle) (t : list event) : nat :=
  match t with
  | [] => 0
  | ETerminate h' :: t' => (if Nat.eqb h h' then 1 else 0) + stops_of h t'
  | _ :: t' => stops_of h t'
  end.

Definition is_get (e : event) : bool :=
  match e with EGet _ => true | _ => false end.
Definition is_sleep (e : event) : bool :=
  match e with ESleep => true | _ => false end.
Definition is_popen (e : event) : bool :=
  match e with EPopen _ => true | _ => false end.
Definition is_chat (e : event) : bool :=
  match e with EChat _ => true | _ => false end.
Definition is_run (e : event) : bool :=
  match e with ERun _ => true | _ => false end.

(** The part of a trace after the launch of the server. *)
Fixpoint after_launch (t : list event) : list event :=
  match t with
  | [] => []
  | EPopen _ :: t' => t'
  | _ :: t' => after_launch t'
  end.

Definition count (p : event -> bool) (t : list event) : nat :=
  List.length (filter p t).

(** Actions that change which server processes exist. *)
Definition touches_server (e : event) : bool :=
  match e with
  | EPkill | EPopen _ | ETerminate _ | EKill _ => true
  | _ => false
  end.

Definition is_input (e : event) : bool :=
  match e with EInput => true | _ => false end.
Definition is_terminate (e : event) : bool :=
  match e with ETerminate _ => true | _ => false end.

(** The outcomes of a GET for which [is_ollama_running] answers. *)
Definition healthy (o : get_outcome) : bool :=
  match o with
  | Response _ => true
  | GetRaises _ => false
  end.

Definition unreachable (o : get_outcome) : bool :=
  match o with
  | Response _ => false
  | GetRaises e => isinstance_ConnectionError e || isinstance_Timeout e
  end.

(** The mode, the arguments and the query [main] works with. *)
Definition ask_mode_of (argv : list str) : bool := list_in DASH_A argv.

Definition argv_after (argv : list str) : list str :=
  match list_remove DASH_A argv with
  | Some argv' => argv'
  | None => argv
  end.

Definition query_of (argv : list str) : str := join SPACE (tl (argv_after argv)).

(** The command [main] extracts from the reply of the model. *)
Definition extracted_command (E : env) : str :=
  match chat_result E with
  | ChatReply content => sanitize_command (strip content)
  | ChatRaises _ => []
  end.

(** What the display block emits for a reply when nothing interrupts
    it. *)
Definition display_events (E : env) (ask_mode : bool) (content : str)
  : list event :=
  if ask_mode then
    match markup_error E content with
    | None => [EPrint (MAnswer content)]
    | Some _ => []
    end
  else
    match sanitize_command content with
    | [] => [EPrint MEmptyCommand]
    | command =>
        [EPrint (MSuggested command); EInput;
         if affirmative (lower E (confirm_input E))
         then ERun command else EPrint MAborted]
    end.

(** The events of the server lifecycle and of error reporting: all but
    the inference call, the panels, the prompt and the execution. *)
Definition is_lifecycle (e : event) : bool :=
  match e with
  | EGet _ | EPkill | EPopen _ | ESleep
  | ETerminate _ | EWait _ _ | EKill _ => true
  | EPrint (MInterrupted | MUsage _ | MStartError | MError _ | MPutToSleep) =>
      true
  | _ => false
  end.

(** The polls of a server that does not come up: GET number [g] onwards,
    each followed by a sleep. *)
Fixpoint failed_polls (E : env) (g n : nat) : list event :=
  match n with
  | 0 => []
  | S n' => EGet (http_get E g) :: ESleep :: failed_polls E (S g) n'
  end.

(** [m] never runs out of fuel. *)
Definition total {A} (m : M A) : Prop := forall s, fst (m s) <> OutOfFuel.

(** ** A small program logic *)

(** From a state with [P], [m] ends in a result and a state with [Q]. *)
Definition triple {A} (P : state -> Prop) (m : M A)
           (Q : result A -> state -> Prop) : Prop :=
  forall s, P s -> Q (fst (m s)) (snd (m s)).

(** [m] keeps the invariant [I], however it ends. *)
Definition preserves {A} (I : state -> Prop) (m : M A) : Prop :=
  triple I m (fun _ s => I s).

(** [I] survives the bookkeeping of an external action whose event
    satisfies [ok]. *)
Record stable (I : state -> Prop) (ok : event -> Prop) : Prop := {
  stable_log : forall e s, ok e -> I s -> I (log e s);
  stable_tick : forall s, I s -> I (tick s);
  stable_count_get : forall s, I s -> I (count_get s);
  stable_count_wait : forall s, I s -> I (count_wait s)
}.

(** The run has not touched any server process and holds no handle. *)
Definition untouched (s : state) : Prop :=
  Forall (fun e => touches_server e = false) (trace s) /\
  server_process s = None.

(** No event of the trace is of the kind [p], and the handle is [sp]. *)
Definition without (p : event -> bool) (sp : option handle) (s : state)
  : Prop :=
  Forall (fun e => p e = false) (trace s) /\ server_process s = sp.

(** ** Vocabulary of the statements about the lifecycle *)

(** What [stop_ollama] does to [p] when nothing interrupts it and its
    [process.wait] is the [w]-th of the run: terminate, wait, and kill
    when the wait timed out. *)
Definition stop_events (E : env) (p : option handle) (w : nat) : list event :=
  match p with
  | Some h =>
      ETerminate h :: EWait h (exits_in_time E w)
      :: (if exits_in_time E w then [] else [EKill h])
  | None => []
  end.

(** The process an event acts on, if any. *)
Definition target (e : event) : option handle :=
  match e with
  | EPopen h | ETerminate h | EWait h _ | EKill h => Some h
  | _ => None
  end.

(** The kinds of external action. *)
Inductive kind :=
| KGet | KPkill | KPopen | KSleep | KTerminate | KWait | KKill
| KChat | KPrint | KInput | KRun.

Definition kind_of (e : event) : kind :=
  match e with
  | EGet _ => KGet
  | EPkill => KPkill
  | EPopen _ => KPopen
  | ESleep => KSleep
  | ETerminate _ => KTerminate
  | EWait _ _ => KWait
  | EKill _ => KKill
  | EChat _ => KChat
  | EPrint _ => KPrint
  | EInput => KInput
  | ERun _ => KRun
  end.

Definition kind_eqb (a b : kind) : bool :=
  match a, b with
  | KGet, KGet | KPkill, KPkill | KPopen, KPopen | KSleep, KSleep
  | KTerminate, KTerminate | KWait, KWait | KKill, KKill
  | KChat, KChat | KPrint, KPrint | KInput, KInput | KRun, KRun => true
  | _, _ => false
  end.

(** How many actions of kind [k] a trace holds. *)
Definition tally (k : kind) (t : list event) : nat :=
  count (fun e => kind_eqb (kind_of e) k) t.

(** SIGINT has been delivered: the clock is past its moment. *)
Definition fired (E : env) (s : state) : bool :=
  match sigint E with
  | Some n => (n <? clock s)%nat
  | None => false
  end.

(** The actions of the signal handler, by kind: one message and one
    [stop_ollama]. *)
Definition handler_cost (k : kind) : nat :=
  match k with
  | KPrint | KTerminate | KWait | KKill => 1
  | _ => 0
  end.

(** The trace holds at most [v k] actions of each kind [k], those of the
    signal handler apart. *)
Definition within (E : env) (v : kind -> nat) (s : state) : Prop :=
  forall k,
    tally k (trace s) <= v k + (if fired E s then handler_cost k else 0).

(** [m] adds at most [c k] actions of each kind [k], however it ends. *)
Definition costs {A} (E : env) (m : M A) (c : kind -> nat) : Prop :=
  forall v, triple (within E v) m (fun _ s => within E (fun k => v k + c k) s).

(** One action of kind [k0]. *)
Definition one (k0 : kind) : kind -> nat :=
  fun k => if kind_eqb k0 k then 1 else 0.

(** No action. *)
Definition none : kind -> nat := fun _ => 0.

(** The actions of the poll loop entered with [retries]. *)
Definition poll_cost (retries : nat) (k : kind) : nat :=
  match k with
  | KGet | KSleep => 21 - retries
  | KPrint => 1
  | _ => 0
  end.

(** The actions of [stop_ollama], of the display block and of [main]
    without the handler. *)
Definition stop_cost (k : kind) : nat :=
  match k with
  | KTerminate | KWait | KKill => 1
  | _ => 0
  end.

Definition display_cost (k : kind) : nat :=
  match k with
  | KPrint => 2
  | KInput | KRun => 1
  | _ => 0
  end.

Definition main_cost (k : kind) : nat :=
  match k with
  | KGet => 23
  | KSleep => 21
  | KPrint => 5
  | _ => 1
  end.

(** The most actions of each kind a run takes, the handler included. *)
Definition limit (k : kind) : nat :=
  match k with
  | KGet => 23
  | KSleep => 21
  | KPkill | KPopen | KChat | KInput | KRun => 1
  | KTerminate | KWait | KKill => 2
  | KPrint => 6
  end.

(** No SIGINT can be delivered from [s] on: none comes, or it has been
    delivered. *)
Definition past (E : env) (s : state) : Prop :=
  sigint E = None \/ fired E s = true.

(** SIGINT has not been delivered, and the handler has printed nothing. *)
Definition calm (E : env) (s : state) : Prop :=
  fired E s = false /\ ~ In (EPrint MInterrupted) (trace s).

(** How a part of the main flow ends with respect to SIGINT: undisturbed,
    or by the [SystemExit(0)] of the handler. *)
Definition ends {A} (E : env) (r : result A) (s : state) : Prop :=
  calm E s \/
  (fired E s = true /\ In (EPrint MInterrupted) (trace s) /\
   r = Raised (SystemExit 0)).

Definition interruptible {A} (E : env) (m : M A) : Prop :=
  triple (calm E) m (ends E).

(** Every executed command was passed to the panel, and the prompt
    answered, before. *)
Definition confirmed_first (t : list event) : Prop :=
  forall pre c post,
    t = pre ++ ERun c :: post ->
    In (EPrint (MSuggested c)) pre /\ In EInput pre.

(** The state of the display block: [confirmed_first], and whether the
    panel with [c] and the prompt are in the trace. *)
Definition displaying (c : str) (printed asked : bool) (s : state) : Prop :=
  confirmed_first (trace s) /\
  (printed = true -> In (EPrint (MSuggested c)) (trace s)) /\
  (asked = true -> In EInput (trace s)).

(** What the start decision allows: the reaper after a failed first
    probe; a launch, and actions on the launched process, after a failed
    second probe. *)
Definition permitted (E : env) (e : event) : Prop :=
  match e with
  | EPkill => unreachable (http_get E 0) = true
  | EPopen h | ETerminate h | EWait h _ | EKill h =>
      h = new_process E /\ unreachable (http_get E 1) = true
  | _ => True
  end.

(** Every action so far was permitted, and so is stopping the process the
    global holds. *)
Definition owned (E : env) (s : state) : Prop :=
  Forall (permitted E) (trace s) /\
  forall h, server_process s = Some h -> permitted E (ETerminate h).

(** The message of a printed event was accepted by the markup parser. *)
Definition printable (E : env) (e : event) : Prop :=
  match e with
  | EPrint m => markup_failure E m = None
  | _ => True
  end.

(** How the inference call and the display end when nothing interrupts
    them. *)
Definition block_result (E : env) (ask_mode : bool) : result unit :=
  match chat_result E with
  | ChatRaises msg => Raised (PyError (ChatError msg))
  | ChatReply content =>
      if ask_mode then
        match markup_error E (strip content) with
        | None => Normal tt
        | Some msg => Raised (PyError (MarkupError msg))
        end
      else Normal tt
  end.

(** What the [except] clause makes of it: the exception is printed,
    unless printing it raises in turn. *)
Definition caught (E : env) (r : result unit) : result unit :=
  match r with
  | Raised (PyError e) =>
      match markup_failure E (MError e) with
      | None => Normal tt
      | Some msg => Raised (PyError (MarkupError msg))
      end
  | _ => r
  end.

(** ** Sample runs *)

Definition sample_argv : list str := [lit "pls"; lit "copy"; lit "ip"].

Definition answer_argv : list str :=
  [lit "pls"; lit "what"; lit "does"; lit "-a"; lit "-a"; lit "do"].

(** A server that is up from the start; the model wraps its reply in
    backticks and the user types "Y". *)
Definition env_running : env :=
  {| http_get := fun _ => Response 200;
     new_process := 4242;
     exits_in_time := fun _ => true;
     chat_result := ChatReply ip_raw;
     confirm_input := lit "Y";
     unicode_lower := fun s => s;
     markup_error := fun _ => None;
     requests_text := fun _ => [];
     sigint := None |}.

(** No server, and the one that is launched never answers. *)
Definition env_never_up : env :=
  {| http_get := fun _ => GetRaises ConnectionError;
     new_process := 4242;
     exits_in_time := fun _ => true;
     chat_result := ChatReply ip_raw;
     confirm_input := lit "Y";
     unicode_lower := fun s => s;
     markup_error := fun _ => None;
     requests_text := fun _ => [];
     sigint := None |}.

(** No server at first; the one that is launched answers its third poll
    (the fifth GET of the run); SIGINT as given. *)
Definition env_cold (signal : option nat) : env :=
  {| http_get := fun n => if (n <? 4)%nat then GetRaises ConnectionError
                          else Response 200;
     new_process := 4242;
     exits_in_time := fun _ => true;
     chat_result := ChatReply ip_raw;
     confirm_input := lit "Y";
     unicode_lower := fun s => s;
     markup_error := fun _ => None;
     requests_text := fun _ => [];
     sigint := signal |}.

(** The server answers the first probe and misses the second (a read
    timeout); it answers again from the third GET on. *)
Definition env_missed_probe : env :=
  {| http_get := fun n => if (n =? 1)%nat then GetRaises ReadTimeout
                          else Response 200;
     new_process := 4242;
     exits_in_time := fun _ => true;
     chat_result := ChatReply ip_raw;
     confirm_input := lit "n";
     unicode_lower := fun s => s;
     markup_error := fun _ => None;
     requests_text := fun _ => [];
     sigint := None |}.

(** As [env_cold] without SIGINT, but the inference call fails. *)
Definition env_chat_fails : env :=
  {| http_get := fun n => if (n <? 4)%nat then GetRaises ConnectionError
                          else Response 200;
     new_process := 4242;
     exits_in_time := fun _ => true;
     chat_result := ChatRaises (lit "model not found");
     confirm_input := lit "Y";
     unicode_lower := fun s => s;
     markup_error := fun _ => None;
     requests_text := fun _ => [];
     sigint := None |}.

(** The model replies with fence markers and whitespace only. *)
Definition env_empty_reply : env :=
  {| http_get := fun _ => Response 200;
     new_process := 4242;
     exits_in_time := fun _ => true;
     chat_result := ChatReply (lit "```" ++ [LF] ++ lit "  ```  " ++ [LF]);
     confirm_input := lit "y";
     unicode_lower := fun s => s;
     markup_error := fun _ => None;
     requests_text := fun _ => [];
     sigint := None |}.

(** The first probe runs into a redirect loop. *)
Definition env_redirect_loop : env :=
  {| http_get := fun _ => GetRaises TooManyRedirects;
     new_process := 4242;
     exits_in_time := fun _ => true;
     chat_result := ChatReply ip_raw;
     confirm_input := lit "Y";
     unicode_lower := fun s => s;
     markup_error := fun _ => None;
     requests_text := fun _ => [];
     sigint := None |}.

(** A parser that rejects the closing tag [tag] wherever it occurs, as
    rich does when no such tag is open. *)
Definition rejects (tag : str) (text : str) : option str :=
  if contains tag text
  then Some (lit "closing tag '" ++ tag ++ lit "' doesn't match any open tag")
  else None.

(** As [env_cold] without SIGINT, but the inference call fails with a
    message that holds a closing tag. *)
Definition env_bad_error_text : env :=
  {| http_get := fun n => if (n <? 4)%nat then GetRaises ConnectionError
                          else Response 200;
     new_process := 4242;
     exits_in_time := fun _ => true;
     chat_result := ChatRaises (lit "unexpected token [/INST]");
     confirm_input := lit "Y";
     unicode_lower := fun s => s;
     markup_error := rejects (lit "[/INST]");
     requests_text := fun _ => [];
     sigint := None |}.

(** As [env_running], but the reply is a path in brackets. *)
Definition env_bad_answer : env :=
  {| http_get := fun _ => Response 200;
     new_process := 4242;
     exits_in_time := fun _ => true;
     chat_result := ChatReply (lit "[/usr/local/bin]");
     confirm_input := lit "Y";
     unicode_lower := fun s => s;
     markup_error := rejects (lit "[/usr/local/bin]");
     requests_text := fun _ => [];
     sigint := None |}.

(** The first probe finds the connection broken in mid-response. *)
Definition env_broken_response : env :=
  {| http_get := fun _ => GetRaises ChunkedEncodingError;
     new_process := 4242;
     exits_in_time := fun _ => true;
     chat_result := ChatReply ip_raw;
     confirm_input := lit "Y";
     unicode_lower := fun s => s;
     markup_error := fun _ => None;
     requests_text := fun _ => [];
     sigint := None |}.

(** The exit status of the process. *)
Definition exit_status (r : result unit) : option nat :=
  match r with
  | Normal _ => Some 0
  | Raised (SystemExit code) => Some code
  | Raised (PyError _) => Some 1
  | OutOfFuel => None
  end.

End Session.

(* ================================================================== *)
(** * Facts about the string operations *)
(* ================================================================== *)

Module PyStrFacts.

Local Open Scope N_scope.

Lemma backtick_not_space : isspace BACKTICK = false.
Proof. reflexivity. Qed.

Lemma LF_space : isspace LF = true.
Proof. reflexivity. Qed.

Lemma linebreak_is_space c : islinebreak c = true -> isspace c = true.
Proof.
  unfold islinebreak, isspace.
  rewrite !orb_true_iff, !andb_true_iff, !N.leb_le, !N.eqb_eq.
  lia.
Qed.

Lemma blank_nil : blank [].
Proof. reflexivity. Qed.

Lemma blank_cons c s : blank (c :: s) <-> isspace c = true /\ blank s.
Proof. unfold blank; simpl. now rewrite andb_true_iff. Qed.

Lemma blank_app s t : blank (s ++ t) <-> blank s /\ blank t.
Proof. unfold blank. now rewrite forallb_app, andb_true_iff. Qed.

Lemma blank_dec s : {blank s} + {~ blank s}.
Proof.
  unfold blank. destruct (forallb isspace s); [left | right]; congruence.
Qed.

(** ** [lstrip] *)

Lemma lstrip_blank s : blank s <-> lstrip s = [].
Proof.
  induction s as [|c r IH]; simpl.
  - split; reflexivity.
  - rewrite blank_cons. destruct (isspace c) eqn:Hc.
    + rewrite <- IH. tauto.
    + split; [intros [? _] | intros ?]; discriminate.
Qed.

Lemma lstrip_app_blank s t : blank s -> lstrip (s ++ t) = lstrip t.
Proof.
  induction s as [|c r IH]; simpl; intros H; [reflexivity|].
  apply blank_cons in H as [Hc Hr]. rewrite Hc. auto.
Qed.

Lemma lstrip_app_nonblank s t : ~ blank s -> lstrip (s ++ t) = lstrip s ++ t.
Proof.
  induction s as [|c r IH]; simpl; intros H.
  - exfalso. apply H, blank_nil.
  - destruct (isspace c) eqn:Hc; [|reflexivity].
    apply IH. intros Hr. apply H, blank_cons. auto.
Qed.

Lemma lstrip_head s :
  lstrip s = [] \/ exists c r, lstrip s = c :: r /\ isspace c = false.
Proof.
  induction s as [|c r IH]; simpl; [now left|].
  destruct (isspace c) eqn:Hc; [exact IH|].
  right. now exists c, r.
Qed.

Lemma lstrip_fixed c r : isspace c = false -> lstrip (c :: r) = c :: r.
Proof. simpl. now intros ->. Qed.

Lemma lstrip_idem s : lstrip (lstrip s) = lstrip s.
Proof.
  destruct (lstrip_head s) as [-> | (c & r & -> & Hc)]; [reflexivity|].
  now apply lstrip_fixed.
Qed.

(** ** [rstrip] *)

Lemma rstrip_blank s : blank s <-> rstrip s = [].
Proof.
  induction s as [|c r IH]; simpl.
  - split; reflexivity.
  - rewrite blank_cons. destruct (rstrip r) eqn:Hr.
    + destruct (isspace c); split; try tauto; try discriminate.
      intros [? _]; discriminate.
    + split; [|discriminate]. intros [_ Hb]. apply IH in Hb. discriminate.
Qed.

Lemma rstrip_cons_nonblank c r :
  ~ blank r -> rstrip (c :: r) = c :: rstrip r.
Proof.
  intros H. simpl. destruct (rstrip r) eqn:Hr; [|reflexivity].
  exfalso. apply H, rstrip_blank, Hr.
Qed.

Lemma rstrip_cons_nonspace c r :
  isspace c = false -> rstrip (c :: r) = c :: rstrip r.
Proof.
  intros H. simpl. destruct (rstrip r); [|reflexivity]. now rewrite H.
Qed.

Lemma rstrip_cons_blank c r :
  isspace c = true -> blank r -> rstrip (c :: r) = [].
Proof.
  intros Hc Hr. apply rstrip_blank, blank_cons. auto.
Qed.

Lemma rstrip_app_blank s t : blank t -> rstrip (s ++ t) = rstrip s.
Proof.
  intros Ht. induction s as [|c r IH]; simpl.
  - now apply rstrip_blank.
  - now rewrite IH.
Qed.

Lemma rstrip_app_nonblank s t : ~ blank t -> rstrip (s ++ t) = s ++ rstrip t.
Proof.
  intros Ht. induction s as [|c r IH]; [reflexivity|].
  change ((c :: r) ++ t) with (c :: (r ++ t)).
  rewrite rstrip_cons_nonblank, IH; [reflexivity|].
  intros Hb. apply blank_app in Hb. tauto.
Qed.

Lemma rstrip_idem s : rstrip (rstrip s) = rstrip s.
Proof.
  induction s as [|c r IH]; [reflexivity|].
  destruct (blank_dec r) as [Hr | Hr].
  - simpl. apply rstrip_blank in Hr. rewrite Hr.
    destruct (isspace c) eqn:Hc; simpl; [reflexivity | now rewrite Hc].
  - rewrite rstrip_cons_nonblank by assumption.
    rewrite rstrip_cons_nonblank, IH; [reflexivity|].
    intros Hb. apply rstrip_blank in Hb. rewrite IH in Hb.
    apply Hr, rstrip_blank, Hb.
Qed.

(** ** [strip] *)

Lemma strip_blank s : blank s <-> strip s = [].
Proof.
  unfold strip. rewrite <- rstrip_blank.
  split.
  - intros H. apply lstrip_blank in H. rewrite H. apply blank_nil.
  - intros H. destruct (blank_dec s) as [|Hn]; [assumption|].
    exfalso. destruct (lstrip_head s) as [Hl | (c & r & Hl & Hc)].
    + apply Hn, lstrip_blank, Hl.
    + rewrite Hl in H. apply blank_cons in H as [H _]. congruence.
Qed.

Lemma lstrip_rstrip_lstrip s : lstrip (rstrip (lstrip s)) = rstrip (lstrip s).
Proof.
  destruct (lstrip_head s) as [-> | (c & r & -> & Hc)]; [reflexivity|].
  rewrite rstrip_cons_nonspace by assumption.
  now apply lstrip_fixed.
Qed.

Lemma strip_idem s : strip (strip s) = strip s.
Proof.
  unfold strip. now rewrite lstrip_rstrip_lstrip, rstrip_idem.
Qed.

Lemma strip_lstrip s : strip (lstrip s) = strip s.
Proof. unfold strip. now rewrite lstrip_idem. Qed.

Lemma strip_rstrip s : strip (rstrip s) = strip s.
Proof.
  unfold strip.
  destruct (blank_dec s) as [Hb | Hb].
  - pose proof Hb as Hb'. apply rstrip_blank in Hb. rewrite Hb.
    apply lstrip_blank in Hb'. now rewrite Hb'.
  - revert Hb. induction s as [|c r IH]; intros Hb.
    + exfalso. apply Hb, blank_nil.
    + destruct (isspace c) eqn:Hc.
      * assert (Hr : ~ blank r) by (intros H; apply Hb, blank_cons; auto).
        rewrite rstrip_cons_nonblank by assumption.
        simpl. rewrite Hc. now apply IH.
      * rewrite rstrip_cons_nonspace by assumption.
        rewrite !lstrip_fixed by assumption.
        rewrite rstrip_cons_nonspace by assumption.
        now rewrite rstrip_cons_nonspace, rstrip_idem.
Qed.

(** Every character of a stripped text was in the text. *)

Lemma forallb_lstrip (P : char -> bool) s :
  forallb P s = true -> forallb P (lstrip s) = true.
Proof.
  induction s as [|c r IH]; simpl; [auto|].
  intros H. destruct (isspace c); [|exact H].
  apply andb_true_iff in H as [_ H]. auto.
Qed.

Lemma forallb_rstrip (P : char -> bool) s :
  forallb P s = true -> forallb P (rstrip s) = true.
Proof.
  induction s as [|c r IH]; simpl; [auto|].
  intros H. apply andb_true_iff in H as [Hc Hr].
  specialize (IH Hr). destruct (rstrip r) as [|x l].
  - destruct (isspace c); simpl; [reflexivity | now rewrite Hc].
  - change (forallb P (c :: x :: l)) with (P c && forallb P (x :: l)).
    now rewrite Hc, IH.
Qed.

Lemma forallb_strip (P : char -> bool) s :
  forallb P s = true -> forallb P (strip s) = true.
Proof. intros H. now apply forallb_rstrip, forallb_lstrip. Qed.

(** ** [join] *)

Lemma join_cons sep l rest :
  rest <> [] -> join sep (l :: rest) = l ++ sep ++ join sep rest.
Proof. destruct rest; [congruence | reflexivity]. Qed.

Lemma join_app sep ls rest :
  ls <> [] -> rest <> [] ->
  join sep (ls ++ rest) = join sep ls ++ sep ++ join sep rest.
Proof.
  intros Hls Hrest. induction ls as [|l ls IH]; [congruence|].
  destruct ls as [|l' ls].
  - simpl app. now rewrite join_cons.
  - change ((l :: l' :: ls) ++ rest) with (l :: ((l' :: ls) ++ rest)).
    rewrite join_cons by discriminate.
    rewrite IH by discriminate.
    rewrite (join_cons sep l (rest := l' :: ls)) by discriminate.
    now rewrite <- !app_assoc.
Qed.

Lemma blank_join ls : Forall blank ls -> blank (join [LF] ls).
Proof.
  induction 1 as [|l ls Hl Hls IH]; [apply blank_nil|].
  destruct ls as [|l' ls]; [exact Hl|].
  rewrite join_cons by discriminate.
  apply blank_app; split; [exact Hl|].
  apply blank_app; split; [reflexivity | exact IH].
Qed.

Lemma lstrip_join_pre pre rest :
  Forall blank pre ->
  lstrip (join [LF] (pre ++ rest)) = lstrip (join [LF] rest).
Proof.
  induction 1 as [|l pre Hl Hpre IH]; [reflexivity|].
  change ((l :: pre) ++ rest) with (l :: (pre ++ rest)).
  destruct (pre ++ rest) as [|x xs] eqn:Hx.
  - apply app_eq_nil in Hx as [_ ->]. simpl. now apply lstrip_blank.
  - rewrite join_cons by discriminate.
    rewrite lstrip_app_blank by assumption.
    simpl app. simpl lstrip. exact IH.
Qed.

Lemma lstrip_join_first a rest :
  ~ blank a -> lstrip (join [LF] (a :: rest)) = join [LF] (lstrip a :: rest).
Proof.
  intros Ha. destruct rest as [|x xs]; [reflexivity|].
  rewrite !join_cons by discriminate.
  now apply lstrip_app_nonblank.
Qed.

Lemma rstrip_join_post ls post :
  Forall blank post ->
  rstrip (join [LF] (ls ++ post)) = rstrip (join [LF] ls).
Proof.
  intros Hpost.
  destruct post as [|p post]; [now rewrite app_nil_r|].
  destruct ls as [|l ls].
  - pose proof (blank_join Hpost) as H. apply rstrip_blank in H.
    simpl app. rewrite H. reflexivity.
  - rewrite join_app by discriminate.
    apply rstrip_app_blank.
    apply blank_app; split; [reflexivity | now apply blank_join].
Qed.

Lemma rstrip_join_last ls z :
  ~ blank z -> rstrip (join [LF] (ls ++ [z])) = join [LF] (ls ++ [rstrip z]).
Proof.
  intros Hz. destruct ls as [|l ls]; [reflexivity|].
  rewrite !join_app by discriminate.
  simpl join at 2 4.
  rewrite !app_assoc. now apply rstrip_app_nonblank.
Qed.

(** ** [splitlines] *)

Lemma nobreak_cons c s :
  nobreak (c :: s) <-> islinebreak c = false /\ nobreak s.
Proof.
  unfold nobreak; simpl. rewrite andb_true_iff, negb_true_iff. tauto.
Qed.

Lemma splitlines_nobreak s : Forall nobreak (splitlines s).
Proof.
  assert (H : forall n s, (List.length s <= n)%nat ->
                          Forall nobreak (splitlines s)).
  { clear s. induction n as [|n IH]; intros [|c r] Hlen; simpl in *;
      try constructor; try lia.
    destruct (islinebreak c) eqn:Hc.
    - constructor; [reflexivity|].
      destruct r as [|d r']; [constructor|].
      destruct ((c =? CR) && (d =? LF)); apply IH; simpl in *; lia.
    - assert (Hr : Forall nobreak (splitlines r)) by (apply IH; lia).
      destruct (splitlines r) as [|l ls]; constructor.
      + apply nobreak_cons; split; [assumption | reflexivity].
      + constructor.
      + inversion Hr; subst. apply nobreak_cons; auto.
      + now inversion Hr. }
  apply (H (List.length s)). lia.
Qed.

Lemma splitlines_single l : nobreak l -> l <> [] -> splitlines l = [l].
Proof.
  induction l as [|c r IH]; intros Hl Hne; [congruence|].
  apply nobreak_cons in Hl as [Hc Hr]. simpl. rewrite Hc.
  destruct r as [|d r']; [reflexivity|].
  rewrite IH by (auto; discriminate). reflexivity.
Qed.

Lemma splitlines_app_LF l t :
  nobreak l -> splitlines (l ++ LF :: t) = l :: splitlines t.
Proof.
  induction l as [|c r IH]; intros Hl.
  - simpl. destruct t; reflexivity.
  - apply nobreak_cons in Hl as [Hc Hr].
    change ((c :: r) ++ LF :: t) with (c :: (r ++ LF :: t)).
    simpl. rewrite Hc. now rewrite IH.
Qed.

Lemma splitlines_join M z :
  Forall nobreak M -> nobreak z -> z <> [] ->
  splitlines (join [LF] (M ++ [z])) = M ++ [z].
Proof.
  intros HM Hz Hne. induction HM as [|l M Hl HM IH].
  - now apply splitlines_single.
  - change ((l :: M) ++ [z]) with (l :: (M ++ [z])).
    rewrite join_cons by (destruct M; discriminate).
    simpl app. rewrite splitlines_app_LF by assumption.
    now rewrite IH.
Qed.

(** ** The lines of a trimmed, re-joined text *)

Lemma trim_cases ls :
  Forall blank ls
  \/ (exists pre l post,
        ls = pre ++ l :: post /\
        Forall blank pre /\ ~ blank l /\ Forall blank post)
  \/ (exists pre a mid z post,
        ls = pre ++ a :: mid ++ z :: post /\
        Forall blank pre /\ ~ blank a /\ ~ blank z /\ Forall blank post).
Proof.
  induction ls as [|x ls IH]; [left; constructor|].
  destruct (blank_dec x) as [Hx | Hx].
  - destruct IH as [H | [(pre & l & post & -> & H1 & H2 & H3)
                        | (pre & a & mid & z & post & -> & H1 & H2 & H3 & H4)]].
    + left. now constructor.
    + right; left. exists (x :: pre), l, post. repeat split; auto.
    + right; right. exists (x :: pre), a, mid, z, post. repeat split; auto.
  - destruct IH as [H | [(pre & l & post & -> & H1 & H2 & H3)
                        | (pre & a & mid & z & post & -> & H1 & H2 & H3 & H4)]].
    + right; left. exists [], x, ls. repeat split; auto.
    + right; right. exists [], x, pre, l, post. repeat split; auto.
    + right; right. exists [], x, (pre ++ a :: mid), z, post.
      rewrite <- app_assoc. repeat split; auto.
Qed.

Lemma strip_join_one pre l post :
  Forall blank pre -> ~ blank l -> Forall blank post ->
  strip (join [LF] (pre ++ l :: post)) = strip l.
Proof.
  intros Hpre Hl Hpost. unfold strip.
  rewrite lstrip_join_pre, lstrip_join_first by assumption.
  change (lstrip l :: post) with ([lstrip l] ++ post).
  now rewrite rstrip_join_post.
Qed.

Lemma strip_join_many pre a mid z post :
  Forall blank pre -> ~ blank a -> ~ blank z -> Forall blank post ->
  strip (join [LF] (pre ++ a :: mid ++ z :: post))
  = join [LF] (lstrip a :: mid ++ [rstrip z]).
Proof.
  intros Hpre Ha Hz Hpost. unfold strip.
  rewrite lstrip_join_pre, lstrip_join_first by assumption.
  change (lstrip a :: mid ++ z :: post)
    with ((lstrip a :: mid) ++ [z] ++ post).
  rewrite app_assoc, rstrip_join_post by assumption.
  now rewrite rstrip_join_last.
Qed.

Lemma nonblank_strip_nonempty l : ~ blank l -> strip l <> [].
Proof. intros H Hs. apply H, strip_blank, Hs. Qed.

Lemma nonblank_rstrip_nonempty l : ~ blank l -> rstrip l <> [].
Proof. intros H Hs. apply H, rstrip_blank, Hs. Qed.

(** The lines of [strip (join LF ls)] are the lines [ls], trimmed. *)
Lemma strip_join_trimmed ls :
  Forall nobreak ls -> trimmed ls (splitlines (strip (join [LF] ls))).
Proof.
  intros Hnb.
  destruct (trim_cases ls)
    as [H | [(pre & l & post & -> & H1 & H2 & H3)
            | (pre & a & mid & z & post & -> & H1 & H2 & H3 & H4)]].
  - assert (Hs : strip (join [LF] ls) = [])
      by (apply strip_blank, blank_join, H).
    rewrite Hs. now constructor.
  - apply Forall_app in Hnb as [_ Hnb]. inversion Hnb as [|? ? Hl _]; subst.
    rewrite strip_join_one by assumption.
    rewrite splitlines_single.
    + now constructor.
    + now apply forallb_strip.
    + now apply nonblank_strip_nonempty.
  - apply Forall_app in Hnb as [_ Hnb].
    inversion Hnb as [|? ? Ha Hnb']; subst.
    apply Forall_app in Hnb' as [Hmid Hnb'].
    inversion Hnb' as [|? ? Hz _]; subst.
    rewrite strip_join_many by assumption.
    change (lstrip a :: mid ++ [rstrip z])
      with ((lstrip a :: mid) ++ [rstrip z]).
    rewrite splitlines_join.
    + now constructor.
    + constructor; [now apply forallb_lstrip | assumption].
    + now apply forallb_rstrip.
    + now apply nonblank_rstrip_nonempty.
Qed.

End PyStrFacts.

(* ================================================================== *)
(** * The command extractor: facts and theorems *)
(* ================================================================== *)

Module SanitizeFacts.

Import PyStrFacts.
Local Open Scope N_scope.

(** ** The fence marker and whitespace *)

Lemma startswith_FENCE_inv s :
  startswith FENCE s = true ->
  exists t, s = BACKTICK :: BACKTICK :: BACKTICK :: t.
Proof.
  unfold FENCE.
  destruct s as [|a [|b [|c t]]]; cbn [startswith];
    rewrite ?andb_false_r; try discriminate.
  rewrite !andb_true_iff, !N.eqb_eq. intros (<- & <- & <- & _).
  now exists t.
Qed.

Lemma startswith_FENCE_space c r :
  isspace c = true -> startswith FENCE (c :: r) = false.
Proof.
  intros Hc. unfold FENCE. cbn [startswith].
  destruct (N.eqb_spec BACKTICK c) as [<- | _];
    [discriminate | reflexivity].
Qed.

Lemma startswith_app_blank p s t :
  forallb (fun c => negb (isspace c)) p = true -> blank t ->
  startswith p (s ++ t) = startswith p s.
Proof.
  intros Hp Ht. revert s. induction p as [|a p IH]; intros s.
  - now destruct (s ++ t), s.
  - cbn [forallb] in Hp. apply andb_true_iff in Hp as [Ha Hp].
    destruct s as [|b s].
    + cbn [app startswith]. destruct t as [|x t']; [reflexivity|].
      cbn [startswith]. apply blank_cons in Ht as [Hx _].
      destruct (N.eqb_spec a x) as [-> | _]; [|reflexivity].
      rewrite Hx in Ha. discriminate.
    + cbn [app startswith]. now rewrite IH.
Qed.

Lemma startswith_FENCE_app_blank s t :
  blank t -> startswith FENCE (s ++ t) = startswith FENCE s.
Proof. now apply startswith_app_blank. Qed.

Lemma contains_FENCE_blank t : blank t -> contains FENCE t = false.
Proof.
  induction t as [|c r IH]; intros H; [reflexivity|].
  apply blank_cons in H as [Hc Hr].
  change (startswith FENCE (c :: r) || contains FENCE r = false).
  now rewrite startswith_FENCE_space, IH.
Qed.

Lemma contains_FENCE_app_blank s t :
  blank t -> contains FENCE (s ++ t) = contains FENCE s.
Proof.
  intros Ht. induction s as [|c r IH].
  - simpl app. now rewrite contains_FENCE_blank.
  - change (startswith FENCE ((c :: r) ++ t) || contains FENCE (r ++ t)
            = startswith FENCE (c :: r) || contains FENCE r).
    now rewrite startswith_FENCE_app_blank, IH.
Qed.

Lemma rstrip_decomp s : exists t, s = rstrip s ++ t /\ blank t.
Proof.
  induction s as [|c r (t & Hr & Ht)].
  - exists []. split; [reflexivity | apply blank_nil].
  - destruct (blank_dec r) as [Hb | Hb].
    + destruct (isspace c) eqn:Hc.
      * exists (c :: r). rewrite rstrip_cons_blank by assumption.
        split; [reflexivity | now apply blank_cons].
      * exists r. rewrite rstrip_cons_nonspace by assumption.
        apply rstrip_blank in Hb as Hb'. rewrite Hb'. now split.
    + exists t. rewrite rstrip_cons_nonblank by assumption.
      split; [simpl; now rewrite <- Hr | assumption].
Qed.

Lemma contains_FENCE_lstrip s : contains FENCE (lstrip s) = contains FENCE s.
Proof.
  induction s as [|c r IH]; [reflexivity|].
  simpl lstrip. destruct (isspace c) eqn:Hc; [|reflexivity].
  rewrite IH.
  change (contains FENCE r = startswith FENCE (c :: r) || contains FENCE r).
  now rewrite startswith_FENCE_space.
Qed.

Lemma contains_FENCE_rstrip s : contains FENCE (rstrip s) = contains FENCE s.
Proof.
  destruct (rstrip_decomp s) as (t & Hs & Ht).
  rewrite Hs at 2. now rewrite contains_FENCE_app_blank.
Qed.

(** The test ["```" in raw] gives the same before and after [strip]. *)
Lemma contains_FENCE_strip s : contains FENCE (strip s) = contains FENCE s.
Proof.
  unfold strip. now rewrite contains_FENCE_rstrip, contains_FENCE_lstrip.
Qed.

(** ** The result is always trimmed *)

Lemma sanitize_command_steps raw :
  sanitize_command raw = unwrap_backticks (remove_fences (strip raw)).
Proof. reflexivity. Qed.

Lemma remove_fences_stripped s :
  strip s = s -> strip (remove_fences s) = remove_fences s.
Proof.
  intros H. unfold remove_fences.
  destruct (contains FENCE s); [apply strip_idem | exact H].
Qed.

Lemma unwrap_backticks_stripped s :
  strip s = s -> strip (unwrap_backticks s) = unwrap_backticks s.
Proof.
  intros H. unfold unwrap_backticks.
  destruct (is_wrapped s); [apply strip_idem | exact H].
Qed.

Lemma sanitize_command_stripped raw :
  strip (sanitize_command raw) = sanitize_command raw.
Proof.
  rewrite sanitize_command_steps.
  apply unwrap_backticks_stripped, remove_fences_stripped, strip_idem.
Qed.

(** ** Splitting and re-joining *)

Lemma splitlines_nonempty c r : splitlines (c :: r) <> [].
Proof.
  simpl. destruct (islinebreak c); [discriminate|].
  destruct (splitlines r); discriminate.
Qed.

Lemma splitlines_cons_nobreak c r :
  islinebreak c = false ->
  splitlines (c :: r) = match splitlines r with
                        | [] => [[c]]
                        | l :: ls => (c :: l) :: ls
                        end.
Proof. intros H. simpl. now rewrite H. Qed.

Lemma join_cons_head sep c l ls :
  join sep ((c :: l) :: ls) = c :: join sep (l :: ls).
Proof. destruct ls; reflexivity. Qed.

Lemma lf_only_cons c s :
  lf_only (c :: s) <-> (islinebreak c = false \/ c = LF) /\ lf_only s.
Proof.
  unfold lf_only. cbn [forallb].
  rewrite andb_true_iff, orb_true_iff, negb_true_iff, N.eqb_eq. tauto.
Qed.

(** A trimmed text whose line boundaries are newlines is the join of its
    lines. *)
Lemma join_splitlines s :
  lf_only s -> rstrip s = s -> join [LF] (splitlines s) = s.
Proof.
  induction s as [|c r IH]; intros Hlf Hr; [reflexivity|].
  apply lf_only_cons in Hlf as [Hc Hlf].
  destruct r as [|d r'].
  - simpl in Hr. destruct (isspace c) eqn:Hs; [discriminate|].
    simpl. destruct (islinebreak c) eqn:Hb; [|reflexivity].
    apply linebreak_is_space in Hb. congruence.
  - assert (Hnb : ~ blank (d :: r')).
    { intros Hb. simpl in Hr. apply rstrip_blank in Hb.
      simpl in Hb. rewrite Hb in Hr. destruct (isspace c); discriminate. }
    rewrite rstrip_cons_nonblank in Hr by assumption.
    injection Hr as Hr. specialize (IH Hlf Hr).
    pose proof (@splitlines_nonempty d r') as Hne.
    destruct (islinebreak c) eqn:Hb.
    + destruct Hc as [Hc | ->]; [discriminate|].
      change (splitlines (LF :: d :: r')) with ([] :: splitlines (d :: r')).
      rewrite join_cons by assumption. now rewrite IH.
    + rewrite splitlines_cons_nobreak by assumption.
      destruct (splitlines (d :: r')) as [|l ls] eqn:Hl; [congruence|].
      rewrite join_cons_head. f_equal. exact IH.
Qed.

Lemma filter_all {A} (f : A -> bool) l :
  forallb f l = true -> filter f l = l.
Proof.
  induction l as [|x l IH]; simpl; [reflexivity|].
  intros H. apply andb_true_iff in H as [-> H]. now rewrite IH.
Qed.

Lemma nobreak_lf_only l : nobreak l -> lf_only l.
Proof.
  unfold nobreak, lf_only. induction l as [|c r IH]; simpl; [auto|].
  intros H. apply andb_true_iff in H as [-> H]. now rewrite IH.
Qed.

Lemma lf_only_app s t : lf_only s -> lf_only t -> lf_only (s ++ t).
Proof. unfold lf_only. intros Hs Ht. now rewrite forallb_app, Hs, Ht. Qed.

Lemma lf_only_join ls : Forall nobreak ls -> lf_only (join [LF] ls).
Proof.
  induction 1 as [|l ls Hl Hls IH]; [reflexivity|].
  destruct ls as [|l' ls]; [now apply nobreak_lf_only|].
  rewrite join_cons by discriminate.
  apply lf_only_app; [now apply nobreak_lf_only|].
  apply lf_only_app; [reflexivity | exact IH].
Qed.

Lemma kept_lines_nobreak s : Forall nobreak (kept_lines s).
Proof.
  unfold kept_lines. apply Forall_forall. intros l Hl.
  apply filter_In in Hl as [Hl _].
  pose proof (splitlines_nobreak s) as H.
  rewrite Forall_forall in H. auto.
Qed.

(** ** [raw[1:-1]] *)

Lemma forallb_removelast (P : char -> bool) s :
  forallb P s = true -> forallb P (removelast s) = true.
Proof.
  induction s as [|c r IH]; [auto|].
  intros H. cbn [forallb] in H. apply andb_true_iff in H as [Hc Hr].
  destruct r as [|d r']; [reflexivity|].
  change (removelast (c :: d :: r')) with (c :: removelast (d :: r')).
  cbn [forallb]. now rewrite Hc, IH.
Qed.

Lemma forallb_slice (P : char -> bool) s :
  forallb P s = true -> forallb P (slice_1_m1 s) = true.
Proof.
  intros H. unfold slice_1_m1. apply forallb_removelast.
  destruct s as [|c r]; [reflexivity|].
  cbn [forallb] in H. now apply andb_true_iff in H as [_ H].
Qed.

Lemma startswith_removelast p s :
  p <> [] -> startswith p (removelast s) = true -> startswith p s = true.
Proof.
  revert s. induction p as [|a p IH]; intros s Hp; [congruence|].
  destruct s as [|b [|c s']]; try discriminate.
  change (removelast (b :: c :: s')) with (b :: removelast (c :: s')).
  cbn [startswith]. rewrite !andb_true_iff. intros [Hab H]. split; [assumption|].
  destruct p as [|a' p']; [reflexivity|].
  apply IH; [discriminate | assumption].
Qed.

Lemma contains_removelast p s :
  p <> [] -> contains p (removelast s) = true -> contains p s = true.
Proof.
  intros Hp. induction s as [|b r IH].
  - auto.
  - destruct r as [|c s'].
    + simpl removelast. destruct p; [congruence | discriminate].
    + change (removelast (b :: c :: s')) with (b :: removelast (c :: s')).
      change (contains p (b :: removelast (c :: s')))
        with (startswith p (b :: removelast (c :: s'))
              || contains p (removelast (c :: s'))).
      change (contains p (b :: c :: s'))
        with (startswith p (b :: c :: s') || contains p (c :: s')).
      rewrite !orb_true_iff. intros [H | H].
      * left. now apply (startswith_removelast (b :: c :: s') Hp).
      * right. auto.
Qed.

Lemma contains_tl p s : contains p (tl s) = true -> contains p s = true.
Proof.
  destruct s as [|c r]; [auto|]. simpl tl. intros H.
  change (startswith p (c :: r) || contains p r = true).
  rewrite H. apply orb_true_r.
Qed.

Lemma contains_FENCE_slice s :
  contains FENCE (slice_1_m1 s) = true -> contains FENCE s = true.
Proof.
  intros H. apply contains_tl, contains_removelast; [discriminate | exact H].
Qed.

(** A wrapped text is one backtick, a non-empty inside, one backtick, and
    [raw[1:-1]] is the inside. *)
Lemma is_wrapped_inv s :
  is_wrapped s = true ->
  exists inner, s = BACKTICK :: inner ++ [BACKTICK] /\ inner <> [] /\
                slice_1_m1 s = inner.
Proof.
  unfold is_wrapped, endswith, TICK, len.
  rewrite !andb_true_iff, Nat.ltb_lt. intros [[Hs He] Hlen].
  destruct s as [|c r]; [discriminate|].
  cbn [startswith] in Hs. rewrite andb_true_r in Hs.
  apply N.eqb_eq in Hs. subst c.
  destruct (exists_last (l := r)) as (inner & x & ->).
  { destruct r; [simpl in Hlen; lia | discriminate]. }
  change (rev [BACKTICK]) with [BACKTICK] in He.
  change (BACKTICK :: inner ++ [x]) with ((BACKTICK :: inner) ++ [x]) in He.
  rewrite rev_app_distr in He. cbn [rev app startswith] in He.
  rewrite andb_true_r in He. apply N.eqb_eq in He. subst x.
  exists inner. split; [reflexivity|]. split.
  - destruct inner; [|discriminate]. simpl in Hlen. lia.
  - unfold slice_1_m1. simpl tl. apply removelast_last.
Qed.

(** ** Fence lines *)

Lemma is_fence_line_lstrip l : is_fence_line (lstrip l) = is_fence_line l.
Proof. unfold is_fence_line. now rewrite strip_lstrip. Qed.

Lemma is_fence_line_rstrip l : is_fence_line (rstrip l) = is_fence_line l.
Proof. unfold is_fence_line. now rewrite strip_rstrip. Qed.

Lemma is_fence_line_strip l : is_fence_line (strip l) = is_fence_line l.
Proof. unfold is_fence_line. now rewrite strip_idem. Qed.

Lemma kept_lines_not_fence s :
  Forall (fun ln => is_fence_line ln = false) (kept_lines s).
Proof.
  unfold kept_lines. apply Forall_forall. intros l Hl.
  apply filter_In in Hl as [_ Hl]. now apply negb_true_iff in Hl.
Qed.

Lemma trimmed_not_fence ls out :
  trimmed ls out ->
  Forall (fun ln => is_fence_line ln = false) ls ->
  Forall (fun ln => is_fence_line ln = false) out.
Proof.
  intros Ht Hls. destruct Ht as [ls _ | pre l post _ _ _ | pre a mid z post _ _ _ _].
  - constructor.
  - apply Forall_app in Hls as [_ Hls]. inversion Hls; subst.
    constructor; [|constructor]. now rewrite is_fence_line_strip.
  - apply Forall_app in Hls as [_ Hls]. inversion Hls as [|? ? Ha Hls']; subst.
    apply Forall_app in Hls' as [Hmid Hls']. inversion Hls' as [|? ? Hz _]; subst.
    constructor; [now rewrite is_fence_line_lstrip|].
    apply Forall_app. split; [assumption|].
    constructor; [|constructor]. now rewrite is_fence_line_rstrip.
Qed.

(** ** Texts of whitespace and fence markers *)

Lemma fences_and_space_lstrip s :
  fences_and_space s -> fences_and_space (lstrip s).
Proof.
  induction 1 as [|c s Hc Hs IH|s Hs IH].
  - constructor.
  - simpl. now rewrite Hc.
  - simpl. now apply fs_fence.
Qed.

Lemma fences_and_space_blank s :
  fences_and_space s -> contains FENCE s = false -> blank s.
Proof.
  induction 1 as [|c s Hc Hs IH|s Hs IH]; intros Hno.
  - apply blank_nil.
  - apply blank_cons. split; [assumption|]. apply IH.
    change (startswith FENCE (c :: s) || contains FENCE s = false) in Hno.
    now apply orb_false_iff in Hno.
  - discriminate.
Qed.

Lemma fences_and_space_tail c s :
  isspace c = true -> fences_and_space (c :: s) -> fences_and_space s.
Proof.
  intros Hc H. inversion H; subst; [assumption | discriminate].
Qed.

Lemma splitlines_FENCE s :
  splitlines (FENCE ++ s) = match splitlines s with
                            | [] => [FENCE]
                            | l :: ls => (FENCE ++ l) :: ls
                            end.
Proof.
  unfold FENCE. cbn [app].
  rewrite 3 splitlines_cons_nobreak by reflexivity.
  destruct (splitlines s); reflexivity.
Qed.

Lemma fences_and_space_lines s :
  fences_and_space s -> Forall fences_and_space (splitlines s).
Proof.
  assert (H : forall n s, (List.length s <= n)%nat -> fences_and_space s ->
                          Forall fences_and_space (splitlines s)).
  { clear s. induction n as [|n IH]; intros s Hlen Hs.
    - destruct s; [constructor | simpl in Hlen; lia].
    - inversion Hs as [|c r Hc Hr|r Hr]; subst.
      + constructor.
      + simpl in Hlen. destruct (islinebreak c) eqn:Hb.
        * simpl. rewrite Hb. constructor; [constructor|].
          destruct r as [|d r']; [constructor|].
          destruct ((c =? CR) && (d =? LF)) eqn:Hcr.
          -- apply IH; [simpl in Hlen; lia|].
             apply andb_true_iff in Hcr as [_ Hd]. apply N.eqb_eq in Hd.
             subst d. now apply (fences_and_space_tail (c := LF)).
          -- apply IH; [lia | assumption].
        * rewrite splitlines_cons_nobreak by assumption.
          assert (Hl : Forall fences_and_space (splitlines r))
            by (apply IH; [lia | assumption]).
          destruct (splitlines r) as [|l ls].
          -- constructor; [|constructor]. apply fs_space; [assumption | constructor].
          -- inversion Hl; subst. constructor; [|assumption].
             now apply fs_space.
      + rewrite splitlines_FENCE.
        assert (Hl : Forall fences_and_space (splitlines r)).
        { apply IH; [|assumption]. rewrite length_app in Hlen.
          simpl in Hlen. lia. }
        destruct (splitlines r) as [|l ls].
        * constructor; [|constructor].
          rewrite <- (app_nil_r FENCE). apply fs_fence, fs_nil.
        * inversion Hl; subst. constructor; [|assumption].
          now apply fs_fence. }
  intros Hs. apply (H (List.length s)); [lia | assumption].
Qed.

Lemma fences_and_space_line_blank l :
  fences_and_space l -> is_fence_line l = false -> blank l.
Proof.
  intros Hl Hnf. apply lstrip_blank.
  apply fences_and_space_lstrip in Hl.
  unfold is_fence_line, strip in Hnf.
  inversion Hl as [Heq|c r Hc Hr Heq|r Hr Heq]; [reflexivity| |].
  - exfalso. destruct (lstrip_head l) as [H | (c' & r' & H & Hc')];
      rewrite H in Heq; [discriminate|]. injection Heq as -> _. congruence.
  - exfalso. rewrite <- Heq in Hnf. unfold FENCE in Hnf. cbn [app] in Hnf.
    rewrite 3 rstrip_cons_nonspace in Hnf by reflexivity.
    cbn [startswith] in Hnf. rewrite !N.eqb_refl in Hnf. discriminate.
Qed.

Lemma fences_and_space_rstrip s :
  fences_and_space s -> fences_and_space (rstrip s).
Proof.
  induction 1 as [|c s Hc Hs IH|s Hs IH].
  - constructor.
  - simpl. destruct (rstrip s) eqn:Hr.
    + rewrite Hc. constructor.
    + now apply fs_space.
  - unfold FENCE. cbn [app].
    rewrite 3 rstrip_cons_nonspace by reflexivity.
    now apply (fs_fence (s := rstrip s)).
Qed.

(** A model output of whitespace and fence markers only is sanitized to
    the empty string. *)
Lemma sanitize_fences_and_space raw :
  fences_and_space raw -> sanitize_command raw = [].
Proof.
  intros Hraw.
  assert (H0 : fences_and_space (strip raw))
    by now apply fences_and_space_rstrip, fences_and_space_lstrip.
  rewrite sanitize_command_steps.
  assert (Hr : remove_fences (strip raw) = []).
  { unfold remove_fences. destruct (contains FENCE (strip raw)) eqn:Hc.
    - apply strip_blank, blank_join.
      pose proof (fences_and_space_lines H0) as Hl.
      unfold kept_lines. apply Forall_forall. intros l Hin.
      apply filter_In in Hin as [Hin Hnf]. apply negb_true_iff in Hnf.
      rewrite Forall_forall in Hl. now apply fences_and_space_line_blank; auto.
    - rewrite <- strip_idem. apply strip_blank.
      now apply fences_and_space_blank. }
  rewrite Hr. reflexivity.
Qed.

(** ** Results that still hold a fence marker *)

Lemma unwrap_backticks_lf_only s : lf_only s -> lf_only (unwrap_backticks s).
Proof.
  intros H. unfold unwrap_backticks. destruct (is_wrapped s); [|exact H].
  now apply forallb_strip, forallb_slice.
Qed.

Lemma contains_FENCE_unwrap s :
  contains FENCE (unwrap_backticks s) = true -> contains FENCE s = true.
Proof.
  unfold unwrap_backticks. destruct (is_wrapped s); [|auto].
  rewrite contains_FENCE_strip. apply contains_FENCE_slice.
Qed.

Lemma sanitize_command_lf_only x :
  contains FENCE (sanitize_command x) = true -> lf_only (sanitize_command x).
Proof.
  rewrite sanitize_command_steps. intros H.
  apply unwrap_backticks_lf_only.
  apply contains_FENCE_unwrap in H. revert H.
  unfold remove_fences. destruct (contains FENCE (strip x)) eqn:Hc.
  - intros _. apply forallb_strip. change (lf_only (join [LF] (kept_lines (strip x)))).
    apply lf_only_join, kept_lines_nobreak.
  - congruence.
Qed.

Lemma strip_rstrip_fixed s : strip s = s -> rstrip s = s.
Proof. intros H. rewrite <- H. unfold strip. apply rstrip_idem. Qed.

(** ** The theorems on [sanitize_command] *)

(** C3 (as stated it fails, see the counterexample below).
    [sanitize_command] applied to one of its own results [y] gives [y]
    again whenever no line of [y] is a fence line and [y] is not wrapped
    in a pair of backticks. *)
Theorem sanitize_command_idempotent_on_clean_results (x : str) :
  forallb (fun ln => negb (is_fence_line ln))
          (splitlines (sanitize_command x)) = true ->
  is_wrapped (sanitize_command x) = false ->
  sanitize_command (sanitize_command x) = sanitize_command x.
Proof.
  intros Hlines Hwrap.
  pose proof (sanitize_command_stripped x) as Hs.
  pose proof (@sanitize_command_lf_only x) as Hlf.
  set (y := sanitize_command x) in *.
  rewrite sanitize_command_steps, Hs.
  assert (Hr : remove_fences y = y).
  { unfold remove_fences. destruct (contains FENCE y) eqn:Hc; [|reflexivity].
    unfold kept_lines. rewrite filter_all by assumption.
    rewrite join_splitlines; auto using strip_rstrip_fixed. }
  rewrite Hr. unfold unwrap_backticks. now rewrite Hwrap.
Qed.

Lemma sanitize_command_idempotent_on_clean_results_witness :
  forallb (fun ln => negb (is_fence_line ln))
          (splitlines (sanitize_command battery_raw)) = true /\
  is_wrapped (sanitize_command battery_raw) = false /\
  sanitize_command (sanitize_command battery_raw)
  = sanitize_command battery_raw.
Proof.
  split; [reflexivity|]. split; [reflexivity|].
  apply (@sanitize_command_idempotent_on_clean_results battery_raw);
    reflexivity.
Defined.

(** C3, counterexample: a reply wrapped in two pairs of backticks loses
    one pair at each application. *)
Lemma sanitize_command_not_idempotent :
  sanitize_command (lit "``ls``") = lit "`ls`" /\
  sanitize_command (sanitize_command (lit "``ls``")) = lit "ls" /\
  sanitize_command (sanitize_command (lit "``ls``"))
  <> sanitize_command (lit "``ls``").
Proof.
  split; [reflexivity|]. split; [reflexivity|]. vm_compute. discriminate.
Qed.

(** The other way a result is not a fixed point: unwrapping the backticks
    uncovers a fence line. *)
Example sanitize_command_not_idempotent_fence :
  let x := lit "` ```" ++ [LF] ++ lit "ls`" in
  sanitize_command x = lit "```" ++ [LF] ++ lit "ls" /\
  sanitize_command (sanitize_command x) = lit "ls".
Proof. split; reflexivity. Qed.

(** Every line that is purely a delimiter is a fence line for the code. *)
Lemma spec_purely_delimiter_is_fence_line ln :
  spec_purely_delimiter ln = true -> is_fence_line ln = true.
Proof.
  unfold spec_purely_delimiter, is_fence_line.
  now intros H%andb_true_iff.
Qed.

(** C4 (as stated it fails, see the counterexample below). For a raw text
    that contains the fence marker, [sanitize_command] drops the lines
    whose trimmed text begins with the marker, whatever follows it on the
    line and wherever they are, and keeps the other lines in their order,
    blank lines in between included: the lines of the text handed to the
    backtick step are the kept lines, less the blank lines and the
    whitespace at both ends, and none of them is a fence line. In
    particular the fenced battery command comes out bare. *)
Theorem sanitize_command_drops_fence_lines (raw : str) :
  contains FENCE raw = true ->
  let kept := filter (fun ln => negb (is_fence_line ln))
                     (splitlines (strip raw)) in
  let body := strip (join [LF] kept) in
  sanitize_command raw = unwrap_backticks body
  /\ trimmed kept (splitlines body)
  /\ Forall (fun ln => is_fence_line ln = false) (splitlines body)
  /\ sanitize_command battery_raw = battery_cmd.
Proof.
  intros Hc kept body.
  assert (Ht : trimmed kept (splitlines body))
    by apply strip_join_trimmed, kept_lines_nobreak.
  repeat split.
  - rewrite sanitize_command_steps. unfold remove_fences.
    now rewrite contains_FENCE_strip, Hc.
  - exact Ht.
  - apply (trimmed_not_fence Ht), kept_lines_not_fence.
Qed.

Lemma sanitize_command_drops_fence_lines_witness :
  contains FENCE battery_raw = true /\
  sanitize_command battery_raw = battery_cmd /\
  trimmed [battery_cmd] [battery_cmd].
Proof.
  split; [reflexivity|].
  pose proof (@sanitize_command_drops_fence_lines battery_raw eq_refl)
    as (Hs & Ht & _).
  split; [exact Hs | exact Ht].
Defined.

(** C4, counterexample: the only line of this text holds a command between
    two markers, so it is not purely a delimiter; it is dropped all the
    same, and nothing is left of the command. *)
Lemma sanitize_command_drops_more_than_delimiters :
  contains FENCE inline_fenced = true /\
  splitlines (strip inline_fenced) = [inline_fenced] /\
  spec_purely_delimiter inline_fenced = false /\
  strip inline_fenced <> FENCE /\
  is_fence_line inline_fenced = true /\
  sanitize_command inline_fenced = [].
Proof.
  repeat split; try reflexivity. vm_compute. discriminate.
Qed.

(** C8. When the text left by the fence step begins with a backtick, ends
    with a backtick and is longer than 2, it is a backtick, a non-empty
    inside and a backtick, and [sanitize_command] returns the inside,
    trimmed. In particular the backticked ipconfig pipeline comes out
    bare, pipe included. *)
Theorem sanitize_command_unwraps_one_pair (raw : str) :
  let body := remove_fences (strip raw) in
  startswith TICK body = true ->
  endswith TICK body = true ->
  (2 < len body)%nat ->
  (exists inner,
      body = TICK ++ inner ++ TICK /\ inner <> [] /\
      sanitize_command raw = strip inner)
  /\ sanitize_command ip_raw = ip_cmd.
Proof.
  intros body Hs He Hl. split; [|reflexivity].
  assert (Hw : is_wrapped body = true).
  { unfold is_wrapped. rewrite Hs, He. now apply Nat.ltb_lt in Hl as ->. }
  destruct (is_wrapped_inv _ Hw) as (inner & Hb & Hne & Hsl).
  exists inner. repeat split; try assumption.
  rewrite sanitize_command_steps. fold body.
  unfold unwrap_backticks. now rewrite Hw, Hsl.
Qed.

Lemma sanitize_command_unwraps_one_pair_witness :
  startswith TICK (remove_fences (strip ip_raw)) = true /\
  endswith TICK (remove_fences (strip ip_raw)) = true /\
  (2 < len (remove_fences (strip ip_raw)))%nat /\
  exists inner,
    remove_fences (strip ip_raw) = TICK ++ inner ++ TICK /\ inner <> [] /\
    sanitize_command ip_raw = strip inner.
Proof.
  split; [reflexivity|]. split; [reflexivity|].
  split; [vm_compute; lia|].
  refine (proj1 (@sanitize_command_unwraps_one_pair ip_raw _ _ _));
    [reflexivity | reflexivity | vm_compute; lia].
Defined.

(** ** Worked examples *)

Example splitlines_boundaries :
  splitlines (lit "a" ++ [CR; LF; LF] ++ lit "b" ++ [LF])
  = [lit "a"; []; lit "b"].
Proof. reflexivity. Qed.

Example strip_both_ends :
  strip ([LF] ++ lit "  ls -la " ++ [CR; LF]) = lit "ls -la".
Proof. reflexivity. Qed.

Example sanitize_keeps_inner_blank_lines :
  sanitize_command
    (lit "```sh" ++ [LF] ++ lit "cd /tmp && \" ++ [LF; LF]
     ++ lit "ls" ++ [LF] ++ lit "```" ++ [LF])
  = lit "cd /tmp && \" ++ [LF; LF] ++ lit "ls".
Proof. vm_compute. reflexivity. Qed.

Example sanitize_drops_inner_fence_line :
  sanitize_command
    (lit "```" ++ [LF] ++ lit "a" ++ [LF] ++ lit "  ```  " ++ [LF]
     ++ lit "b" ++ [LF] ++ lit "```")
  = lit "a" ++ [LF] ++ lit "b".
Proof. vm_compute. reflexivity. Qed.

(** A marker with its language tag is purely a delimiter. *)
Example spec_purely_delimiter_tagged :
  spec_purely_delimiter (lit "  ```bash ") = true /\
  spec_purely_delimiter (lit "```") = true /\
  spec_purely_delimiter (lit "echo ```") = false.
Proof. repeat split; reflexivity. Qed.

Example sanitize_plain : sanitize_command (lit "  ls -la  ") = lit "ls -la".
Proof. reflexivity. Qed.

(** ** The shape of every result *)

Lemma strip_lstrip_fixed s : strip s = s -> lstrip s = s.
Proof.
  intros H. rewrite <- H. unfold strip.
  apply lstrip_rstrip_lstrip.
Qed.

Lemma rstrip_last s c r :
  rstrip s = c :: r -> isspace (last (c :: r) c) = false.
Proof.
  revert c r. induction s as [|x s IH]; intros c r; [discriminate|].
  cbn [rstrip]. destruct (rstrip s) as [|y t] eqn:Hr.
  - destruct (isspace x) eqn:Hx; [discriminate|].
    intros [= <- <-]. exact Hx.
  - intros [= <- <-]. specialize (IH y t eq_refl).
    destruct t as [|z t']; [exact IH|].
    change (last (x :: y :: z :: t') x) with (last (z :: t') x).
    change (last (y :: z :: t') y) with (last (z :: t') y) in IH.
    clear Hr. revert z IH. induction t' as [|w t' IHt]; intros z IH;
      [exact IH|].
    cbn [last] in *. now apply IHt.
Qed.

(** X1. Whatever the reply, the command handed to the shell carries no
    whitespace at either end: trimming it again changes nothing, and when
    it is not empty its first and its last character are not
    whitespace. *)
Theorem sanitize_command_has_no_outer_whitespace (raw : str) :
  strip (sanitize_command raw) = sanitize_command raw /\
  forall c r, sanitize_command raw = c :: r ->
              isspace c = false /\ isspace (last (c :: r) c) = false.
Proof.
  pose proof (sanitize_command_stripped raw) as H.
  split; [exact H|]. intros c r Hcr. split.
  - pose proof (strip_lstrip_fixed H) as Hl. rewrite Hcr in Hl.
    cbn [lstrip] in Hl. destruct (isspace c) eqn:Hc; [|reflexivity].
    exfalso.
    assert (Hlen : (List.length (lstrip r) <= List.length r)%nat).
    { clear. induction r as [|x r IH]; simpl; [lia|].
      destruct (isspace x); simpl; lia. }
    rewrite Hl in Hlen. simpl in Hlen. lia.
  - apply rstrip_last with (s := sanitize_command raw).
    rewrite <- Hcr. now apply strip_rstrip_fixed.
Qed.

(** ** Replies without markdown *)

Lemma no_tick_contains_FENCE s :
  forallb (fun c => negb (c =? BACKTICK)) s = true -> contains FENCE s = false.
Proof.
  induction s as [|c s IH]; [reflexivity|].
  cbn [forallb]. rewrite andb_true_iff. intros [Hc Hs].
  cbn [contains]. rewrite (IH Hs), orb_false_r.
  unfold FENCE. cbn [startswith].
  apply negb_true_iff in Hc. rewrite N.eqb_sym in Hc. now rewrite Hc.
Qed.

Lemma no_tick_is_wrapped s :
  forallb (fun c => negb (c =? BACKTICK)) s = true -> is_wrapped s = false.
Proof.
  unfold is_wrapped, TICK. destruct s as [|c s]; [reflexivity|].
  cbn [forallb startswith]. rewrite andb_true_iff. intros [Hc _].
  apply negb_true_iff in Hc. rewrite N.eqb_sym in Hc. now rewrite Hc.
Qed.

Lemma not_In_forallb (x : char) s :
  ~ In x s -> forallb (fun c => negb (c =? x)) s = true.
Proof.
  induction s as [|c s IH]; [reflexivity|]. intros H.
  cbn [forallb]. apply andb_true_iff. split.
  - apply negb_true_iff, N.eqb_neq. intros ->. apply H. now left.
  - apply IH. intros Hin. apply H. now right.
Qed.

(** X2. A reply without any backtick is only trimmed: every line of it stays,
    with the line boundaries it came with. *)
Theorem sanitize_command_plain_text (raw : str) :
  ~ In BACKTICK raw -> sanitize_command raw = strip raw.
Proof.
  intros H. apply not_In_forallb in H.
  pose proof (forallb_strip _ _ H) as Hs.
  unfold sanitize_command.
  now rewrite (no_tick_contains_FENCE _ Hs), (no_tick_is_wrapped _ Hs).
Qed.

Lemma sanitize_command_plain_text_witness :
  ~ In BACKTICK (lit "  cd /tmp && \" ++ [CR; LF] ++ lit "ls -la " ++ [LF]) /\
  sanitize_command (lit "  cd /tmp && \" ++ [CR; LF] ++ lit "ls -la " ++ [LF])
  = lit "cd /tmp && \" ++ [CR; LF] ++ lit "ls -la".
Proof.
  assert (H : ~ In BACKTICK
                (lit "  cd /tmp && \" ++ [CR; LF] ++ lit "ls -la " ++ [LF])).
  { intros Hin. vm_compute in Hin.
    repeat (destruct Hin as [Hin | Hin]; [discriminate|]). exact Hin. }
  split; [exact H|].
  rewrite (sanitize_command_plain_text _ H). reflexivity.
Defined.

(** ** Whitespace around the reply *)

Lemma strip_app_blank pre s post :
  blank pre -> blank post -> strip (pre ++ s ++ post) = strip s.
Proof.
  intros Hpre Hpost. unfold strip. rewrite lstrip_app_blank by assumption.
  destruct (blank_dec s) as [Hs | Hs].
  - assert (Hb : blank (s ++ post)) by (apply blank_app; now split).
    apply lstrip_blank in Hb. apply lstrip_blank in Hs. now rewrite Hb, Hs.
  - rewrite lstrip_app_nonblank by assumption. now apply rstrip_app_blank.
Qed.

(** X3. Whitespace before and after the reply has no effect on the command:
    [main] trims the reply before it calls [sanitize_command], which
    changes nothing. *)
Theorem sanitize_command_ignores_outer_whitespace (pre raw post : str) :
  blank pre -> blank post ->
  sanitize_command (pre ++ raw ++ post) = sanitize_command raw /\
  sanitize_command (strip raw) = sanitize_command raw.
Proof.
  intros Hpre Hpost. rewrite !sanitize_command_steps.
  now rewrite strip_app_blank, strip_idem.
Qed.

Lemma sanitize_command_ignores_outer_whitespace_witness :
  blank [LF; 32] /\ blank (lit "  " ++ [CR; LF]) /\
  sanitize_command ([LF; 32] ++ ip_raw ++ lit "  " ++ [CR; LF]) = ip_cmd.
Proof.
  assert (H1 : blank [LF; 32]) by reflexivity.
  assert (H2 : blank (lit "  " ++ [CR; LF])) by reflexivity.
  split; [exact H1|]. split; [exact H2|].
  rewrite (proj1 (@sanitize_command_ignores_outer_whitespace
                    [LF; 32] ip_raw (lit "  " ++ [CR; LF]) H1 H2)).
  reflexivity.
Defined.

(** ** The result is never longer than the reply *)

Lemma length_lstrip s : (List.length (lstrip s) <= List.length s)%nat.
Proof.
  induction s as [|c r IH]; simpl; [lia|].
  destruct (isspace c); simpl; lia.
Qed.

Lemma length_rstrip s : (List.length (rstrip s) <= List.length s)%nat.
Proof.
  induction s as [|c r IH]; simpl; [lia|].
  destruct (rstrip r) as [|x t]; [destruct (isspace c)|]; simpl in *; lia.
Qed.

Lemma length_strip s : (List.length (strip s) <= List.length s)%nat.
Proof.
  unfold strip. pose proof (length_rstrip (lstrip s)).
  pose proof (length_lstrip s). lia.
Qed.

Lemma length_join_cons l rest :
  List.length (join [LF] (l :: rest))
  = (List.length l
     + match rest with
       | [] => 0
       | _ :: _ => 1 + List.length (join [LF] rest)
       end)%nat.
Proof.
  destruct rest as [|l' rest']; cbn [join]; [lia|].
  rewrite !length_app. simpl. lia.
Qed.

Lemma length_join_splitlines_le n :
  forall s, (List.length s <= n)%nat ->
            (List.length (join [LF] (splitlines s)) <= List.length s)%nat.
Proof.
  induction n as [|n IH]; intros s Hn.
  { destruct s; [simpl; lia | simpl in Hn; lia]. }
  destruct s as [|c r]; [simpl; lia|].
  simpl in Hn. cbn [splitlines].
  destruct (islinebreak c).
  - rewrite length_join_cons. cbn [List.length].
    destruct r as [|d r']; [lia|].
    destruct ((c =? CR) && (d =? LF)).
    + pose proof (IH r' ltac:(simpl in Hn; lia)).
      destruct (splitlines r'); simpl in *; lia.
    + pose proof (IH (d :: r') ltac:(lia)).
      destruct (splitlines (d :: r')); simpl in *; lia.
  - pose proof (IH r ltac:(lia)) as Hr.
    destruct (splitlines r) as [|l ls].
    + simpl. lia.
    + rewrite join_cons_head. simpl. simpl in Hr. lia.
Qed.

Lemma length_join_filter (f : str -> bool) ls :
  (List.length (join [LF] (filter f ls)) <= List.length (join [LF] ls))%nat.
Proof.
  induction ls as [|l rest IH]; [simpl; lia|].
  rewrite (length_join_cons l rest). cbn [filter].
  destruct (f l).
  - rewrite length_join_cons.
    destruct (filter f rest) as [|x xs] eqn:Hf; [lia|].
    destruct rest as [|y ys]; [discriminate|]. lia.
  - destruct rest as [|y ys]; [simpl; lia|]. lia.
Qed.

Lemma length_slice s : (List.length (slice_1_m1 s) <= List.length s)%nat.
Proof.
  unfold slice_1_m1. destruct s as [|c r]; [simpl; lia|].
  cbn [tl List.length].
  assert (H : forall t : str, (List.length (removelast t) <= List.length t)%nat).
  { induction t as [|x t IHt]; [simpl; lia|].
    destruct t; simpl in *; lia. }
  specialize (H r). lia.
Qed.

(** X4. [sanitize_command] only takes away: the command is never longer than
    the reply it was extracted from. *)
Theorem sanitize_command_never_grows (raw : str) :
  (len (sanitize_command raw) <= len raw)%nat.
Proof.
  unfold len, sanitize_command.
  assert (H1 : (List.length
                  (if contains FENCE (strip raw)
                   then strip (join [LF]
                                 (filter (fun ln => negb (is_fence_line ln))
                                         (splitlines (strip raw))))
                   else strip raw) <= List.length raw)%nat).
  { pose proof (length_strip raw) as Hs.
    destruct (contains FENCE (strip raw)); [|exact Hs].
    pose proof (length_strip
                  (join [LF] (filter (fun ln => negb (is_fence_line ln))
                                     (splitlines (strip raw))))).
    pose proof (length_join_filter (fun ln => negb (is_fence_line ln))
                                   (splitlines (strip raw))).
    pose proof (@length_join_splitlines_le _ (strip raw) (le_n _)).
    lia. }
  cbv zeta.
  destruct (is_wrapped _); [|exact H1].
  eapply Nat.le_trans; [apply length_strip|].
  eapply Nat.le_trans; [apply length_slice|]. exact H1.
Qed.

End SanitizeFacts.

(* ================================================================== *)
(** * The session: facts and theorems *)
(* ================================================================== *)

Module SessionFacts.

Import PyStrFacts SanitizeFacts Session.
Local Open Scope session_scope.

(** ** Rules of the program logic *)

Section Rules.

Context {A B : Type}.

Lemma triple_ret (a : A) (P : state -> Prop) Q :
  (forall s, P s -> Q (Normal a) s) -> triple P (ret a) Q.
Proof. intros H s Hs. now apply H. Qed.

Lemma triple_raise (e : exn) (P : state -> Prop) (Q : result A -> _) :
  (forall s, P s -> Q (Raised e) s) -> triple P (raise e) Q.
Proof. intros H s Hs. now apply H. Qed.

Lemma triple_bind (m : M A) (k : A -> M B) P R Q :
  triple P m R ->
  (forall a, triple (R (Normal a)) (k a) Q) ->
  (forall e s, R (Raised e) s -> Q (Raised e) s) ->
  (forall s, R OutOfFuel s -> Q OutOfFuel s) ->
  triple P (bind m k) Q.
Proof.
  intros Hm Hk He Hf s Hs. specialize (Hm s Hs). unfold bind.
  destruct (m s) as [[a | e |] s']; simpl in *; auto.
  now apply Hk.
Qed.

Lemma triple_weaken (m : M A) (P P' : state -> Prop) (Q Q' : result A -> _) :
  triple P' m Q' ->
  (forall s, P s -> P' s) -> (forall r s, Q' r s -> Q r s) ->
  triple P m Q.
Proof. intros H HP HQ s Hs. apply HQ, H, HP, Hs. Qed.

Lemma preserves_ret I (a : A) : preserves I (ret a).
Proof. now apply triple_ret. Qed.

Lemma preserves_raise I (e : exn) : preserves I (raise (A := A) e).
Proof. now apply triple_raise. Qed.

Lemma preserves_bind I (m : M A) (k : A -> M B) :
  preserves I m -> (forall a, preserves I (k a)) -> preserves I (bind m k).
Proof.
  intros Hm Hk. eapply triple_bind; [exact Hm | exact Hk | auto | auto].
Qed.

Lemma preserves_try_except I (body : M A) handler :
  preserves I body -> (forall e, preserves I (handler e)) ->
  preserves I (try_except body handler).
Proof.
  intros Hb Hh s Hs. specialize (Hb s Hs). unfold try_except.
  destruct (body s) as [[a | [c | e] |] s']; simpl in *; auto.
  now apply Hh.
Qed.

Lemma preserves_try_finally I (body : M A) final :
  preserves I body -> preserves I final ->
  preserves I (try_finally body final).
Proof.
  intros Hb Hf s Hs. specialize (Hb s Hs). unfold try_finally.
  destruct (body s) as [[a | e |] s']; simpl in *; auto;
    specialize (Hf s' Hb);
    destruct (final s') as [[[] | e' |] s'']; simpl in *; auto.
Qed.

End Rules.

Lemma preserves_if {A} I (b : bool) (m1 m2 : M A) :
  preserves I m1 -> preserves I m2 -> preserves I (if b then m1 else m2).
Proof. now destruct b. Qed.

(** ** Invariants through the external actions *)

Section Invariants.

Variable E : env.
Variable I : state -> Prop.
Variable ok : event -> Prop.
Hypothesis I_stable : stable I ok.
Variable pending : M unit.
Hypothesis pending_ok : preserves I pending.

Lemma preserves_emit e : ok e -> preserves I (emit e).
Proof. intros He s Hs. now apply (stable_log I_stable). Qed.

Lemma preserves_act e : ok e -> preserves I (act pending e).
Proof.
  intros He. apply preserves_bind; [exact pending_ok|].
  intros _. now apply preserves_emit.
Qed.

Lemma preserves_console_print m :
  ok (EPrint m) -> preserves I (console_print E pending m).
Proof.
  intros Hok. unfold console_print; cbn [markup_failure markup_of].
  destruct (markup_failure E m); [|now apply preserves_act].
  apply preserves_bind; [exact pending_ok | intros _; apply preserves_raise].
Qed.

Lemma preserves_requests_get :
  (forall o, ok (EGet o)) -> preserves I (requests_get E pending).
Proof.
  intros Hok. apply preserves_bind; [exact pending_ok|].
  intros _ s Hs. simpl.
  apply (stable_log I_stable); [apply Hok|].
  now apply (stable_count_get I_stable).
Qed.

Lemma preserves_process_wait h :
  (forall b, ok (EWait h b)) -> preserves I (process_wait E pending h).
Proof.
  intros Hok. apply preserves_bind; [exact pending_ok|].
  intros _ s Hs. simpl.
  apply (stable_log I_stable); [apply Hok|].
  now apply (stable_count_wait I_stable).
Qed.

Lemma preserves_is_ollama_running :
  (forall o, ok (EGet o)) -> preserves I (is_ollama_running E pending).
Proof.
  intros Hok. apply preserves_bind; [now apply preserves_requests_get|].
  intros [st | e]; [apply preserves_ret|].
  apply preserves_if; [apply preserves_ret | apply preserves_raise].
Qed.

Lemma preserves_cleanup_zombies :
  ok EPkill -> preserves I (cleanup_zombies pending).
Proof. apply preserves_act. Qed.

Lemma preserves_poll_until_running fuel retries :
  (forall o, ok (EGet o)) -> ok ESleep -> ok (EPrint MStartError) ->
  preserves I (poll_until_running E pending fuel retries).
Proof.
  intros Hget Hsleep Hprint. revert retries.
  induction fuel as [|fuel IH]; intros retries; [now intros s Hs|].
  cbn [poll_until_running].
  apply preserves_bind; [now apply preserves_is_ollama_running|].
  intros up. apply preserves_if; [|apply preserves_ret].
  apply preserves_bind; [now apply preserves_act|].
  intros _. apply preserves_if; [|apply IH].
  apply preserves_bind; [now apply preserves_console_print|].
  intros _. apply preserves_raise.
Qed.

Lemma preserves_start_ollama :
  (forall o, ok (EGet o)) -> ok ESleep -> ok (EPrint MStartError) ->
  ok (EPopen (new_process E)) ->
  preserves I (start_ollama E pending).
Proof.
  intros Hget Hsleep Hprint Hpopen.
  apply preserves_bind; [now apply preserves_act|].
  intros _. apply preserves_bind; [now apply preserves_poll_until_running|].
  intros _. apply preserves_ret.
Qed.

Lemma preserves_stop_ollama process :
  (forall h, process = Some h ->
             ok (ETerminate h) /\ (forall b, ok (EWait h b)) /\ ok (EKill h)) ->
  preserves I (stop_ollama E pending process).
Proof.
  intros Hok. destruct process as [h|]; [|apply preserves_ret].
  destruct (Hok h eq_refl) as (Ht & Hw & Hk).
  apply preserves_bind; [now apply preserves_act|].
  intros _. apply preserves_bind; [now apply preserves_process_wait|].
  intros exited. apply preserves_if; [apply preserves_ret|].
  now apply preserves_act.
Qed.

End Invariants.

(** ** The arguments *)

Lemma str_eqb_eq a b : str_eqb a b = true <-> a = b.
Proof.
  revert b. induction a as [|x a IH]; intros [|y b]; simpl;
    try (split; [discriminate | congruence]); [tauto|].
  rewrite andb_true_iff, N.eqb_eq, IH. split.
  - now intros [-> ->].
  - intros H. injection H as -> ->. auto.
Qed.

Lemma str_eqb_refl a : str_eqb a a = true.
Proof. now apply str_eqb_eq. Qed.

Lemma str_eqb_neq a b : a <> b -> str_eqb a b = false.
Proof.
  intros H. destruct (str_eqb a b) eqn:Heq; [|reflexivity].
  apply str_eqb_eq in Heq. congruence.
Qed.

Lemma list_in_In x l : list_in x l = true <-> In x l.
Proof.
  unfold list_in. rewrite existsb_exists. split.
  - intros (y & Hin & Heq). apply str_eqb_eq in Heq. now subst.
  - intros Hin. exists x. split; [assumption | apply str_eqb_refl].
Qed.

Lemma list_remove_present x l :
  list_in x l = true -> exists l', list_remove x l = Some l'.
Proof.
  unfold list_in. induction l as [|y r IH]; simpl; [discriminate|].
  rewrite orb_true_iff. intros H.
  destruct (str_eqb y x) eqn:Hy; [now exists r|].
  destruct H as [H | H].
  - apply str_eqb_eq in H. subst y. rewrite str_eqb_refl in Hy. discriminate.
  - destruct (IH H) as (l' & ->). now exists (y :: l').
Qed.

Lemma list_remove_absent x l :
  list_in x l = false -> list_remove x l = None.
Proof.
  unfold list_in. induction l as [|y r IH]; simpl; [reflexivity|].
  rewrite orb_false_iff. intros [Hy Hr].
  assert (Hyx : str_eqb y x = false).
  { destruct (str_eqb y x) eqn:H; [|reflexivity].
    apply str_eqb_eq in H. subst y. now rewrite str_eqb_refl in Hy. }
  now rewrite Hyx, IH.
Qed.

(** [list.remove] takes out the first occurrence and nothing else. *)
Lemma list_remove_first x pre post :
  ~ In x pre -> list_remove x (pre ++ x :: post) = Some (pre ++ post).
Proof.
  induction pre as [|y pre IH]; intros Hn; simpl.
  - now rewrite str_eqb_refl.
  - rewrite str_eqb_neq by (intros ->; apply Hn; now left).
    rewrite IH; [reflexivity|]. intros H. apply Hn. now right.
Qed.

(** The "DETECT MODE" block never raises and leaves the state alone. *)
Lemma detect_mode_run argv s :
  detect_mode argv s = (Normal (ask_mode_of argv, argv_after argv), s).
Proof.
  unfold detect_mode, ask_mode_of, argv_after.
  destruct (list_in DASH_A argv) eqn:Hin.
  - destruct (list_remove_present _ _ Hin) as (l' & ->). reflexivity.
  - now rewrite (list_remove_absent _ _ Hin).
Qed.

(** ** Invariants through [main] *)

Ltac as_preserves :=
  match goal with
  | Hs : ?I ?s |- ?I (snd (?m ?s)) =>
      revert Hs; generalize s; change (preserves I m)
  end.

Section MainInvariants.

Variable E : env.
Variable I : state -> Prop.
Variable ok : event -> Prop.
Hypothesis I_stable : stable I ok.
Hypothesis lifecycle_ok : forall e, is_lifecycle e = true -> ok e.
Hypothesis I_assign : forall p s, I s -> I (assign_server_process p s).

Lemma preserves_get_server_process : preserves I get_server_process.
Proof. now intros s Hs. Qed.

Lemma preserves_set_server_process p : preserves I (set_server_process p).
Proof. intros s Hs. now apply I_assign. Qed.

Lemma preserves_signal_handler : preserves I (signal_handler E).
Proof.
  assert (Hret : preserves I (ret tt)) by apply preserves_ret.
  unfold signal_handler.
  apply preserves_bind.
  { apply (preserves_console_print E I_stable Hret). now apply lifecycle_ok. }
  intros _. apply preserves_bind; [apply preserves_get_server_process|].
  intros sp. apply preserves_bind; [|intros _; apply preserves_raise].
  apply preserves_if; [|apply preserves_ret].
  apply (preserves_stop_ollama E I_stable Hret).
  intros h _. repeat split; intros; now apply lifecycle_ok.
Qed.

Lemma preserves_deliver : preserves I (deliver E).
Proof.
  intros s Hs. unfold deliver.
  pose proof (stable_tick I_stable _ Hs) as Ht.
  destruct (sigint E) as [n|]; [|exact Ht].
  destruct (n =? clock s)%nat; [|exact Ht].
  now apply preserves_signal_handler.
Qed.

Lemma preserves_main argv :
  preserves I (ask_and_display E (ask_mode_of argv) (query_of argv)) ->
  preserves I (main E argv).
Proof.
  intros Hblock s Hs. unfold main. unfold bind at 1.
  rewrite detect_mode_run. cbv beta iota.
  fold (query_of argv).
  pose proof preserves_deliver as Hd.
  as_preserves.
  apply preserves_if.
  { destruct (argv_after argv) as [|prog rest]; [apply preserves_raise|].
    apply preserves_bind; [|intros _; apply preserves_raise].
    apply (preserves_console_print E I_stable Hd). now apply lifecycle_ok. }
  apply preserves_bind.
  { apply (preserves_is_ollama_running E I_stable Hd).
    intros o. now apply lifecycle_ok. }
  intros running. apply preserves_bind.
  { apply preserves_if; [|apply preserves_ret].
    apply (preserves_cleanup_zombies I_stable Hd). now apply lifecycle_ok. }
  intros _. apply preserves_bind.
  { apply (preserves_is_ollama_running E I_stable Hd).
    intros o. now apply lifecycle_ok. }
  intros was_already_running.
  apply preserves_try_finally.
  - apply preserves_try_except.
    + apply preserves_bind; [|intros _; exact Hblock].
      apply preserves_if; [|apply preserves_ret].
      apply preserves_bind; [|intros p; apply preserves_set_server_process].
      apply (preserves_start_ollama E I_stable Hd);
        intros; now apply lifecycle_ok.
    + intros e. apply (preserves_console_print E I_stable Hd).
      now apply lifecycle_ok.
  - apply preserves_bind; [apply preserves_get_server_process|].
    intros sp. apply preserves_if; [|apply preserves_ret].
    apply preserves_bind.
    + apply (preserves_stop_ollama E I_stable Hd).
      intros h _. repeat split; intros; now apply lifecycle_ok.
    + intros _. apply (preserves_console_print E I_stable Hd).
      now apply lifecycle_ok.
Qed.

End MainInvariants.

(** ** Runs without an interruption *)

Lemma bind_normal {A B} (m : M A) (k : A -> M B) s a s' :
  m s = (Normal a, s') -> bind m k s = k a s'.
Proof. unfold bind. now intros ->. Qed.

Lemma bind_raised {A B} (m : M A) (k : A -> M B) s e s' :
  m s = (Raised e, s') -> bind m k s = (Raised e, s').
Proof. unfold bind. now intros ->. Qed.

Lemma signal_handler_raises E s :
  fst (signal_handler E s) = Raised (SystemExit 0).
Proof.
  unfold signal_handler, console_print, stop_ollama, process_wait, act,
    bind, ret, emit, get_server_process, sys_exit, raise, truthy.
  cbn. destruct (server_process s) as [h|]; cbn; [|reflexivity].
  destruct (exits_in_time E (waits s)); reflexivity.
Qed.

Lemma deliver_no_signal E s :
  sigint E <> Some (clock s) -> deliver E s = (Normal tt, tick s).
Proof.
  intros H. unfold deliver. destruct (sigint E) as [n|]; [|reflexivity].
  destruct (Nat.eqb_spec n (clock s)); [congruence | reflexivity].
Qed.

Lemma deliver_normal E s u :
  fst (deliver E s) = Normal u -> snd (deliver E s) = tick s.
Proof.
  unfold deliver. destruct (sigint E) as [n|]; [|reflexivity].
  destruct (n =? clock s)%nat; [|reflexivity].
  rewrite signal_handler_raises. discriminate.
Qed.

Lemma deliver_never_out_of_fuel E s : fst (deliver E s) <> OutOfFuel.
Proof.
  unfold deliver. destruct (sigint E) as [n|]; [|discriminate].
  destruct (n =? clock s)%nat; [|discriminate].
  rewrite signal_handler_raises. discriminate.
Qed.

Lemma act_no_signal E e s :
  sigint E <> Some (clock s) ->
  act (deliver E) e s = (Normal tt, log e (tick s)).
Proof.
  intros H. unfold act.
  rewrite (bind_normal _ _ _ (deliver_no_signal E s H)). reflexivity.
Qed.

(** [console.print] when no signal arrives: the message is printed, or
    the markup parser raises and nothing is printed. *)
Lemma console_print_prints E m s :
  markup_failure E m = None ->
  sigint E <> Some (clock s) ->
  console_print E (deliver E) m s = (Normal tt, log (EPrint m) (tick s)).
Proof. intros Hm H. unfold console_print; cbn [markup_failure markup_of]. rewrite Hm. now apply act_no_signal. Qed.

Lemma console_print_fails E m s msg :
  markup_failure E m = Some msg ->
  sigint E <> Some (clock s) ->
  console_print E (deliver E) m s
  = (Raised (PyError (MarkupError msg)), tick s).
Proof.
  intros Hm H. unfold console_print; cbn [markup_failure markup_of]. rewrite Hm.
  now rewrite (bind_normal _ _ _ (deliver_no_signal E s H)).
Qed.

(** The [except] clause of [is_ollama_running] catches exactly the
    connection failures and the timeouts. *)
Lemma caught_iff_unreachable e :
  isinstance_ConnectionError e || isinstance_ReadTimeout e
  = isinstance_ConnectionError e || isinstance_Timeout e.
Proof. now destruct e. Qed.

Lemma is_ollama_running_no_signal E s :
  sigint E <> Some (clock s) ->
  let o := http_get E (gets s) in
  let s' := log (EGet o) (count_get (tick s)) in
  is_ollama_running E (deliver E) s =
  match o with
  | Response _ => (Normal true, s')
  | GetRaises e =>
      if isinstance_ConnectionError e || isinstance_Timeout e
      then (Normal false, s')
      else (Raised (PyError (RequestsError e)), s')
  end.
Proof.
  intros H o s'. unfold is_ollama_running, requests_get.
  rewrite (bind_normal _ _ _ (bind_normal _ _ _ (deliver_no_signal E s H))).
  cbv beta. change (gets (tick s)) with (gets s).
  subst o s'. destruct (http_get E (gets s)) as [st | e]; [reflexivity|].
  rewrite caught_iff_unreachable.
  now destruct (isinstance_ConnectionError e || isinstance_Timeout e).
Qed.

(** C7 (as stated it fails, see the counterexample below).
    [is_ollama_running] returns [True] for a response of any status
    code, and [False] for a connection failure (ConnectionError and its
    subclasses) or a timeout (ConnectTimeout, ReadTimeout); every other
    exception of the GET is raised to the caller: a redirect loop
    (TooManyRedirects), a connection broken in mid-response
    (ChunkedEncodingError) and a body that cannot be decoded
    (ContentDecodingError). *)
Theorem is_ollama_running_catches_connection_failures_only
        (E : env) (s : state) :
  sigint E <> Some (clock s) ->
  let o := http_get E (gets s) in
  let r := fst (is_ollama_running E (deliver E) s) in
  (forall status, o = Response status -> r = Normal true) /\
  (forall e, o = GetRaises e ->
             isinstance_ConnectionError e = true \/ isinstance_Timeout e = true ->
             r = Normal false) /\
  (forall e, o = GetRaises e ->
             isinstance_ConnectionError e = false ->
             isinstance_Timeout e = false ->
             r = Raised (PyError (RequestsError e))) /\
  (forall e, isinstance_ConnectionError e = false /\
             isinstance_Timeout e = false <->
             e = TooManyRedirects \/ e = ChunkedEncodingError \/
             e = ContentDecodingError).
Proof.
  intros H o r. unfold r. rewrite (is_ollama_running_no_signal E s H).
  fold o. split; [|split; [|split]].
  - now intros st ->.
  - intros e -> He.
    assert (Hc : isinstance_ConnectionError e || isinstance_Timeout e = true)
      by (apply orb_true_iff; exact He).
    now rewrite Hc.
  - intros e -> Hc Ht. now rewrite Hc, Ht.
  - intros e. split.
    + destruct e; simpl; intros [Hc Ht]; try discriminate; auto.
    + intros [-> | [-> | ->]]; split; reflexivity.
Qed.

(** C7, counterexample: a connection broken in mid-response is a network
    error and is raised to the caller; a redirect loop is a connection
    that succeeded and does not give [True]. *)
Lemma is_ollama_running_propagates_network_errors :
  fst (is_ollama_running env_broken_response (deliver env_broken_response)
                         initial)
  = Raised (PyError (RequestsError ChunkedEncodingError)) /\
  fst (is_ollama_running env_redirect_loop (deliver env_redirect_loop) initial)
  = Raised (PyError (RequestsError TooManyRedirects)).
Proof. split; reflexivity. Qed.

(** ** Invariants through the inference call and the display *)

Section DisplayInvariants.

Variable E : env.
Variable I : state -> Prop.
Variable ok : event -> Prop.
Hypothesis I_stable : stable I ok.
Hypothesis deliver_ok : preserves I (deliver E).

Lemma triple_ollama_chat ask_mode query :
  ok (EChat (chat_messages ask_mode query)) ->
  triple I (ollama_chat E ask_mode query)
         (fun r s => I s /\
                     forall x, r = Normal x ->
                               exists content,
                                 chat_result E = ChatReply content /\
                                 x = strip content).
Proof.
  intros Hok s Hs. unfold ollama_chat.
  pose proof (preserves_act I_stable deliver_ok _ Hok s Hs) as Ha.
  unfold bind.
  destruct (act (deliver E) (EChat (chat_messages ask_mode query)) s)
    as [[[] | e |] s1]; simpl in *;
    try (split; [assumption | discriminate]).
  destruct (chat_result E) as [content | msg]; simpl.
  - split; [assumption|]. intros x [= <-]. now exists content.
  - split; [assumption | discriminate].
Qed.

Lemma triple_console_input :
  ok EInput ->
  triple I (console_input E)
         (fun r s => I s /\ forall x, r = Normal x -> x = confirm_input E).
Proof.
  intros Hok s Hs. unfold console_input.
  pose proof (preserves_act I_stable deliver_ok _ Hok s Hs) as Ha.
  unfold bind.
  destruct (act (deliver E) EInput s) as [[[] | e |] s1]; simpl in *;
    try (split; [assumption | discriminate]).
  split; [assumption|]. now intros x [= <-].
Qed.

Lemma preserves_display_output ask_mode content :
  (ask_mode = true -> ok (EPrint (MAnswer content))) ->
  (ask_mode = false -> sanitize_command content = [] ->
   ok (EPrint MEmptyCommand)) ->
  (ask_mode = false -> sanitize_command content <> [] ->
   ok (EPrint (MSuggested (sanitize_command content))) /\
   ok EInput /\
   (affirmative (lower E (confirm_input E)) = true ->
    ok (ERun (sanitize_command content))) /\
   (affirmative (lower E (confirm_input E)) = false ->
    ok (EPrint MAborted))) ->
  preserves I (display_output E ask_mode content).
Proof.
  intros Hans Hempty Hcmd. unfold display_output.
  destruct ask_mode.
  { apply (preserves_console_print E I_stable deliver_ok). auto. }
  destruct (sanitize_command content) as [|c cs] eqn:Hsan.
  { apply (preserves_console_print E I_stable deliver_ok). auto. }
  destruct (Hcmd eq_refl) as (Hsug & Hin & Hrun & Habort); [discriminate|].
  apply preserves_bind.
  { now apply (preserves_console_print E I_stable deliver_ok). }
  intros _. eapply triple_bind.
  - now apply triple_console_input.
  - intros confirm s [Hs Hx]. specialize (Hx _ eq_refl). subst confirm.
    as_preserves.
    destruct (affirmative (lower E (confirm_input E))).
    + apply (preserves_act I_stable deliver_ok). auto.
    + apply (preserves_console_print E I_stable deliver_ok). auto.
  - now intros e s [Hs _].
  - now intros s [Hs _].
Qed.

Lemma preserves_ask_and_display ask_mode query :
  ok (EChat (chat_messages ask_mode query)) ->
  (forall content,
      chat_result E = ChatReply content ->
      preserves I (display_output E ask_mode (strip content))) ->
  preserves I (ask_and_display E ask_mode query).
Proof.
  intros Hchat Hdisp. unfold ask_and_display. eapply triple_bind.
  - now apply triple_ollama_chat.
  - intros x s [Hs Hx]. destruct (Hx _ eq_refl) as (content & Hc & ->).
    now apply Hdisp.
  - now intros e s [Hs _].
  - now intros s [Hs _].
Qed.

End DisplayInvariants.

(** ** Properties of every event of a run *)

Lemma stable_Forall (ok : event -> Prop) :
  stable (fun s => Forall ok (trace s)) ok.
Proof.
  split; try (intros s Hs; exact Hs).
  intros e s He Hs. simpl. apply Forall_app. split; [assumption|].
  now constructor.
Qed.

(** Whatever holds of the lifecycle events, of the inference call of this
    run and of the events the display can emit for the reply of this run,
    holds of every event of the run. *)
Lemma run_Forall E argv (ok : event -> Prop) :
  (forall e, is_lifecycle e = true -> ok e) ->
  ok (EChat (chat_messages (ask_mode_of argv) (query_of argv))) ->
  (forall content, chat_result E = ChatReply content ->
     (ask_mode_of argv = true -> ok (EPrint (MAnswer (strip content)))) /\
     (ask_mode_of argv = false -> extracted_command E = [] ->
      ok (EPrint MEmptyCommand)) /\
     (ask_mode_of argv = false -> extracted_command E <> [] ->
        ok (EPrint (MSuggested (extracted_command E))) /\
        ok EInput /\
        (affirmative (lower E (confirm_input E)) = true ->
         ok (ERun (extracted_command E))) /\
        (affirmative (lower E (confirm_input E)) = false ->
         ok (EPrint MAborted)))) ->
  Forall ok (trace (snd (run E argv))).
Proof.
  intros Hlife Hchat Hdisp.
  pose proof (stable_Forall ok) as Hst.
  assert (Hd : preserves (fun s => Forall ok (trace s)) (deliver E)).
  { now apply (preserves_deliver E Hst). }
  apply (@preserves_main E _ ok Hst Hlife); [auto | | constructor].
  apply (preserves_ask_and_display Hst Hd); [assumption|].
  intros content Hc. destruct (Hdisp _ Hc) as (Hans & Hempty & Hcmd).
  assert (Hx : extracted_command E = sanitize_command (strip content))
    by (unfold extracted_command; now rewrite Hc).
  rewrite Hx in *.
  apply (preserves_display_output Hst Hd); auto.
Qed.

(** ** The inference call and the display without an interruption *)

Lemma act_none E e s :
  sigint E = None -> act (deliver E) e s = (Normal tt, log e (tick s)).
Proof. intros H. apply act_no_signal. rewrite H. discriminate. Qed.

Lemma display_output_no_signal E ask_mode content s :
  sigint E = None ->
  trace (snd (display_output E ask_mode content s))
  = trace s ++ display_events E ask_mode content.
Proof.
  intros H.
  assert (Hns : forall s0, sigint E <> Some (clock s0))
    by (intros s0; rewrite H; discriminate).
  unfold display_output, display_events.
  destruct ask_mode.
  { destruct (markup_error E content) as [msg|] eqn:Hm.
    - rewrite (@console_print_fails E (MAnswer content) s msg Hm (Hns s)).
      cbn [snd trace tick]. now rewrite app_nil_r.
    - now rewrite (@console_print_prints E (MAnswer content) s Hm (Hns s)). }
  unfold console_print; cbn [markup_failure markup_of]. cbn [markup_failure markup_of].
  destruct (sanitize_command content) as [|c cs]; [now rewrite act_none|].
  rewrite (bind_normal _ _ _ (act_none _ _ _ H)).
  unfold console_input.
  rewrite (bind_normal _ _ _ (bind_normal _ _ _ (act_none _ _ _ H))).
  unfold ret.
  destruct (affirmative (lower E (confirm_input E)));
    rewrite act_none by assumption; simpl;
    now rewrite <- !app_assoc.
Qed.

Lemma ask_and_display_no_signal E ask_mode query s :
  sigint E = None ->
  trace (snd (ask_and_display E ask_mode query s))
  = trace s ++ EChat (chat_messages ask_mode query)
            :: match chat_result E with
               | ChatReply content => display_events E ask_mode (strip content)
               | ChatRaises _ => []
               end.
Proof.
  intros H. unfold ask_and_display, ollama_chat.
  destruct (chat_result E) as [content | msg].
  - rewrite (bind_normal _ _ _ (bind_normal _ _ _ (act_none _ _ _ H))).
    unfold ret. rewrite display_output_no_signal by assumption.
    simpl. now rewrite <- app_assoc.
  - rewrite (bind_raised _ _ _ (bind_normal _ _ _ (act_none _ _ _ H))).
    reflexivity.
Qed.

(** A property of traces that is kept when events with [ok] are added,
    and when the events of the inference-and-display block are added,
    holds at the end of every run that is not interrupted. *)
Lemma run_trace_invariant E argv (T : list event -> Prop) (ok : event -> Prop) :
  sigint E = None ->
  (forall t e, ok e -> T t -> T (t ++ [e])) ->
  (forall e, is_lifecycle e = true -> ok e) ->
  (forall t, T t ->
     T (t ++ EChat (chat_messages (ask_mode_of argv) (query_of argv))
          :: match chat_result E with
             | ChatReply content =>
                 display_events E (ask_mode_of argv) (strip content)
             | ChatRaises _ => []
             end)) ->
  T [] ->
  T (trace (snd (run E argv))).
Proof.
  intros Hsig Hstep Hlife Hblock Hnil.
  assert (Hst : stable (fun s => T (trace s)) ok).
  { split; try (intros s Hs; exact Hs). intros e s He Hs. now apply Hstep. }
  apply (@preserves_main E _ ok Hst Hlife); [auto | | exact Hnil].
  intros s Hs. cbv beta. rewrite ask_and_display_no_signal by assumption.
  now apply Hblock.
Qed.

(** ** Execution and confirmation *)

Lemma extracted_command_reply E content :
  chat_result E = ChatReply content ->
  extracted_command E = sanitize_command (strip content).
Proof. intros H. unfold extracted_command. now rewrite H. Qed.

(** In every run, interrupted or not: what is executed is the extracted
    command, after an affirmative input; "Aborted." is printed after
    another input only. *)
Lemma run_executes_only_confirmed E argv :
  Forall (fun e =>
            match e with
            | ERun c =>
                c = extracted_command E /\
                affirmative (lower E (confirm_input E)) = true
            | EPrint MAborted =>
                affirmative (lower E (confirm_input E)) = false
            | _ => True
            end)
         (trace (snd (run E argv))).
Proof.
  apply run_Forall.
  - intros [ | | | | | | | | [] | | ]; simpl; try discriminate; auto.
  - exact Logic.I.
  - intros content Hc. repeat split; auto.
Qed.

Lemma affirmative_iff confirm :
  affirmative confirm = true <->
  confirm = lit "" \/ confirm = lit "y" \/ confirm = lit "yes".
Proof.
  unfold affirmative. rewrite list_in_In. simpl. intuition congruence.
Qed.



(** ** Empty extraction results *)

Lemma fences_and_space_strip raw :
  fences_and_space raw -> fences_and_space (strip raw).
Proof.
  intros H. now apply fences_and_space_rstrip, fences_and_space_lstrip.
Qed.

(** C6. When the reply of the model is whitespace and fence markers only,
    [sanitize_command] gives the empty string, on the reply and on the
    trimmed reply [main] hands to it; no run then executes anything or
    asks for confirmation; and a run in command mode that is not
    interrupted and makes the inference call prints the empty-command
    error. *)
Theorem empty_extraction_is_reported_not_run
        (E : env) (argv : list str) (raw : str) :
  chat_result E = ChatReply raw ->
  fences_and_space raw ->
  let t := trace (snd (run E argv)) in
  sanitize_command raw = [] /\
  extracted_command E = [] /\
  (forall c, ~ In (ERun c) t) /\
  ~ In EInput t /\
  (sigint E = None -> ask_mode_of argv = false ->
   (exists m, In (EChat m) t) -> In (EPrint MEmptyCommand) t).
Proof.
  intros Hc Hraw t.
  assert (Hx : extracted_command E = []).
  { rewrite (extracted_command_reply E Hc).
    now apply sanitize_fences_and_space, fences_and_space_strip. }
  assert (Hsafe : Forall (fun e => is_run e = false /\ is_input e = false) t).
  { apply run_Forall.
    - intros e He. destruct e; simpl in *; auto; discriminate.
    - now split.
    - intros content _. repeat split; auto; congruence. }
  rewrite Forall_forall in Hsafe.
  split; [now apply sanitize_fences_and_space|].
  split; [exact Hx|].
  split; [intros c Hin; apply Hsafe in Hin as [Hin _]; discriminate|].
  split; [intros Hin; apply Hsafe in Hin as [_ Hin]; discriminate|].
  intros Hsig Hmode.
  apply (@run_trace_invariant E argv
           (fun t => (exists m, In (EChat m) t) -> In (EPrint MEmptyCommand) t)
           (fun e => is_chat e = false)); try assumption.
  - intros t0 e He Ht (m & Hin). apply in_or_app. left. apply Ht.
    apply in_app_or in Hin as [Hin | [Heq | []]];
      [now exists m | subst e; discriminate].
  - intros e He. destruct e; simpl in *; auto; discriminate.
  - intros t0 _ _. apply in_or_app. right.
    rewrite Hc, Hmode. unfold display_events.
    rewrite <- (extracted_command_reply E Hc), Hx. simpl. tauto.
  - intros (m & []).
Qed.

Lemma empty_extraction_is_reported_not_run_witness :
  chat_result env_empty_reply
  = ChatReply (lit "```" ++ [LF] ++ lit "  ```  " ++ [LF]) /\
  fences_and_space (lit "```" ++ [LF] ++ lit "  ```  " ++ [LF]) /\
  (forall c, ~ In (ERun c) (trace (snd (run env_empty_reply sample_argv)))) /\
  In (EPrint MEmptyCommand) (trace (snd (run env_empty_reply sample_argv))).
Proof.
  assert (Hfs : fences_and_space (lit "```" ++ [LF] ++ lit "  ```  " ++ [LF])).
  { apply (fs_fence (s := [LF] ++ lit "  ```  " ++ [LF])).
    apply fs_space; [reflexivity|].
    apply fs_space; [reflexivity|]. apply fs_space; [reflexivity|].
    apply (fs_fence (s := lit "  " ++ [LF])).
    repeat (apply fs_space; [reflexivity|]). apply fs_nil. }
  split; [reflexivity|]. split; [exact Hfs|].
  pose proof (@empty_extraction_is_reported_not_run
                env_empty_reply sample_argv _ eq_refl Hfs)
    as (_ & _ & Hrun & _ & Hrep).
  split; [exact Hrun|].
  apply Hrep; [reflexivity | reflexivity|].
  eexists. vm_compute. right. right. left. reflexivity.
Defined.

(** ** The mode flag *)

Lemma ask_mode_of_flag prog pre post :
  ask_mode_of (prog :: pre ++ DASH_A :: post) = true.
Proof.
  unfold ask_mode_of. apply list_in_In. right. apply in_or_app. right. now left.
Qed.

Lemma argv_after_flag prog pre post :
  prog <> DASH_A -> ~ In DASH_A pre ->
  argv_after (prog :: pre ++ DASH_A :: post) = prog :: pre ++ post.
Proof.
  intros Hp Hpre. unfold argv_after.
  change (prog :: pre ++ DASH_A :: post) with ((prog :: pre) ++ DASH_A :: post).
  rewrite list_remove_first; [reflexivity|].
  intros [H | H]; auto.
Qed.

(** Without the flag the arguments are left as they are, in command
    mode. *)
Lemma detect_mode_without_flag argv s :
  ~ In DASH_A argv -> detect_mode argv s = (Normal (false, argv), s).
Proof.
  intros H. rewrite detect_mode_run. unfold ask_mode_of, argv_after.
  assert (Hin : list_in DASH_A argv = false).
  { destruct (list_in DASH_A argv) eqn:Hl; [|reflexivity].
    apply list_in_In in Hl. contradiction. }
  now rewrite Hin, (list_remove_absent _ _ Hin).
Qed.

(** C10. With "-a" at any position after the program name, the mode is
    answer mode, the first "-a" and nothing else leaves the arguments (a
    later "-a" stays), the query is the remaining words joined by spaces,
    and in every run the inference call, if made, carries the answer-mode
    messages with that query, and nothing is executed or asked. *)
Theorem dash_a_selects_answer_mode_anywhere
        (E : env) (prog : str) (pre post : list str) :
  prog <> DASH_A ->
  ~ In DASH_A pre ->
  let argv := prog :: pre ++ DASH_A :: post in
  let t := trace (snd (run E argv)) in
  (forall s, detect_mode argv s = (Normal (true, prog :: pre ++ post), s)) /\
  query_of argv = join SPACE (pre ++ post) /\
  (forall m, In (EChat m) t ->
             m = chat_messages true (join SPACE (pre ++ post))) /\
  (forall c, ~ In (ERun c) t) /\
  ~ In EInput t.
Proof.
  intros Hp Hpre argv t.
  assert (Hmode : ask_mode_of argv = true) by apply ask_mode_of_flag.
  assert (Hargv : argv_after argv = prog :: pre ++ post)
    by now apply argv_after_flag.
  assert (Hq : query_of argv = join SPACE (pre ++ post))
    by (unfold query_of; now rewrite Hargv).
  assert (Hsafe : Forall (fun e =>
                            match e with
                            | EChat m =>
                                m = chat_messages true (join SPACE (pre ++ post))
                            | ERun _ | EInput => False
                            | _ => True
                            end) t).
  { apply run_Forall.
    - intros e He. destruct e; simpl in *; auto; discriminate.
    - now rewrite Hmode, Hq.
    - intros content _. rewrite Hmode. repeat split; auto; discriminate. }
  rewrite Forall_forall in Hsafe.
  split; [intros s; now rewrite detect_mode_run, Hmode, Hargv|].
  split; [exact Hq|].
  split; [intros m Hin; exact (Hsafe _ Hin)|].
  split; [intros c Hin; exact (Hsafe _ Hin) | intros Hin; exact (Hsafe _ Hin)].
Qed.

Lemma dash_a_selects_answer_mode_anywhere_witness :
  lit "pls" <> DASH_A /\
  ~ In DASH_A [lit "what"; lit "does"] /\
  fst (detect_mode answer_argv initial)
  = Normal (true, [lit "pls"; lit "what"; lit "does"; lit "-a"; lit "do"]) /\
  query_of answer_argv = lit "what does -a do" /\
  In (EChat (chat_messages true (lit "what does -a do")))
     (trace (snd (run env_running answer_argv))).
Proof.
  assert (H1 : lit "pls" <> DASH_A) by discriminate.
  assert (H2 : ~ In DASH_A [lit "what"; lit "does"]).
  { intros [H | [H | []]]; discriminate. }
  pose proof (@dash_a_selects_answer_mode_anywhere
                env_running (lit "pls") [lit "what"; lit "does"]
                [lit "-a"; lit "do"] H1 H2) as (Hd & Hq & _).
  split; [exact H1|]. split; [exact H2|].
  split; [exact (f_equal fst (Hd initial))|].
  split; [exact Hq|].
  vm_compute. right. right. left. reflexivity.
Defined.

(** ** A server that is already running *)

Lemma stable_untouched : stable untouched (fun e => touches_server e = false).
Proof.
  split; try (intros s Hs; exact Hs).
  intros e s He [Ht Hsp]. split; [|exact Hsp].
  simpl. apply Forall_app. split; [assumption|]. now constructor.
Qed.

Lemma untouched_deliver E : preserves untouched (deliver E).
Proof.
  intros s Hs.
  pose proof (stable_tick stable_untouched _ Hs) as Htick.
  unfold deliver. destruct (sigint E) as [n|]; [|exact Htick].
  destruct (n =? clock s)%nat; [|exact Htick].
  destruct Htick as [Ht Hsp].
  unfold signal_handler, console_print, act, bind, ret, emit,
    get_server_process, sys_exit, raise, truthy.
  cbn. cbn in Hsp. rewrite Hsp. cbn. split; [|assumption].
  apply Forall_app. split; [assumption|]. now constructor.
Qed.

Lemma is_ollama_running_healthy E n :
  healthy (http_get E n) = true ->
  triple (fun s => untouched s /\ gets s = n)
         (is_ollama_running E (deliver E))
         (fun r s => untouched s /\
                     match r with
                     | Normal b => b = true /\ gets s = S n
                     | _ => True
                     end).
Proof.
  intros Hh s [Hs Hg].
  pose proof (@untouched_deliver E s Hs) as Hd.
  pose proof (@deliver_normal E s) as Hn.
  unfold is_ollama_running, requests_get, bind.
  destruct (deliver E s) as [[[] | e |] s1]; simpl in *; auto.
  rewrite (Hn tt eq_refl). cbn. rewrite Hg.
  destruct (http_get E n) as [st | e]; [|discriminate].
  cbn. split; [|now rewrite Hg].
  destruct Hs as [Ht Hsp]. split; [|assumption].
  cbn. apply Forall_app. split; [assumption|]. now constructor.
Qed.

Ltac triple_goal P :=
  match goal with
  | |- untouched (snd (?m ?st)) =>
      let H := fresh in
      assert (H : triple P m (fun _ x => untouched x)); [|apply (H st)]
  end.

(** When both probes of the start decision are answered, the run takes
    no action on any server process and ends without a handle. *)
Lemma both_probes_answered_untouched (E : env) (argv : list str) :
  healthy (http_get E 0) = true ->
  healthy (http_get E 1) = true ->
  let s := snd (run E argv) in
  Forall (fun e => touches_server e = false) (trace s) /\
  server_process s = None /\
  count is_popen (trace s) = 0 /\
  (forall h, stops_of h (trace s) = 0).
Proof.
  intros H0 H1 s.
  assert (Hu : untouched s).
  { subst s. unfold run, main. unfold bind at 1.
    rewrite detect_mode_run. cbv beta iota.
    pose proof stable_untouched as Hst.
    pose proof (untouched_deliver E) as Hd.
    assert (Hinit : untouched initial) by (split; [constructor | reflexivity]).
    destruct (List.length (argv_after argv) <? 2)%nat.
    { as_preserves.
      destruct (argv_after argv) as [|prog rest]; [apply preserves_raise|].
      apply preserves_bind; [|intros _; apply preserves_raise].
      now apply (preserves_console_print E Hst Hd). }
    triple_goal (fun s => untouched s /\ gets s = 0); [|now split].
    eapply triple_bind;
      [now apply is_ollama_running_healthy | | now intros e s [Hs _]
       | now intros s [Hs _]].
    intros running s [Hs [-> Hg]]. cbn [negb].
    unfold bind at 1. unfold ret at 1.
    triple_goal (fun s => untouched s /\ gets s = 1); [|now split].
    eapply triple_bind;
      [now apply is_ollama_running_healthy | | now intros e s0 [Hs0 _]
       | now intros s0 [Hs0 _]].
    clear s Hs Hg. intros was s [Hs [-> Hg]]. cbn [negb andb].
    as_preserves.
    apply preserves_try_finally.
    - apply preserves_try_except.
      + apply preserves_bind; [apply preserves_ret|]. intros _.
        apply (preserves_ask_and_display Hst Hd); [reflexivity|].
        intros content _.
        apply (preserves_display_output Hst Hd); auto.
      + intros e. now apply (preserves_console_print E Hst Hd).
    - apply preserves_bind; [now intros s0 Hs0|].
      intros sp. apply preserves_ret. }
  destruct Hu as [Ht Hsp]. split; [exact Ht|]. split; [exact Hsp|].
  clear Hsp. split.
  - unfold count. induction Ht as [|e t He Ht IH]; [reflexivity|].
    destruct e; simpl in *; auto; discriminate.
  - intros h. induction Ht as [|e t He Ht IH]; [reflexivity|].
    destruct e; simpl in *; auto; discriminate.
Qed.

(** ** A server that never comes up *)

Lemma is_ollama_running_unreachable E s :
  sigint E = None ->
  unreachable (http_get E (gets s)) = true ->
  is_ollama_running E (deliver E) s
  = (Normal false, log (EGet (http_get E (gets s))) (count_get (tick s))).
Proof.
  intros Hsig Hu.
  rewrite is_ollama_running_no_signal by (rewrite Hsig; discriminate).
  cbv zeta. destruct (http_get E (gets s)) as [st | e]; [discriminate|].
  simpl in Hu. now rewrite Hu.
Qed.

Lemma poll_never_up E k :
  sigint E = None ->
  (forall n, unreachable (http_get E n) = true) ->
  forall fuel retries s,
    retries + k = 21 -> 1 <= k -> k <= fuel ->
    exists s',
      poll_until_running E (deliver E) fuel retries s
      = (Raised (SystemExit 1), s') /\
      trace s' = trace s ++ failed_polls E (gets s) k ++ [EPrint MStartError] /\
      server_process s' = server_process s.
Proof.
  intros Hsig Hdown. induction k as [|k IH]; intros fuel retries s Hk H1 Hf;
    [lia|].
  destruct fuel as [|fuel]; [lia|].
  cbn [poll_until_running].
  rewrite (bind_normal _ _ _ (is_ollama_running_unreachable _ s Hsig (Hdown _))).
  cbn [negb].
  rewrite (bind_normal _ _ _ (act_none _ _ _ Hsig)).
  destruct k as [|k'].
  - assert (Hr : (20 <? retries + 1) = true) by (apply Nat.ltb_lt; lia).
    rewrite Hr. unfold console_print; cbn [markup_failure markup_of].
    rewrite (bind_normal _ _ _ (act_none _ _ _ Hsig)).
    eexists. split; [reflexivity|]. split; [|reflexivity].
    cbn [trace log tick count_get failed_polls]. now rewrite <- !app_assoc.
  - assert (Hr : (20 <? retries + 1) = false) by (apply Nat.ltb_ge; lia).
    rewrite Hr.
    edestruct (IH fuel (retries + 1)) as (s' & Hrun & Ht & Hsp);
      [lia | lia | lia | ].
    exists s'. split; [exact Hrun|]. rewrite Ht, Hsp. split; [|reflexivity].
    cbn [trace gets log tick count_get].
    cbn [failed_polls]. now rewrite <- !app_assoc.
Qed.

Lemma start_ollama_never_up E s :
  sigint E = None ->
  (forall n, unreachable (http_get E n) = true) ->
  exists s',
    start_ollama E (deliver E) s = (Raised (SystemExit 1), s') /\
    trace s' = trace s ++ EPopen (new_process E)
                       :: failed_polls E (gets s) 21 ++ [EPrint MStartError] /\
    server_process s' = server_process s.
Proof.
  intros Hsig Hdown.
  unfold start_ollama, start_ollama_fuel.
  rewrite (bind_normal _ _ _ (act_none _ _ _ Hsig)).
  edestruct (@poll_never_up E 21 Hsig Hdown 64 0) as (s' & Hrun & Ht & Hsp);
    [lia | lia | lia | ].
  exists s'. split; [apply bind_raised; exact Hrun|].
  rewrite Ht, Hsp. split; [|reflexivity].
  cbn [trace gets log tick]. now rewrite <- app_assoc.
Qed.

Lemma count_failed_polls E g n :
  count is_get (failed_polls E g n) = n /\
  count is_sleep (failed_polls E g n) = n /\
  count is_chat (failed_polls E g n) = 0 /\
  count is_popen (failed_polls E g n) = 0.
Proof.
  unfold count. revert g. induction n as [|n IH]; intros g; simpl; [auto|].
  destruct (IH (S g)) as (-> & -> & -> & ->). auto.
Qed.

Lemma count_app p t u : count p (t ++ u) = count p t + count p u.
Proof. unfold count. now rewrite filter_app, length_app. Qed.

Lemma try_except_exit {A} (body : M A) handler s code s' :
  body s = (Raised (SystemExit code), s') ->
  try_except body handler s = (Raised (SystemExit code), s').
Proof. unfold try_except. now intros ->. Qed.

Lemma try_finally_raised {A} (body : M A) final s e s' s'' :
  body s = (Raised e, s') -> final s' = (Normal tt, s'') ->
  try_finally body final s = (Raised e, s'').
Proof. unfold try_finally. now intros -> ->. Qed.

(** The whole run when nothing ever answers and nothing interrupts. *)
Lemma run_never_up E argv :
  sigint E = None ->
  (forall n, unreachable (http_get E n) = true) ->
  2 <= List.length (argv_after argv) ->
  fst (run E argv) = Raised (SystemExit 1) /\
  trace (snd (run E argv))
  = [EGet (http_get E 0); EPkill; EGet (http_get E 1);
     EPopen (new_process E)]
    ++ failed_polls E 2 21 ++ [EPrint MStartError] /\
  server_process (snd (run E argv)) = None.
Proof.
  intros Hsig Hdown Hargv.
  cut (exists s', run E argv = (Raised (SystemExit 1), s') /\
                  trace s' = [EGet (http_get E 0); EPkill;
                              EGet (http_get E 1); EPopen (new_process E)]
                             ++ failed_polls E 2 21 ++ [EPrint MStartError] /\
                  server_process s' = None).
  { intros (s' & -> & Ht & Hsp). auto. }
  unfold run, main. unfold bind at 1.
  rewrite detect_mode_run. cbv beta iota.
  assert (Hlen : (List.length (argv_after argv) <? 2) = false)
    by (apply Nat.ltb_ge; lia).
  rewrite Hlen.
  rewrite (bind_normal _ _ _ (is_ollama_running_unreachable _ _ Hsig (Hdown _))).
  cbn [negb]. unfold cleanup_zombies.
  rewrite (bind_normal _ _ _ (act_none _ _ _ Hsig)).
  rewrite (bind_normal _ _ _ (is_ollama_running_unreachable _ _ Hsig (Hdown _))).
  cbn [negb andb].
  match goal with
  | |- context [try_finally _ _ ?s3] =>
      destruct (start_ollama_never_up E s3 Hsig Hdown) as (s' & Hrun & Ht & Hsp)
  end.
  exists s'. split; [|split].
  - eapply try_finally_raised.
    + apply try_except_exit. apply bind_raised. apply bind_raised. exact Hrun.
    + unfold bind, get_server_process. rewrite Hsp. reflexivity.
  - rewrite Ht. reflexivity.
  - rewrite Hsp. reflexivity.
Qed.




(** Both probes of the start decision count: when a running server
    misses the second one, [main] launches a process of its own (and stops
    that process at the end); the reaper is not called. *)
Example missed_second_probe_launches :
  trace (snd (run env_missed_probe sample_argv))
  = [EGet (Response 200); EGet (GetRaises ReadTimeout); EPopen 4242;
     EGet (Response 200);
     EChat (chat_messages false (lit "copy ip"));
     EPrint (MSuggested ip_cmd); EInput; EPrint MAborted;
     ETerminate 4242; EWait 4242 true; EPrint MPutToSleep].
Proof. vm_compute. reflexivity. Qed.

Lemma is_ollama_running_catches_connection_failures_only_witness :
  sigint env_never_up <> Some (clock initial) /\
  fst (is_ollama_running env_never_up (deliver env_never_up) initial)
  = Normal false.
Proof.
  assert (H : sigint env_never_up <> Some (clock initial)) by discriminate.
  split; [exact H|].
  pose proof (@is_ollama_running_catches_connection_failures_only
                env_never_up initial H) as (_ & Hf & _).
  apply (Hf ConnectionError); [reflexivity | now left].
Defined.

(** ** The poll loop has fuel enough *)

Section Totality.

Context {A B : Type}.

Lemma total_ret (a : A) : total (ret a).
Proof. intros s. discriminate. Qed.

Lemma total_raise (e : exn) : total (raise (A := A) e).
Proof. intros s. discriminate. Qed.

Lemma total_bind (m : M A) (k : A -> M B) :
  total m -> (forall a, total (k a)) -> total (bind m k).
Proof.
  intros Hm Hk s. specialize (Hm s). unfold bind.
  destruct (m s) as [[a | e |] s']; simpl in *;
    [apply Hk | discriminate | congruence].
Qed.

Lemma total_try_except (body : M A) handler :
  total body -> (forall e, total (handler e)) ->
  total (try_except body handler).
Proof.
  intros Hb Hh s. specialize (Hb s). unfold try_except.
  destruct (body s) as [[a | [c | e] |] s']; simpl in *;
    try discriminate; [apply Hh | congruence].
Qed.

Lemma total_try_finally (body : M A) final :
  total body -> total final -> total (try_finally body final).
Proof.
  intros Hb Hf s. specialize (Hb s). unfold try_finally.
  destruct (body s) as [[a | e |] s']; simpl in *; try congruence;
    specialize (Hf s');
    destruct (final s') as [[[] | e' |] s'']; simpl in *;
      try discriminate; congruence.
Qed.

End Totality.

Lemma total_if {A} (b : bool) (m1 m2 : M A) :
  total m1 -> total m2 -> total (if b then m1 else m2).
Proof. now destruct b. Qed.

Section TotalActions.

Variable E : env.
Variable pending : M unit.
Hypothesis pending_total : total pending.

Lemma total_act e : total (act pending e).
Proof.
  apply total_bind; [exact pending_total|]. intros _ s. discriminate.
Qed.

Lemma total_console_print m : total (console_print E pending m).
Proof.
  unfold console_print. destruct (markup_failure E m); [|apply total_act].
  apply total_bind; [exact pending_total | intros _; apply total_raise].
Qed.

Lemma total_requests_get : total (requests_get E pending).
Proof.
  apply total_bind; [exact pending_total|]. intros _ s. discriminate.
Qed.

Lemma total_process_wait h : total (process_wait E pending h).
Proof.
  apply total_bind; [exact pending_total|]. intros _ s. discriminate.
Qed.

Lemma total_is_ollama_running : total (is_ollama_running E pending).
Proof.
  apply total_bind; [apply total_requests_get|].
  intros [st | e]; [apply total_ret|].
  apply total_if; [apply total_ret | apply total_raise].
Qed.

(** The loop ends within [21 - retries] iterations. *)
Lemma total_poll_until_running fuel retries :
  retries <= 20 -> 21 - retries <= fuel ->
  total (poll_until_running E pending fuel retries).
Proof.
  revert retries. induction fuel as [|fuel IH]; intros retries Hr Hf; [lia|].
  cbn [poll_until_running].
  apply total_bind; [apply total_is_ollama_running|].
  intros up. apply total_if; [|apply total_ret].
  apply total_bind; [apply total_act|]. intros _.
  destruct (Nat.ltb_spec 20 (retries + 1)).
  - apply total_bind; [apply total_act | intros _; apply total_raise].
  - apply IH; lia.
Qed.

Lemma total_start_ollama : total (start_ollama E pending).
Proof.
  apply total_bind; [apply total_act|]. intros _.
  apply total_bind; [apply total_poll_until_running; lia|].
  intros _. apply total_ret.
Qed.

Lemma total_stop_ollama process : total (stop_ollama E pending process).
Proof.
  destruct process as [h|]; [|apply total_ret].
  apply total_bind; [apply total_act|]. intros _.
  apply total_bind; [apply total_process_wait|].
  intros exited. apply total_if; [apply total_ret | apply total_act].
Qed.

End TotalActions.

Lemma total_deliver E : total (deliver E).
Proof. intros s. apply deliver_never_out_of_fuel. Qed.

Lemma total_ask_and_display E ask_mode query :
  total (ask_and_display E ask_mode query).
Proof.
  pose proof (total_deliver E) as Hd.
  unfold ask_and_display. apply total_bind.
  { unfold ollama_chat. apply total_bind; [now apply total_act|].
    intros _. destruct (chat_result E); [apply total_ret | apply total_raise]. }
  intros content. unfold display_output.
  destruct ask_mode; [now apply total_console_print|].
  destruct (sanitize_command content); [now apply total_console_print|].
  apply total_bind; [now apply total_console_print|]. intros _.
  apply total_bind.
  { unfold console_input. apply total_bind; [now apply total_act|].
    intros _. apply total_ret. }
  intros confirm. apply total_if;
    [now apply total_act | now apply total_console_print].
Qed.

(** Every run ends: the fuel of the poll loop is never used up. *)
Theorem run_never_out_of_fuel E argv : fst (run E argv) <> OutOfFuel.
Proof.
  pose proof (total_deliver E) as Hd.
  unfold run, main. unfold bind at 1. rewrite detect_mode_run. cbv beta iota.
  match goal with |- fst (?m initial) <> _ => cut (total m); [now intros H|] end.
  apply total_if.
  { destruct (argv_after argv); [apply total_raise|].
    apply total_bind;
      [now apply total_console_print | intros _; apply total_raise]. }
  apply total_bind; [now apply total_is_ollama_running|]. intros running.
  apply total_bind.
  { apply total_if; [now apply total_act | apply total_ret]. }
  intros _. apply total_bind; [now apply total_is_ollama_running|].
  intros was. apply total_try_finally.
  - apply total_try_except.
    + apply total_bind.
      { apply total_if; [|apply total_ret].
        apply total_bind; [now apply total_start_ollama|].
        intros p s. discriminate. }
      intros _. apply total_ask_and_display.
    + intros e. now apply total_console_print.
  - apply total_bind; [intros s; discriminate|].
    intros sp. apply total_if; [|apply total_ret].
    apply total_bind; [now apply total_stop_ollama|].
    intros _. now apply total_console_print.
Qed.

Corollary run_has_exit_status E argv :
  exists code, exit_status (fst (run E argv)) = Some code.
Proof.
  pose proof (run_never_out_of_fuel E argv) as H.
  destruct (fst (run E argv)) as [[] | [c | e] |]; simpl; eauto.
  congruence.
Qed.

(** ** How often the launched server is stopped *)

(** The run of [env_cold] without SIGINT, for reference: two failed
    probes, the launch, two failed polls and a good one, the inference
    call, the panel, the prompt, the execution and the teardown. *)
Example cold_run_trace :
  trace (snd (run (env_cold None) sample_argv))
  = [EGet (GetRaises ConnectionError); EPkill;
     EGet (GetRaises ConnectionError); EPopen 4242;
     EGet (GetRaises ConnectionError); ESleep;
     EGet (GetRaises ConnectionError); ESleep;
     EGet (Response 200);
     EChat (chat_messages false (lit "copy ip"));
     EPrint (MSuggested ip_cmd); EInput; ERun ip_cmd;
     ETerminate 4242; EWait 4242 true; EPrint MPutToSleep].
Proof. vm_compute. reflexivity. Qed.

(** Normal completion and a failing inference call: one stop. *)
Example stopped_once_on_completion :
  stops_of 4242 (trace (snd (run (env_cold None) sample_argv))) = 1 /\
  fst (run (env_cold None) sample_argv) = Normal tt.
Proof. vm_compute. split; reflexivity. Qed.

Example stopped_once_on_inference_error :
  stops_of 4242 (trace (snd (run env_chat_fails sample_argv))) = 1 /\
  In (EPrint (MError (ChatError (lit "model not found"))))
     (trace (snd (run env_chat_fails sample_argv))) /\
  fst (run env_chat_fails sample_argv) = Normal tt.
Proof. vm_compute. repeat split; auto 20. Qed.

(** C1 (the code breaks it). The launched server is stopped
    - not at all when it never becomes healthy: [start_ollama] leaves by
      [sys.exit(1)] before [main] has stored the process in
      [server_process], so the [finally] block finds [None];
    - not at all when SIGINT arrives during the health-poll wait: the
      handler and the [finally] block both find [server_process] still
      [None];
    - twice when SIGINT arrives once the process is stored (here before
      the inference call and before the panel is printed): the handler
      stops it, and the [finally] block, run by the [SystemExit] of the
      handler, stops it again. *)
Theorem started_server_stop_counts :
  (let r := run env_never_up sample_argv in
   count is_popen (trace (snd r)) = 1 /\
   stops_of 4242 (trace (snd r)) = 0 /\
   exit_status (fst r) = Some 1) /\
  (let r := run (env_cold (Some 6)) sample_argv in
   count is_popen (trace (snd r)) = 1 /\
   stops_of 4242 (trace (snd r)) = 0 /\
   In (EPrint MInterrupted) (trace (snd r)) /\
   exit_status (fst r) = Some 0) /\
  (let r := run (env_cold (Some 9)) sample_argv in
   count is_popen (trace (snd r)) = 1 /\
   stops_of 4242 (trace (snd r)) = 2 /\
   exit_status (fst r) = Some 0) /\
  (let r := run (env_cold (Some 10)) sample_argv in
   count is_popen (trace (snd r)) = 1 /\
   stops_of 4242 (trace (snd r)) = 2 /\
   exit_status (fst r) = Some 0).
Proof. vm_compute. repeat split; auto 20. Qed.

(** The trace of the interruption during the poll wait, and of the one
    before the inference call. *)
Example interrupted_poll_wait_trace :
  trace (snd (run (env_cold (Some 6)) sample_argv))
  = [EGet (GetRaises ConnectionError); EPkill;
     EGet (GetRaises ConnectionError); EPopen 4242;
     EGet (GetRaises ConnectionError); ESleep;
     EPrint MInterrupted].
Proof. vm_compute. reflexivity. Qed.

Example interrupted_inference_trace :
  trace (snd (run (env_cold (Some 9)) sample_argv))
  = [EGet (GetRaises ConnectionError); EPkill;
     EGet (GetRaises ConnectionError); EPopen 4242;
     EGet (GetRaises ConnectionError); ESleep;
     EGet (GetRaises ConnectionError); ESleep;
     EGet (Response 200);
     EPrint MInterrupted; ETerminate 4242; EWait 4242 true;
     ETerminate 4242; EWait 4242 true; EPrint MPutToSleep].
Proof. vm_compute. reflexivity. Qed.

(** ** Where the launched server is stopped exactly once *)

Lemma triple_try_except {A} (body : M A) handler P R Q :
  triple P body R ->
  (forall e, triple (R (Raised (PyError e))) (handler e) Q) ->
  (forall a s, R (Normal a) s -> Q (Normal a) s) ->
  (forall c s, R (Raised (SystemExit c)) s -> Q (Raised (SystemExit c)) s) ->
  (forall s, R OutOfFuel s -> Q OutOfFuel s) ->
  triple P (try_except body handler) Q.
Proof.
  intros Hb Hh Hn Hx Hf s Hs. specialize (Hb s Hs). unfold try_except.
  destruct (body s) as [[a | [c | e] |] s']; simpl in *; auto.
  now apply Hh.
Qed.

Lemma triple_try_finally {A} (body : M A) final P R (Q : state -> Prop) :
  triple P body R ->
  (forall r, triple (R r) final (fun _ s => Q s)) ->
  (forall s, R OutOfFuel s -> Q s) ->
  triple P (try_finally body final) (fun _ s => Q s).
Proof.
  intros Hb Hf Ho s Hs. specialize (Hb s Hs). unfold try_finally.
  destruct (body s) as [[a | e |] s']; simpl in *; auto;
    match goal with
    | H : R ?r s' |- _ =>
        specialize (Hf r s' H); simpl in Hf;
        destruct (final s') as [[[] | e' |] s'']; simpl in *; assumption
    end.
Qed.

Lemma stable_without p sp : stable (without p sp) (fun e => p e = false).
Proof.
  split; try (intros s Hs; exact Hs).
  intros e s He [Ht Hsp]. split; [|exact Hsp].
  simpl. apply Forall_app. split; [assumption|]. now constructor.
Qed.

Lemma without_weaken (p q : event -> bool) sp s :
  (forall e, p e = false -> q e = false) ->
  without p sp s -> without q sp s.
Proof.
  intros H [Ht Hsp]. split; [|exact Hsp].
  eapply Forall_impl; [|exact Ht]. exact H.
Qed.

Lemma preserves_deliver_none E I ok :
  stable I ok -> sigint E = None -> preserves I (deliver E).
Proof.
  intros Hst Hsig s Hs. rewrite deliver_no_signal by (rewrite Hsig; discriminate).
  now apply (stable_tick Hst).
Qed.

Lemma stops_of_app h t u : stops_of h (t ++ u) = stops_of h t + stops_of h u.
Proof.
  induction t as [|e t IH]; [reflexivity|].
  destruct e; simpl; rewrite IH; try reflexivity. lia.
Qed.

Lemma stops_of_without h t :
  Forall (fun e => is_terminate e = false) t -> stops_of h t = 0.
Proof.
  induction 1 as [|e t He Ht IH]; [reflexivity|].
  destruct e; simpl in *; auto; discriminate.
Qed.

Lemma start_ollama_returns E pending s p :
  fst (start_ollama E pending s) = Normal p -> p = new_process E.
Proof.
  unfold start_ollama, start_ollama_fuel.
  generalize (poll_until_running E pending 64 0). intros poll.
  cbv zeta. unfold bind, ret.
  destruct (act pending (EPopen (new_process E)) s) as [[[] | e |] s1];
    cbn [fst]; try discriminate.
  destruct (poll s1) as [[[] | e |] s2]; cbn [fst]; try discriminate.
  intros H. now inversion H.
Qed.

Lemma stop_ollama_no_signal E h s :
  sigint E = None ->
  exists s',
    stop_ollama E (deliver E) (Some h) s = (Normal tt, s') /\
    trace s' = trace s ++ ETerminate h :: EWait h (exits_in_time E (waits s))
                       :: (if exits_in_time E (waits s) then [] else [EKill h]).
Proof.
  intros Hsig. unfold stop_ollama, process_wait.
  assert (Hns : forall s0, sigint E <> Some (clock s0))
    by (intros s0; rewrite Hsig; discriminate).
  rewrite (bind_normal _ _ _ (act_none _ _ _ Hsig)).
  rewrite (bind_normal _ _ _ (bind_normal _ _ _ (deliver_no_signal _ _ (Hns _)))).
  cbv beta. cbn [waits log tick].
  destruct (exits_in_time E (waits s)).
  - eexists. split; [reflexivity|].
    cbn [trace log tick count_wait]. now rewrite <- app_assoc.
  - rewrite act_none by assumption. eexists. split; [reflexivity|].
    cbn [trace log tick count_wait]. now rewrite <- !app_assoc.
Qed.

(** The teardown of a run that holds the handle [h] and was not
    interrupted: one [terminate] on [h]. *)
Lemma teardown_stops_once E h s :
  sigint E = None ->
  without is_terminate (Some h) s ->
  stops_of h
    (trace (snd ((stop_ollama E (deliver E) (Some h) ;;
                  console_print E (deliver E) MPutToSleep) s))) = 1.
Proof.
  intros Hsig [Ht Hsp].
  destruct (stop_ollama_no_signal E h s Hsig) as (s' & Hrun & Htr).
  rewrite (bind_normal _ _ _ Hrun). unfold console_print; cbn [markup_failure markup_of].
  rewrite act_none by assumption.
  cbn [snd trace log tick]. rewrite Htr.
  rewrite !stops_of_app, (stops_of_without h Ht).
  destruct (exits_in_time E (waits s)); simpl; now rewrite Nat.eqb_refl.
Qed.

Lemma triple_bind_inv {A B} I (m : M A) (k : A -> M B) (Q : state -> Prop) :
  preserves I m ->
  (forall a, triple I (k a) (fun _ s => Q s)) ->
  (forall s, I s -> Q s) ->
  triple I (bind m k) (fun _ s => Q s).
Proof.
  intros Hm Hk HQ. eapply triple_bind; [exact Hm | exact Hk | |]; auto.
Qed.

Lemma preserves_triple {A} I (m : M A) (Q : state -> Prop) :
  preserves I m -> (forall s, I s -> Q s) -> triple I m (fun _ s => Q s).
Proof. intros Hm HQ s Hs. apply HQ, Hm, Hs. Qed.

Lemma triple_total {A} P (m : M A) R :
  total m -> triple P m R ->
  triple P m (fun r s => r <> OutOfFuel /\ R r s).
Proof. intros Ht Hm s Hs. split; [apply Ht | now apply Hm]. Qed.

(** When nothing ever answers, the launched server is left running: the
    [finally] block finds no handle. *)
Lemma startup_failure_leaves_server_running E argv :
  sigint E = None ->
  (forall n, unreachable (http_get E n) = true) ->
  2 <= List.length (argv_after argv) ->
  In (EPopen (new_process E)) (trace (snd (run E argv))) /\
  (forall h, stops_of h (trace (snd (run E argv))) = 0).
Proof.
  intros Hsig Hdown Hargv.
  destruct (run_never_up E argv Hsig Hdown Hargv) as (_ & Ht & _).
  rewrite Ht. split; [simpl; tauto|].
  intros h.
  assert (Hp : forall g n, stops_of h (failed_polls E g n) = 0).
  { intros g n. revert g. induction n as [|n IH]; intros g; simpl; auto. }
  rewrite !stops_of_app, Hp. reflexivity.
Qed.

(** X11. In a run that is not interrupted, a server that was launched and
    came up (the inference call was made) is stopped exactly once,
    whatever the inference call and the user do. *)
Theorem uninterrupted_session_stops_once (E : env) (argv : list str) :
  sigint E = None ->
  let t := trace (snd (run E argv)) in
  In (EPopen (new_process E)) t ->
  (exists m, In (EChat m) t) ->
  stops_of (new_process E) t = 1.
Proof.
  intros Hsig t Hpopen (m & Hchat).
  set (h := new_process E) in *.
  set (Q := fun s : state =>
              Forall (fun e => is_popen e = false) (trace s) \/
              Forall (fun e => is_chat e = false) (trace s) \/
              stops_of h (trace s) = 1).
  cut (Q (snd (run E argv))).
  { fold t. intros [H | [H | H]]; [| |exact H]; rewrite Forall_forall in H.
    - apply H in Hpopen. discriminate.
    - apply H in Hchat. discriminate. }
  set (I0 := without (fun e => is_popen e || is_chat e || is_terminate e) None).
  set (I1 := without (fun e => is_chat e || is_terminate e) None).
  set (I2 := without is_terminate (Some h)).
  set (I3 := without (fun e => is_popen e || is_terminate e) None).
  assert (H01 : forall s, I0 s -> I1 s).
  { intros s. apply without_weaken. intros e.
    rewrite !orb_false_iff. tauto. }
  assert (H03 : forall s, I0 s -> I3 s).
  { intros s. apply without_weaken. intros e.
    rewrite !orb_false_iff. tauto. }
  assert (H0Q : forall s, I0 s -> Q s).
  { intros s [Ht _]. left. eapply Forall_impl; [|exact Ht].
    intros e. rewrite !orb_false_iff. tauto. }
  assert (H1Q : forall s, I1 s -> Q s).
  { intros s [Ht _]. right. left. eapply Forall_impl; [|exact Ht].
    intros e. rewrite !orb_false_iff. tauto. }
  assert (H3Q : forall s, I3 s -> Q s).
  { intros s [Ht _]. left. eapply Forall_impl; [|exact Ht].
    intros e. rewrite !orb_false_iff. tauto. }
  pose proof (stable_without (fun e => is_popen e || is_chat e || is_terminate e)
                             None) as Hst0.
  pose proof (stable_without (fun e => is_chat e || is_terminate e) None)
    as Hst1.
  pose proof (stable_without is_terminate (Some h)) as Hst2.
  pose proof (stable_without (fun e => is_popen e || is_terminate e) None)
    as Hst3.
  pose proof (preserves_deliver_none E Hst0 Hsig) as Hd0.
  pose proof (preserves_deliver_none E Hst1 Hsig) as Hd1.
  pose proof (preserves_deliver_none E Hst2 Hsig) as Hd2.
  pose proof (preserves_deliver_none E Hst3 Hsig) as Hd3.
  fold I0 in Hst0, Hd0. fold I1 in Hst1, Hd1.
  fold I2 in Hst2, Hd2. fold I3 in Hst3, Hd3.
  unfold run, main. unfold bind at 1. rewrite detect_mode_run. cbv beta iota.
  match goal with
  | |- Q (snd (?m initial)) =>
      cut (triple I0 m (fun _ s => Q s));
        [intros H; apply (H initial); split; [constructor | reflexivity]|]
  end.
  destruct (List.length (argv_after argv) <? 2)%nat.
  { apply preserves_triple; [|exact H0Q].
    destruct (argv_after argv) as [|prog rest]; [apply preserves_raise|].
    apply preserves_bind; [|intros _; apply preserves_raise].
    now apply (preserves_console_print E Hst0 Hd0). }
  apply triple_bind_inv; [|intros running|exact H0Q].
  { now apply (preserves_is_ollama_running E Hst0 Hd0). }
  apply triple_bind_inv; [|intros _|exact H0Q].
  { apply preserves_if; [|apply preserves_ret].
    now apply (preserves_cleanup_zombies Hst0 Hd0). }
  apply triple_bind_inv; [|intros was|exact H0Q].
  { now apply (preserves_is_ollama_running E Hst0 Hd0). }
  destruct was; cbn [negb andb].
  - (* the server was already running: nothing is launched *)
    eapply triple_weaken with (P' := I3) (Q' := fun _ s => I3 s);
      [|exact H03|intros _; exact H3Q].
    apply preserves_try_finally.
    + apply preserves_try_except.
      * apply preserves_bind; [apply preserves_ret|]. intros _.
        apply (preserves_ask_and_display Hst3 Hd3); [reflexivity|].
        intros content _.
        apply (preserves_display_output Hst3 Hd3); auto.
      * intros e. now apply (preserves_console_print E Hst3 Hd3).
    + apply preserves_bind; [now intros s0 Hs0|].
      intros sp. apply preserves_ret.
  - (* the server is launched by this run *)
    eapply triple_try_finally
      with (R := fun r s => r <> OutOfFuel /\ (I1 s \/ I2 s)).
    + apply triple_total.
      { apply total_try_except.
        - apply total_bind; [|intros _; apply total_ask_and_display].
          apply total_bind;
            [apply total_start_ollama, total_deliver | intros p s; discriminate].
        - intros e. apply total_console_print, total_deliver. }
      eapply triple_try_except with (R := fun _ s => I1 s \/ I2 s).
      * eapply triple_bind
          with (R := fun r s => match r with
                                | Normal _ => I2 s
                                | _ => I1 s \/ I2 s
                                end).
        -- eapply triple_bind
             with (R := fun r s => I1 s /\ forall p, r = Normal p -> p = h).
           ++ intros s Hs. split.
              ** apply (preserves_start_ollama E Hst1 Hd1);
                   try reflexivity. now apply H01.
              ** intros p Hp. now apply start_ollama_returns in Hp.
           ++ intros p s [[Ht Hsp] Hp]. rewrite (Hp p eq_refl).
              split; [|reflexivity]. simpl.
              eapply Forall_impl; [|exact Ht].
              intros e. rewrite !orb_false_iff. tauto.
           ++ intros e s [Hs _]. now left.
           ++ intros s [Hs _]. now left.
        -- intros _ s Hs. right.
           apply (preserves_ask_and_display Hst2 Hd2); [reflexivity| |exact Hs].
           intros content _.
           apply (preserves_display_output Hst2 Hd2); auto.
        -- intros e s Hs. exact Hs.
        -- intros s Hs. exact Hs.
      * intros e s [Hs | Hs]; [left | right].
        -- now apply (preserves_console_print E Hst1 Hd1).
        -- now apply (preserves_console_print E Hst2 Hd2).
      * intros a s Hs. exact Hs.
      * intros c s Hs. exact Hs.
      * intros s Hs. exact Hs.
    + intros r s [_ [Hs | Hs]].
      * destruct Hs as [Ht Hsp]. unfold bind, get_server_process.
        rewrite Hsp. cbn. apply H1Q. now split.
      * pose proof Hs as [Ht Hsp]. unfold bind at 1. unfold get_server_process.
        rewrite Hsp. cbn [truthy]. right. right.
        now apply teardown_stops_once.
    + intros s [Hne _]. congruence.
Qed.

Lemma uninterrupted_session_stops_once_witness :
  sigint (env_cold None) = None /\
  In (EPopen 4242) (trace (snd (run (env_cold None) sample_argv))) /\
  stops_of 4242 (trace (snd (run (env_cold None) sample_argv))) = 1.
Proof.
  assert (Hp : In (EPopen 4242) (trace (snd (run (env_cold None) sample_argv))))
    by (vm_compute; tauto).
  assert (Hc : exists m, In (EChat m)
                            (trace (snd (run (env_cold None) sample_argv)))).
  { eexists. vm_compute. do 9 right. left. reflexivity. }
  split; [reflexivity|]. split; [exact Hp|].
  exact (@uninterrupted_session_stops_once
           (env_cold None) sample_argv eq_refl Hp Hc).
Defined.

(** ** [stop_ollama] and the signal handler, action by action *)

Lemma past_no_signal E s : past E s -> sigint E <> Some (clock s).
Proof.
  intros [H | H]; [rewrite H; discriminate|].
  unfold fired in H. destruct (sigint E) as [n|]; [|discriminate].
  apply Nat.ltb_lt in H. intros [= ->]. lia.
Qed.

Lemma past_later E s s' : past E s -> clock s <= clock s' -> past E s'.
Proof.
  intros [H | H] Hc; [now left|]. right. unfold fired in *.
  destruct (sigint E) as [n|]; [|discriminate].
  apply Nat.ltb_lt in H. apply Nat.ltb_lt. lia.
Qed.

Lemma act_past E e s :
  past E s -> act (deliver E) e s = (Normal tt, log e (tick s)).
Proof. intros H. apply act_no_signal. now apply past_no_signal. Qed.

Lemma stop_ollama_run E p s :
  past E s ->
  exists s',
    stop_ollama E (deliver E) p s = (Normal tt, s') /\
    trace s' = trace s ++ stop_events E p (waits s) /\
    server_process s' = server_process s /\
    clock s <= clock s'.
Proof.
  intros Hp. destruct p as [h|].
  - unfold stop_ollama, process_wait.
    rewrite (bind_normal _ _ _ (@act_past E _ s Hp)).
    assert (Hp1 : past E (log (ETerminate h) (tick s)))
      by (apply (@past_later E s _ Hp); cbn; lia).
    rewrite (bind_normal _ _ _
               (bind_normal _ _ _
                  (deliver_no_signal _ _ (@past_no_signal E _ Hp1)))).
    cbv beta. cbn [waits log tick stop_events].
    destruct (exits_in_time E (waits s)).
    + eexists. split; [reflexivity|]. split; [|split; [reflexivity|cbn; lia]].
      cbn [trace log tick count_wait]. now rewrite <- app_assoc.
    + rewrite act_past by (apply (@past_later E s _ Hp); cbn; lia).
      eexists. split; [reflexivity|].
      split; [|split; [reflexivity|cbn; lia]].
      cbn [trace log tick count_wait]. now rewrite <- !app_assoc.
  - exists s. split; [reflexivity|]. split; [|split; [reflexivity|lia]].
    simpl. now rewrite app_nil_r.
Qed.

(** The handler on its own: the message, the stop of whatever
    [server_process] holds, and [SystemExit(0)]; the clock and the global
    stay as they are. *)
Lemma signal_handler_run E s :
  exists s',
    signal_handler E s = (Raised (SystemExit 0), s') /\
    trace s' = trace s ++ EPrint MInterrupted
                       :: stop_events E (server_process s) (waits s) /\
    server_process s' = server_process s /\
    clock s' = clock s.
Proof.
  unfold signal_handler, console_print, stop_ollama, process_wait, act,
    bind, ret, emit, get_server_process, sys_exit, raise, truthy.
  cbn. destruct (server_process s) as [h|] eqn:Hsp; cbn.
  - destruct (exits_in_time E (waits s)); cbn;
      (eexists; split; [reflexivity|]; cbn;
       rewrite <- ?app_assoc; auto).
  - eexists. split; [reflexivity|]. cbn. auto.
Qed.

(** X5. [stop_ollama] without an interruption: it always returns; with a
    process it asks it to terminate, waits for it, and kills it exactly
    when the wait timed out; with [None] it does nothing at all; it never
    clears the global [server_process]. *)
Theorem stop_ollama_escalates_to_kill
        (E : env) (p : option handle) (s : state) :
  sigint E = None ->
  let r := stop_ollama E (deliver E) p s in
  fst r = Normal tt /\
  trace (snd r) = trace s ++ stop_events E p (waits s) /\
  server_process (snd r) = server_process s /\
  (p = None -> snd r = s) /\
  (forall h, p = Some h ->
             In (ETerminate h) (trace (snd r)) /\
             (exits_in_time E (waits s) = false <->
              In (EKill h) (stop_events E p (waits s)))).
Proof.
  intros Hsig r. subst r.
  destruct (@stop_ollama_run E p s (or_introl Hsig)) as (s' & Hrun & Ht & Hsp & _).
  rewrite Hrun. cbn [fst snd].
  split; [reflexivity|]. split; [exact Ht|]. split; [exact Hsp|]. split.
  - intros ->. cbn in Hrun. now inversion Hrun.
  - intros h ->. rewrite Ht. split.
    + apply in_or_app. right. now left.
    + cbn [stop_events]. destruct (exits_in_time E (waits s)); split.
      * discriminate.
      * intros [H | [H | []]]; discriminate.
      * intros _. right. right. now left.
      * reflexivity.
Qed.

Lemma stop_ollama_escalates_to_kill_witness :
  sigint env_running = None /\
  trace (snd (stop_ollama env_running (deliver env_running) (Some 7) initial))
  = [ETerminate 7; EWait 7 true].
Proof.
  split; [reflexivity|].
  exact (proj1 (proj2 (@stop_ollama_escalates_to_kill
                         env_running (Some 7) initial eq_refl))).
Defined.

(** X6. The handler, whenever it runs: it prints the message, stops the
    process [server_process] holds at that moment (nothing when it holds
    none), and leaves by [SystemExit(0)]; it does not clear
    [server_process], so a later [stop_ollama] meets the same process
    again. *)
Theorem signal_handler_stops_and_exits (E : env) (s : state) :
  let r := signal_handler E s in
  fst r = Raised (SystemExit 0) /\
  trace (snd r) = trace s ++ EPrint MInterrupted
                          :: stop_events E (server_process s) (waits s) /\
  server_process (snd r) = server_process s /\
  (forall h, server_process s = Some h ->
             stops_of h (trace (snd r)) = S (stops_of h (trace s))) /\
  (server_process s = None ->
   trace (snd r) = trace s ++ [EPrint MInterrupted]).
Proof.
  intros r. subst r.
  destruct (signal_handler_run E s) as (s' & Hrun & Ht & Hsp & _).
  rewrite Hrun. cbn [fst snd].
  split; [reflexivity|]. split; [exact Ht|]. split; [exact Hsp|].
  rewrite Ht. split.
  - intros h ->. rewrite stops_of_app. cbn [stop_events stops_of].
    rewrite Nat.eqb_refl.
    destruct (exits_in_time E (waits s)); cbn [stops_of]; lia.
  - now intros ->.
Qed.

(** ** A server that comes up *)

Lemma is_ollama_running_healthy_run E s :
  sigint E = None ->
  healthy (http_get E (gets s)) = true ->
  is_ollama_running E (deliver E) s
  = (Normal true, log (EGet (http_get E (gets s))) (count_get (tick s))).
Proof.
  intros Hsig Hh.
  rewrite is_ollama_running_no_signal by (rewrite Hsig; discriminate).
  cbv zeta. destruct (http_get E (gets s)) as [st | e];
    [reflexivity | discriminate].
Qed.

Lemma poll_comes_up E k :
  sigint E = None ->
  forall fuel retries s,
    retries + k <= 20 -> k < fuel ->
    (forall i, i < k -> unreachable (http_get E (gets s + i)) = true) ->
    healthy (http_get E (gets s + k)) = true ->
    exists s',
      poll_until_running E (deliver E) fuel retries s = (Normal tt, s') /\
      trace s' = trace s ++ failed_polls E (gets s) k
                         ++ [EGet (http_get E (gets s + k))] /\
      server_process s' = server_process s.
Proof.
  intros Hsig. induction k as [|k IH]; intros fuel retries s Hr Hf Hdown Hup;
    (destruct fuel as [|fuel]; [lia|]); cbn [poll_until_running].
  - rewrite Nat.add_0_r in Hup.
    rewrite (bind_normal _ _ _ (is_ollama_running_healthy_run _ s Hsig Hup)).
    cbn [negb]. eexists. split; [reflexivity|]. split; [|reflexivity].
    cbn [trace log tick count_get failed_polls app].
    now rewrite Nat.add_0_r.
  - assert (H0 : unreachable (http_get E (gets s)) = true).
    { specialize (Hdown 0). rewrite Nat.add_0_r in Hdown. apply Hdown. lia. }
    rewrite (bind_normal _ _ _ (is_ollama_running_unreachable _ s Hsig H0)).
    cbn [negb].
    rewrite (bind_normal _ _ _ (act_none _ _ _ Hsig)).
    assert (Hlt : (20 <? retries + 1) = false) by (apply Nat.ltb_ge; lia).
    rewrite Hlt.
    match goal with
    | |- context [poll_until_running E (deliver E) fuel (retries + 1) ?s2] =>
        destruct (IH fuel (retries + 1) s2) as (s' & Hrun & Ht & Hsp);
          [lia | lia | | | ]
    end.
    + intros i Hi. cbn [gets log tick count_get].
      replace (S (gets s) + i) with (gets s + S i) by lia.
      apply Hdown. lia.
    + cbn [gets log tick count_get].
      now replace (S (gets s) + k) with (gets s + S k) by lia.
    + exists s'. split; [exact Hrun|]. rewrite Ht, Hsp.
      split; [|reflexivity].
      cbn [trace gets log tick count_get failed_polls].
      replace (S (gets s) + k) with (gets s + S k) by lia.
      now rewrite <- !app_assoc.
Qed.

(** X7. When nothing interrupts and the launched server answers after [k]
    failed polls, [k] up to 20 (ten seconds of waiting), [start_ollama]
    returns the launched process after exactly [k] sleeps and [k + 1]
    polls, and prints nothing. *)
Theorem start_ollama_waits_until_healthy (E : env) (s : state) (k : nat) :
  sigint E = None ->
  k <= 20 ->
  (forall i, i < k -> unreachable (http_get E (gets s + i)) = true) ->
  healthy (http_get E (gets s + k)) = true ->
  let r := start_ollama E (deliver E) s in
  fst r = Normal (new_process E) /\
  trace (snd r)
  = trace s ++ EPopen (new_process E)
            :: failed_polls E (gets s) k ++ [EGet (http_get E (gets s + k))] /\
  count is_sleep (trace (snd r)) = count is_sleep (trace s) + k /\
  count is_get (trace (snd r)) = count is_get (trace s) + k + 1.
Proof.
  intros Hsig Hk Hdown Hup r. subst r.
  cut (exists s',
          start_ollama E (deliver E) s = (Normal (new_process E), s') /\
          trace s' = trace s ++ EPopen (new_process E)
                             :: failed_polls E (gets s) k
                             ++ [EGet (http_get E (gets s + k))]).
  { intros (s' & -> & Ht). cbn [fst snd].
    split; [reflexivity|]. split; [exact Ht|]. rewrite Ht.
    destruct (count_failed_polls E (gets s) k) as (Hg & Hs & _ & _).
    change (EPopen (new_process E) :: failed_polls E (gets s) k
              ++ [EGet (http_get E (gets s + k))])
      with ([EPopen (new_process E)] ++ failed_polls E (gets s) k
              ++ [EGet (http_get E (gets s + k))]).
    rewrite !count_app, Hg, Hs. cbn. lia. }
  unfold start_ollama, start_ollama_fuel.
  rewrite (bind_normal _ _ _ (act_none _ _ _ Hsig)). cbv beta zeta.
  unfold bind at 1.
  match goal with
  | |- context [poll_until_running E (deliver E) 64 0 ?s1] =>
      destruct (@poll_comes_up E k Hsig 64 0 s1) as (s' & Hrun & Ht & _);
        [lia | lia | exact Hdown | exact Hup | ]
  end.
  exists s'. rewrite Hrun. split; [reflexivity|].
  rewrite Ht. cbn [trace gets log tick]. now rewrite <- app_assoc.
Qed.

Lemma start_ollama_waits_until_healthy_witness :
  sigint (env_cold None) = None /\
  fst (start_ollama (env_cold None) (deliver (env_cold None)) initial)
  = Normal 4242 /\
  count is_sleep
        (trace (snd (start_ollama (env_cold None) (deliver (env_cold None))
                                  initial))) = 4.
Proof.
  assert (Hdown : forall i, i < 4 ->
            unreachable (http_get (env_cold None) (gets initial + i)) = true).
  { intros i Hi. cbn [gets initial Nat.add env_cold http_get].
    destruct (Nat.ltb_spec i 4); [reflexivity | lia]. }
  pose proof (@start_ollama_waits_until_healthy
                (env_cold None) initial 4 eq_refl
                (le_S _ _ (le_S _ _ (le_S _ _ (le_S _ _
                  (le_S _ _ (le_S _ _ (le_S _ _ (le_S _ _
                  (le_S _ _ (le_S _ _ (le_S _ _ (le_S _ _
                  (le_S _ _ (le_S _ _ (le_S _ _ (le_S _ _
                  (le_n 4)))))))))))))))))
                Hdown eq_refl) as (Hr & _ & Hs & _).
  split; [reflexivity|]. split; [exact Hr | exact Hs].
Defined.

(** ** A missing query *)

(** X15. Without a query ([sys.argv] holds the program name only once the
    first "-a" is gone), a run that is not interrupted at its first
    action leaves with exit status 1, and has made no probe, no launch
    and no inference call. When rich accepts the usage line as markup,
    the run prints it and leaves by [sys.exit(1)]; the line holds
    [sys.argv[0]], and when that makes the markup parser raise, nothing
    is printed and the [MarkupError] leaves [main]. *)
Theorem missing_query_prints_usage
        (E : env) (argv : list str) (prog : str) :
  argv_after argv = [prog] ->
  sigint E <> Some 0 ->
  let r := run E argv in
  exit_status (fst r) = Some 1 /\
  (markup_error E (usage_line prog) = None ->
   fst r = Raised (SystemExit 1) /\
   trace (snd r) = [EPrint (MUsage prog)]) /\
  (forall msg, markup_error E (usage_line prog) = Some msg ->
               fst r = Raised (PyError (MarkupError msg)) /\
               trace (snd r) = []).
Proof.
  intros Hargv Hsig r. subst r.
  assert (Hrun : run E argv
                 = match markup_error E (usage_line prog) with
                   | None => (Raised (SystemExit 1),
                              log (EPrint (MUsage prog)) (tick initial))
                   | Some msg => (Raised (PyError (MarkupError msg)),
                                  tick initial)
                   end).
  { unfold run, main. unfold bind at 1. rewrite detect_mode_run.
    cbv beta iota. rewrite Hargv. cbn [List.length Nat.ltb Nat.leb].
    destruct (markup_error E (usage_line prog)) as [msg|] eqn:Hm.
    - now rewrite (bind_raised _ _ _
                     (@console_print_fails E (MUsage prog) initial msg Hm Hsig)).
    - now rewrite (bind_normal _ _ _
                     (@console_print_prints E (MUsage prog) initial Hm Hsig)). }
  rewrite Hrun.
  destruct (markup_error E (usage_line prog)) as [msg|]; cbn [fst snd].
  - split; [reflexivity|]. split; [discriminate|].
    intros msg' [= <-]. split; reflexivity.
  - split; [reflexivity|]. split; [|discriminate].
    intros _. split; reflexivity.
Qed.

Lemma missing_query_prints_usage_witness :
  argv_after [lit "pls"; lit "-a"] = [lit "pls"] /\
  sigint env_running <> Some 0 /\
  trace (snd (run env_running [lit "pls"; lit "-a"]))
  = [EPrint (MUsage (lit "pls"))].
Proof.
  assert (H : sigint env_running <> Some 0) by discriminate.
  split; [reflexivity|]. split; [exact H|].
  exact (proj2 (proj1 (proj2 (@missing_query_prints_usage
                                env_running [lit "pls"; lit "-a"] (lit "pls")
                                eq_refl H)) eq_refl)).
Defined.

(** ** Command mode and answer mode *)

Lemma ask_mode_of_without_flag argv :
  ~ In DASH_A argv -> ask_mode_of argv = false /\ argv_after argv = argv.
Proof.
  intros H. unfold ask_mode_of, argv_after.
  assert (Hin : list_in DASH_A argv = false).
  { destruct (list_in DASH_A argv) eqn:Hl; [|reflexivity].
    apply list_in_In in Hl. contradiction. }
  now rewrite Hin, (list_remove_absent _ _ Hin).
Qed.

(** X16. Without "-a" among the arguments the run is in command mode: in
    every run the inference call, if made, carries the command-mode
    system instruction, the two fixed examples and, as the query, all
    words after the program name joined by single spaces; no Answer
    panel is printed. *)
Theorem without_dash_a_command_mode (E : env) (argv : list str) :
  ~ In DASH_A argv ->
  let t := trace (snd (run E argv)) in
  (forall m, In (EChat m) t ->
             m = chat_messages false (join SPACE (tl argv))) /\
  (forall c, ~ In (EPrint (MAnswer c)) t).
Proof.
  intros Hflag t.
  destruct (ask_mode_of_without_flag argv Hflag) as [Hmode Hargv].
  assert (Hq : query_of argv = join SPACE (tl argv))
    by (unfold query_of; now rewrite Hargv).
  assert (Hsafe : Forall (fun e =>
                            match e with
                            | EChat m =>
                                m = chat_messages false (join SPACE (tl argv))
                            | EPrint (MAnswer _) => False
                            | _ => True
                            end) t).
  { apply run_Forall.
    - intros e He. destruct e as [ | | | | | | | | [] | | ];
        simpl in *; auto; discriminate.
    - now rewrite Hmode, Hq.
    - intros content _. rewrite Hmode. repeat split; auto; discriminate. }
  rewrite Forall_forall in Hsafe.
  split; [intros m Hin; exact (Hsafe _ Hin)|].
  intros c Hin. exact (Hsafe _ Hin).
Qed.

Lemma without_dash_a_command_mode_witness :
  ~ In DASH_A sample_argv /\
  forall m, In (EChat m) (trace (snd (run env_running sample_argv))) ->
            m = chat_messages false (lit "copy ip").
Proof.
  assert (H : ~ In DASH_A sample_argv).
  { intros [H | [H | [H | []]]]; discriminate. }
  split; [exact H|].
  exact (proj1 (@without_dash_a_command_mode env_running sample_argv H)).
Defined.

(** ** A probe that fails in another way *)

(** X18. The probes of the start decision are outside the [try] block: when
    the first GET raises something that is neither a connection failure
    nor a timeout, the exception leaves [main] uncaught (exit status 1,
    with a traceback), and nothing else has happened. *)
Theorem probe_error_before_try_is_not_caught
        (E : env) (argv : list str) (e : requests_error) :
  sigint E = None ->
  2 <= List.length (argv_after argv) ->
  http_get E 0 = GetRaises e ->
  unreachable (GetRaises e) = false ->
  let r := run E argv in
  fst r = Raised (PyError (RequestsError e)) /\
  exit_status (fst r) = Some 1 /\
  trace (snd r) = [EGet (GetRaises e)].
Proof.
  intros Hsig Hargv Hget Hun r. subst r.
  assert (Hp : is_ollama_running E (deliver E) initial
               = (Raised (PyError (RequestsError e)),
                  log (EGet (GetRaises e)) (count_get (tick initial)))).
  { rewrite is_ollama_running_no_signal by (rewrite Hsig; discriminate).
    cbv zeta. cbn [gets initial]. rewrite Hget.
    simpl in Hun. now rewrite Hun. }
  assert (Hrun : run E argv
                 = (Raised (PyError (RequestsError e)),
                    log (EGet (GetRaises e)) (count_get (tick initial)))).
  { unfold run, main. unfold bind at 1. rewrite detect_mode_run.
    cbv beta iota.
    assert (Hlen : (List.length (argv_after argv) <? 2) = false)
      by (apply Nat.ltb_ge; lia).
    rewrite Hlen. now rewrite (bind_raised _ _ _ Hp). }
  rewrite Hrun. repeat split.
Qed.

Lemma probe_error_before_try_is_not_caught_witness :
  sigint env_redirect_loop = None /\
  2 <= List.length (argv_after sample_argv) /\
  http_get env_redirect_loop 0 = GetRaises TooManyRedirects /\
  unreachable (GetRaises TooManyRedirects) = false /\
  fst (run env_redirect_loop sample_argv)
  = Raised (PyError (RequestsError TooManyRedirects)).
Proof.
  assert (H : 2 <= List.length (argv_after sample_argv))
    by (vm_compute; lia).
  split; [reflexivity|]. split; [exact H|].
  split; [reflexivity|]. split; [reflexivity|].
  exact (proj1 (@probe_error_before_try_is_not_caught
                  env_redirect_loop sample_argv TooManyRedirects
                  eq_refl H eq_refl eq_refl)).
Defined.

(** ** How many actions a run takes *)

Ltac cost_arith :=
  let k := fresh "k" in
  intros k; destruct k;
  unfold one, none, poll_cost, stop_cost, display_cost, main_cost;
  cbn [kind_eqb kind_of]; lia.

Lemma tally_app k t u : tally k (t ++ u) = tally k t + tally k u.
Proof. apply count_app. Qed.

Lemma tally_one k e : tally k [e] = one (kind_of e) k.
Proof.
  unfold tally, count, one. simpl. now destruct (kind_eqb (kind_of e) k).
Qed.

Lemma tally_handler E p w k :
  tally k (EPrint MInterrupted :: stop_events E p w) <= handler_cost k.
Proof.
  destruct p as [h|]; cbn [stop_events];
    [destruct (exits_in_time E w)|]; destruct k; cbn; lia.
Qed.

Lemma within_mono E (v w : kind -> nat) s :
  (forall k, v k <= w k) -> within E v s -> within E w s.
Proof. intros H Hs k. specialize (H k). specialize (Hs k). lia. Qed.

Lemma within_log E v e s :
  within E v s -> within E (fun k => v k + one (kind_of e) k) (log e s).
Proof.
  intros Hs k. specialize (Hs k). cbn [trace log].
  rewrite tally_app, tally_one.
  change (fired E (log e s)) with (fired E s). lia.
Qed.

Section CostRules.

Context {A B : Type}.
Variable E : env.

Lemma costs_weaken (m : M A) c c' :
  costs E m c -> (forall k, c k <= c' k) -> costs E m c'.
Proof.
  intros H Hc v s Hs. eapply within_mono; [|apply (H v s Hs)].
  intros k. specialize (Hc k). simpl. lia.
Qed.

Lemma costs_ret (a : A) : costs E (ret a) none.
Proof.
  intros v s Hs. eapply within_mono; [|exact Hs]. intros k. unfold none. lia.
Qed.

Lemma costs_raise (e : exn) : costs E (raise (A := A) e) none.
Proof.
  intros v s Hs. eapply within_mono; [|exact Hs]. intros k. unfold none. lia.
Qed.

Lemma costs_bind (m : M A) (k : A -> M B) c1 c2 :
  costs E m c1 -> (forall a, costs E (k a) c2) ->
  costs E (bind m k) (fun x => c1 x + c2 x).
Proof.
  intros Hm Hk v s Hs. specialize (Hm v s Hs). unfold bind.
  destruct (m s) as [[a | e |] s']; simpl in *.
  - specialize (Hk a _ s' Hm). eapply within_mono; [|exact Hk].
    intros x. simpl. lia.
  - eapply within_mono; [|exact Hm]. intros x. simpl. lia.
  - eapply within_mono; [|exact Hm]. intros x. simpl. lia.
Qed.

Lemma costs_if (b : bool) (m1 m2 : M A) c :
  costs E m1 c -> costs E m2 c -> costs E (if b then m1 else m2) c.
Proof. now destruct b. Qed.

Lemma costs_try_except (body : M A) handler c1 c2 :
  costs E body c1 -> (forall e, costs E (handler e) c2) ->
  costs E (try_except body handler) (fun x => c1 x + c2 x).
Proof.
  intros Hb Hh v s Hs. specialize (Hb v s Hs). unfold try_except.
  destruct (body s) as [[a | [c | e] |] s']; simpl in *;
    try (eapply within_mono; [|exact Hb]; intros x; simpl; lia).
  specialize (Hh e _ s' Hb). eapply within_mono; [|exact Hh].
  intros x. simpl. lia.
Qed.

Lemma costs_try_finally (body : M A) final c1 c2 :
  costs E body c1 -> costs E final c2 ->
  costs E (try_finally body final) (fun x => c1 x + c2 x).
Proof.
  intros Hb Hf v s Hs. specialize (Hb v s Hs). unfold try_finally.
  destruct (body s) as [[a | e |] s']; simpl in *;
    try (eapply within_mono; [|exact Hb]; intros x; simpl; lia);
    specialize (Hf _ s' Hb);
    destruct (final s') as [[[] | e' |] s'']; simpl in *;
      (eapply within_mono; [|exact Hf]; intros x; simpl; lia).
Qed.

End CostRules.

Lemma costs_emit E e : costs E (emit e) (one (kind_of e)).
Proof. intros v s Hs. now apply within_log. Qed.

(** The delivery of SIGINT adds the actions of the handler at most once:
    the handler runs at one value of the clock. *)
Lemma costs_deliver E : costs E (deliver E) none.
Proof.
  intros v s Hs k. specialize (Hs k). unfold none, deliver, fired in *.
  destruct (sigint E) as [n|]; [|cbn [snd trace tick] in *; lia].
  destruct (Nat.eqb_spec n (clock s)) as [-> | Hne].
  - destruct (signal_handler_run E (tick s)) as (s' & -> & Ht & _ & Hc).
    cbn [snd]. rewrite Ht, Hc. cbn [trace clock tick].
    rewrite Nat.ltb_irrefl in Hs.
    assert (Hlt : (clock s <? S (clock s)) = true) by (apply Nat.ltb_lt; lia).
    rewrite Hlt, tally_app.
    pose proof (tally_handler E (server_process (tick s)) (waits (tick s)) k).
    lia.
  - cbn [snd trace clock tick].
    assert (Heq : (n <? S (clock s)) = (n <? clock s)).
    { destruct (Nat.ltb_spec n (clock s)), (Nat.ltb_spec n (S (clock s)));
        auto; lia. }
    rewrite Heq. lia.
Qed.

Section CostActions.

Variable E : env.
Variable pending : M unit.
Hypothesis pending_costs : costs E pending none.

Lemma costs_act e : costs E (act pending e) (one (kind_of e)).
Proof.
  eapply costs_weaken;
    [apply costs_bind; [exact pending_costs | intros _; apply costs_emit]|].
  intros k. unfold none. lia.
Qed.

Lemma costs_console_print m :
  costs E (console_print E pending m) (one KPrint).
Proof.
  unfold console_print. destruct (markup_failure E m);
    [|apply (costs_act (EPrint m))].
  eapply costs_weaken with (c := fun k => none k + none k);
    [|intros k; unfold none; lia].
  apply costs_bind; [exact pending_costs | intros _; apply costs_raise].
Qed.

Lemma costs_requests_get : costs E (requests_get E pending) (one KGet).
Proof.
  eapply costs_weaken with (c := fun k => none k + one KGet k);
    [|intros k; unfold none; lia].
  apply costs_bind; [exact pending_costs|].
  intros _ v s Hs k. specialize (Hs k). cbn [snd trace log count_get].
  rewrite tally_app, tally_one.
  change (fired E (log _ (count_get s))) with (fired E s).
  cbn [kind_of]. lia.
Qed.

Lemma costs_process_wait h : costs E (process_wait E pending h) (one KWait).
Proof.
  eapply costs_weaken with (c := fun k => none k + one KWait k);
    [|intros k; unfold none; lia].
  apply costs_bind; [exact pending_costs|].
  intros _ v s Hs k. specialize (Hs k). cbn [snd trace log count_wait].
  rewrite tally_app, tally_one.
  change (fired E (log _ (count_wait s))) with (fired E s).
  cbn [kind_of]. lia.
Qed.

Lemma costs_is_ollama_running :
  costs E (is_ollama_running E pending) (one KGet).
Proof.
  eapply costs_weaken with (c := fun k => one KGet k + none k);
    [|intros k; unfold none; lia].
  apply costs_bind; [apply costs_requests_get|].
  intros [st | e]; [apply costs_ret|].
  apply costs_if; [apply costs_ret | apply costs_raise].
Qed.

Lemma costs_poll_until_running fuel retries :
  retries <= 20 ->
  costs E (poll_until_running E pending fuel retries) (poll_cost retries).
Proof.
  revert retries. induction fuel as [|fuel IH]; intros retries Hr.
  { intros v s Hs. eapply within_mono; [|exact Hs]. intros k. lia. }
  cbn [poll_until_running].
  destruct (Nat.ltb_spec 20 (retries + 1)) as [Hlt | Hge].
  - eapply costs_weaken
      with (c := fun k => one KGet k + (one KSleep k + (one KPrint k + none k))).
    + apply costs_bind; [apply costs_is_ollama_running|].
      intros up. apply costs_if.
      * apply costs_bind; [apply (costs_act ESleep)|]. intros _.
        apply costs_bind; [apply (costs_console_print MStartError)|].
        intros _. apply costs_raise.
      * eapply costs_weaken; [apply costs_ret|]. intros k. unfold none. lia.
    + cost_arith.
  - eapply costs_weaken
      with (c := fun k => one KGet k
                          + (one KSleep k + poll_cost (retries + 1) k)).
    + apply costs_bind; [apply costs_is_ollama_running|].
      intros up. apply costs_if.
      * apply costs_bind; [apply (costs_act ESleep)|]. intros _.
        apply IH. lia.
      * eapply costs_weaken; [apply costs_ret|]. intros k. unfold none. lia.
    + cost_arith.
Qed.

Lemma costs_start_ollama :
  costs E (start_ollama E pending) (fun k => one KPopen k + poll_cost 0 k).
Proof.
  unfold start_ollama, start_ollama_fuel.
  apply costs_bind; [apply (costs_act (EPopen (new_process E)))|].
  intros _. cbv zeta.
  eapply costs_weaken with (c := fun k => poll_cost 0 k + none k);
    [|intros k; unfold none; lia].
  apply costs_bind; [apply costs_poll_until_running; lia|].
  intros _. apply costs_ret.
Qed.

Lemma costs_stop_ollama process :
  costs E (stop_ollama E pending process) stop_cost.
Proof.
  destruct process as [h|].
  - eapply costs_weaken
      with (c := fun k => one KTerminate k + (one KWait k + one KKill k));
      [|cost_arith].
    apply costs_bind; [apply (costs_act (ETerminate h))|]. intros _.
    apply costs_bind; [apply costs_process_wait|]. intros exited.
    apply costs_if; [|apply (costs_act (EKill h))].
    eapply costs_weaken; [apply costs_ret|]. intros k. unfold none. lia.
  - eapply costs_weaken; [apply costs_ret|]. intros k. unfold none. lia.
Qed.

End CostActions.

Lemma costs_ask_and_display E ask_mode query :
  costs E (ask_and_display E ask_mode query)
        (fun k => one KChat k + display_cost k).
Proof.
  pose proof (@costs_deliver E) as Hd.
  unfold ask_and_display. apply costs_bind.
  - unfold ollama_chat.
    eapply costs_weaken with (c := fun k => one KChat k + none k);
      [|intros k; unfold none; lia].
    apply costs_bind; [apply (costs_act Hd (EChat _))|]. intros _.
    destruct (chat_result E); [apply costs_ret | apply costs_raise].
  - intros content. unfold display_output, console_print.
    destruct ask_mode.
    { eapply costs_weaken; [apply (costs_console_print Hd)|].
      cost_arith. }
    destruct (sanitize_command content) as [|c cs].
    { eapply costs_weaken; [apply (costs_console_print Hd)|].
      cost_arith. }
    eapply costs_weaken
      with (c := fun k => one KPrint k
                          + ((one KInput k + none k)
                             + (one KPrint k + one KRun k)));
      [|cost_arith].
    apply costs_bind; [apply (costs_console_print Hd)|]. intros _.
    apply costs_bind.
    + unfold console_input.
      apply costs_bind; [apply (costs_act Hd EInput)|].
      intros _. apply costs_ret.
    + intros confirm. apply costs_if.
      * eapply costs_weaken; [apply (costs_act Hd (ERun _))|].
        cost_arith.
      * eapply costs_weaken; [apply (costs_console_print Hd)|].
        cost_arith.
Qed.

Lemma within_run E argv : within E main_cost (snd (run E argv)).
Proof.
  pose proof (@costs_deliver E) as Hd.
  unfold run, main. unfold bind at 1. rewrite detect_mode_run. cbv beta iota.
  match goal with
  | |- within E _ (snd (?m initial)) =>
      assert (Hc : costs E m main_cost);
        [|eapply within_mono; [|apply (Hc none initial)]]
  end.
  - apply costs_if.
    { destruct (argv_after argv) as [|prog rest].
      - eapply costs_weaken; [apply costs_raise|].
        intros k. unfold none. lia.
      - eapply costs_weaken with (c := fun k => one KPrint k + none k);
          [|cost_arith].
        apply costs_bind; [apply (costs_console_print Hd)|].
        intros _. apply costs_raise. }
    eapply costs_weaken
      with (c := fun k =>
                   one KGet k
                   + (one KPkill k
                      + (one KGet k
                         + (((one KPopen k + poll_cost 0 k + none k)
                             + (one KChat k + display_cost k)
                             + one KPrint k)
                            + (none k + (stop_cost k + one KPrint k))))));
      [|cost_arith].
    apply costs_bind; [apply (costs_is_ollama_running Hd)|]. intros running.
    apply costs_bind.
    { apply costs_if; [apply (costs_act Hd EPkill)|].
      eapply costs_weaken; [apply costs_ret|]. intros k. unfold none. lia. }
    intros _.
    apply costs_bind; [apply (costs_is_ollama_running Hd)|]. intros was.
    apply costs_try_finally.
    + apply costs_try_except.
      * apply costs_bind; [|intros _; apply costs_ask_and_display].
        apply costs_if.
        -- apply costs_bind; [apply (costs_start_ollama Hd)|].
           intros p v s Hs. eapply within_mono; [|exact Hs].
           intros k. unfold none. lia.
        -- eapply costs_weaken; [apply costs_ret|].
           intros k. unfold none. lia.
      * intros e. apply (costs_console_print Hd).
    + apply costs_bind.
      { intros v s Hs. eapply within_mono; [|exact Hs].
        intros k. unfold none. lia. }
      intros sp. apply costs_if.
      * apply costs_bind; [apply (costs_stop_ollama Hd)|].
        intros _. apply (costs_console_print Hd).
      * eapply costs_weaken; [apply costs_ret|]. intros k. unfold none. lia.
  - intros k. unfold none. lia.
  - intros k. cbn. lia.
Qed.


(** The bounds are reached, those on the messages apart. *)
Example run_action_limits_reached :
  tally KGet (trace (snd (run env_never_up sample_argv))) = 23 /\
  tally KSleep (trace (snd (run env_never_up sample_argv))) = 21 /\
  tally KTerminate (trace (snd (run (env_cold (Some 9)) sample_argv))) = 2 /\
  tally KWait (trace (snd (run (env_cold (Some 9)) sample_argv))) = 2 /\
  tally KRun (trace (snd (run (env_cold None) sample_argv))) = 1.
Proof. vm_compute. repeat split. Qed.

(** ** The end of a run that reached the inference call *)

(** The [finally] block when no signal can come any more: it returns, and
    adds lifecycle events only. *)
Lemma teardown_run E (b : bool) s :
  past E s ->
  exists s' u,
    (server_process <- get_server_process ;;
     if b && truthy server_process then
       stop_ollama E (deliver E) server_process ;;
       console_print E (deliver E) MPutToSleep
     else ret tt) s = (Normal tt, s') /\
    trace s' = trace s ++ u /\
    Forall (fun e => is_lifecycle e = true) u /\
    clock s <= clock s'.
Proof.
  intros Hp. unfold bind at 1. unfold get_server_process.
  destruct (b && truthy (server_process s)).
  - destruct (@stop_ollama_run E (server_process s) s Hp)
      as (s1 & Hrun & Ht & _ & Hc).
    rewrite (bind_normal _ _ _ Hrun). unfold console_print; cbn [markup_failure markup_of].
    rewrite act_past by (apply (@past_later E s _ Hp Hc)).
    eexists. exists (stop_events E (server_process s) (waits s)
                     ++ [EPrint MPutToSleep]).
    split; [reflexivity|]. split; [|split].
    + cbn [trace log tick]. now rewrite Ht, <- app_assoc.
    + apply Forall_app. split; [|now constructor].
      destruct (server_process s) as [h|]; cbn [stop_events]; [|constructor].
      destruct (exits_in_time E (waits s)); repeat constructor.
    + cbn [clock log tick]. lia.
  - exists s, []. split; [reflexivity|]. rewrite app_nil_r. auto.
Qed.

Lemma triple_try_finally_returns {A} (body : M A) final P R Q :
  triple P body R ->
  (forall r s, R r s -> r <> OutOfFuel ->
               exists s', final s = (Normal tt, s') /\ Q r s') ->
  (forall s, R OutOfFuel s -> Q OutOfFuel s) ->
  triple P (try_finally body final) Q.
Proof.
  intros Hb Hf Ho s Hs. specialize (Hb s Hs). unfold try_finally.
  destruct (body s) as [[a | e |] s1]; simpl in *; [| |now apply Ho].
  - destruct (Hf _ _ Hb) as (s2 & -> & HQ); [discriminate | exact HQ].
  - destruct (Hf _ _ Hb) as (s2 & -> & HQ); [discriminate | exact HQ].
Qed.

(** ** The end of an interrupted run *)

Lemma fired_later E s s' :
  fired E s = true -> clock s <= clock s' -> fired E s' = true.
Proof.
  unfold fired. destruct (sigint E) as [n|]; [|discriminate].
  rewrite !Nat.ltb_lt. lia.
Qed.

Section Interruptions.

Variable E : env.

Lemma interruptible_ret {A} (a : A) : interruptible E (ret a).
Proof. intros s Hs. now left. Qed.

Lemma interruptible_raise {A} (e : exn) : interruptible E (raise (A := A) e).
Proof. intros s Hs. now left. Qed.

Lemma interruptible_bind {A B} (m : M A) (k : A -> M B) :
  interruptible E m -> (forall a, interruptible E (k a)) ->
  interruptible E (bind m k).
Proof.
  intros Hm Hk s Hs. specialize (Hm s Hs). unfold bind.
  destruct (m s) as [[a | e |] s1]; simpl in *.
  - destruct Hm as [Hc | (_ & _ & Hr)]; [now apply Hk | discriminate].
  - destruct Hm as [Hc | (Hf & Hi & Hr)]; [now left|].
    right. injection Hr as ->. auto.
  - destruct Hm as [Hc | (_ & _ & Hr)]; [now left | discriminate].
Qed.

Lemma interruptible_if {A} (b : bool) (m1 m2 : M A) :
  interruptible E m1 -> interruptible E m2 ->
  interruptible E (if b then m1 else m2).
Proof. now destruct b. Qed.

Lemma interruptible_try_except {A} (body : M A) handler :
  interruptible E body -> (forall e, interruptible E (handler e)) ->
  interruptible E (try_except body handler).
Proof.
  intros Hb Hh s Hs. specialize (Hb s Hs). unfold try_except.
  destruct (body s) as [[a | [c | e] |] s1]; simpl in *; try exact Hb.
  destruct Hb as [Hc | (_ & _ & Hr)]; [now apply Hh | discriminate].
Qed.

(** Once the handler has run, the [finally] block is not disturbed
    again, so the [SystemExit(0)] of the handler is what leaves [main]. *)
Lemma interruptible_try_finally {A} (body : M A) final :
  interruptible E body -> interruptible E final ->
  (forall s, fired E s = true ->
             exists s' u, final s = (Normal tt, s') /\
                          trace s' = trace s ++ u /\ clock s <= clock s') ->
  interruptible E (try_finally body final).
Proof.
  intros Hb Hf Hpast s Hs. specialize (Hb s Hs). unfold try_finally.
  assert (Hcalm : forall (r : result A) s1,
             calm E s1 ->
             ends E (fst match final s1 with
                         | (Normal _, s2) => (r, s2)
                         | (Raised e, s2) => (Raised e, s2)
                         | (OutOfFuel, s2) => (OutOfFuel, s2)
                         end)
                    (snd match final s1 with
                         | (Normal _, s2) => (r, s2)
                         | (Raised e, s2) => (Raised e, s2)
                         | (OutOfFuel, s2) => (OutOfFuel, s2)
                         end)).
  { intros r s1 Hc. specialize (Hf s1 Hc).
    destruct (final s1) as [[[] | e' |] s2]; simpl in *;
      destruct Hf as [Hc2 | (Hf2 & Hi2 & Hr2)];
      try (now left); try discriminate.
    right. injection Hr2 as ->. auto. }
  assert (Hhot : forall (r : result A) s1,
             fired E s1 = true -> In (EPrint MInterrupted) (trace s1) ->
             r = Raised (SystemExit 0) ->
             ends E (fst match final s1 with
                         | (Normal _, s2) => (r, s2)
                         | (Raised e, s2) => (Raised e, s2)
                         | (OutOfFuel, s2) => (OutOfFuel, s2)
                         end)
                    (snd match final s1 with
                         | (Normal _, s2) => (r, s2)
                         | (Raised e, s2) => (Raised e, s2)
                         | (OutOfFuel, s2) => (OutOfFuel, s2)
                         end)).
  { intros r s1 Hfi Hi Hr.
    destruct (Hpast s1 Hfi) as (s2 & u & -> & Ht & Hc).
    right. cbn [fst snd]. split; [exact (@fired_later E s1 s2 Hfi Hc)|].
    split; [rewrite Ht; apply in_or_app; now left | exact Hr]. }
  destruct (body s) as [[a | e |] s1]; simpl in *.
  - destruct Hb as [Hc | (Hfi & Hi & Hr)]; [now apply Hcalm | discriminate].
  - destruct Hb as [Hc | (Hfi & Hi & Hr)];
      [now apply Hcalm | now apply Hhot].
  - exact Hb.
Qed.

Lemma calm_log e s :
  e <> EPrint MInterrupted -> calm E s -> calm E (log e s).
Proof.
  intros He [Hf Hi]. split; [exact Hf|]. cbn [trace log].
  intros Hin. apply in_app_or in Hin as [Hin | [Heq | []]]; auto.
Qed.

Lemma interruptible_deliver : interruptible E (deliver E).
Proof.
  intros s [Hf Hi]. unfold deliver. unfold ends, calm, fired in *.
  destruct (sigint E) as [n|]; [|left; split; [reflexivity | exact Hi]].
  apply Nat.ltb_ge in Hf.
  destruct (Nat.eqb_spec n (clock s)) as [-> | Hne].
  - destruct (signal_handler_run E (tick s)) as (s' & -> & Ht & _ & Hc).
    right. cbn [fst snd]. rewrite Ht, Hc. cbn [clock tick].
    split; [apply Nat.ltb_lt; lia|]. split; [|reflexivity].
    apply in_or_app. right. now left.
  - left. cbn [fst snd clock trace tick].
    split; [apply Nat.ltb_ge; lia | exact Hi].
Qed.

Lemma interruptible_act e :
  e <> EPrint MInterrupted -> interruptible E (act (deliver E) e).
Proof.
  intros He. apply interruptible_bind; [apply interruptible_deliver|].
  intros _ s Hs. left. now apply calm_log.
Qed.

Lemma interruptible_console_print m :
  m <> MInterrupted -> interruptible E (console_print E (deliver E) m).
Proof.
  intros Hm. unfold console_print. destruct (markup_failure E m).
  - apply interruptible_bind; [apply interruptible_deliver|].
    intros _. apply interruptible_raise.
  - apply interruptible_act. congruence.
Qed.

Ltac interruptible_action :=
  first [ apply interruptible_console_print; discriminate
        | apply interruptible_act; discriminate ].

Lemma interruptible_requests_get : interruptible E (requests_get E (deliver E)).
Proof.
  apply interruptible_bind; [apply interruptible_deliver|].
  intros _ s Hs. left. cbn [fst snd].
  apply calm_log; [discriminate | exact Hs].
Qed.

Lemma interruptible_process_wait h :
  interruptible E (process_wait E (deliver E) h).
Proof.
  apply interruptible_bind; [apply interruptible_deliver|].
  intros _ s Hs. left. cbn [fst snd].
  apply calm_log; [discriminate | exact Hs].
Qed.

Lemma interruptible_is_ollama_running :
  interruptible E (is_ollama_running E (deliver E)).
Proof.
  apply interruptible_bind; [apply interruptible_requests_get|].
  intros [st | e]; [apply interruptible_ret|].
  apply interruptible_if; [apply interruptible_ret | apply interruptible_raise].
Qed.

Lemma interruptible_poll_until_running fuel retries :
  interruptible E (poll_until_running E (deliver E) fuel retries).
Proof.
  revert retries. induction fuel as [|fuel IH]; intros retries;
    [intros s Hs; now left|].
  cbn [poll_until_running].
  apply interruptible_bind; [apply interruptible_is_ollama_running|].
  intros up. apply interruptible_if; [|apply interruptible_ret].
  apply interruptible_bind; [interruptible_action|].
  intros _. apply interruptible_if; [|apply IH].
  apply interruptible_bind; [interruptible_action|].
  intros _. apply interruptible_raise.
Qed.

Lemma interruptible_start_ollama :
  interruptible E (start_ollama E (deliver E)).
Proof.
  apply interruptible_bind; [interruptible_action|].
  intros _. apply interruptible_bind;
    [apply interruptible_poll_until_running|].
  intros _. apply interruptible_ret.
Qed.

Lemma interruptible_stop_ollama p :
  interruptible E (stop_ollama E (deliver E) p).
Proof.
  destruct p as [h|]; [|apply interruptible_ret].
  apply interruptible_bind; [interruptible_action|].
  intros _. apply interruptible_bind; [apply interruptible_process_wait|].
  intros exited. apply interruptible_if; [apply interruptible_ret|].
  interruptible_action.
Qed.

Lemma interruptible_ask_and_display ask_mode query :
  interruptible E (ask_and_display E ask_mode query).
Proof.
  apply interruptible_bind.
  { apply interruptible_bind; [interruptible_action|].
    intros _. destruct (chat_result E);
      [apply interruptible_ret | apply interruptible_raise]. }
  intros content. unfold display_output, console_print.
  destruct ask_mode; [interruptible_action|].
  destruct (sanitize_command content) as [|c cs];
    [interruptible_action|].
  apply interruptible_bind; [interruptible_action|].
  intros _. apply interruptible_bind.
  { apply interruptible_bind; [interruptible_action|].
    intros _. apply interruptible_ret. }
  intros confirm. apply interruptible_if;
    interruptible_action.
Qed.

Lemma interruptible_main argv : interruptible E (main E argv).
Proof.
  intros s Hs. unfold main.
  rewrite (bind_normal _ _ _ (detect_mode_run argv s)). cbv beta iota.
  revert s Hs.
  match goal with
  | |- forall s, calm E s -> ends E (fst (?m s)) (snd (?m s)) =>
      change (interruptible E m)
  end.
  apply interruptible_if.
  { destruct (argv_after argv) as [|prog rest]; [apply interruptible_raise|].
    apply interruptible_bind; [interruptible_action|].
    intros _. apply interruptible_raise. }
  apply interruptible_bind; [apply interruptible_is_ollama_running|].
  intros running. apply interruptible_bind.
  { apply interruptible_if; [|apply interruptible_ret].
    interruptible_action. }
  intros _. apply interruptible_bind; [apply interruptible_is_ollama_running|].
  intros was. apply interruptible_try_finally.
  - apply interruptible_try_except.
    + apply interruptible_bind; [|intros _; apply interruptible_ask_and_display].
      apply interruptible_if; [|apply interruptible_ret].
      apply interruptible_bind; [apply interruptible_start_ollama|].
      intros p s Hs. now left.
    + intros e. interruptible_action.
  - apply interruptible_bind; [intros s Hs; now left|].
    intros sp. apply interruptible_if; [|apply interruptible_ret].
    apply interruptible_bind; [apply interruptible_stop_ollama|].
    intros _. interruptible_action.
  - intros s Hf.
    destruct (@teardown_run E (negb was) s (or_intror Hf))
      as (s' & u & Hrun & Ht & _ & Hc).
    now exists s', u.
Qed.

End Interruptions.

(** X10. Whenever the handler has run, at whatever moment of the run, the
    process ends by the [SystemExit(0)] of the handler: exit status 0,
    also when the server could not be started or the inference call had
    failed. *)
Theorem interrupted_run_exits_with_status_0 (E : env) (argv : list str) :
  In (EPrint MInterrupted) (trace (snd (run E argv))) ->
  fst (run E argv) = Raised (SystemExit 0) /\
  exit_status (fst (run E argv)) = Some 0 /\
  exists n, sigint E = Some n /\ n < clock (snd (run E argv)).
Proof.
  intros Hin.
  assert (Hcalm : calm E initial).
  { split; [|intros []]. unfold fired. now destruct (sigint E). }
  destruct (@interruptible_main E argv initial Hcalm)
    as [[_ Hno] | (Hf & _ & Hr)]; [contradiction|].
  fold (run E argv) in Hf, Hr.
  split; [exact Hr|]. split; [now rewrite Hr|].
  unfold fired in Hf. destruct (sigint E) as [n|]; [|discriminate].
  exists n. split; [reflexivity|]. now apply Nat.ltb_lt.
Qed.

Lemma interrupted_run_exits_with_status_0_witness :
  In (EPrint MInterrupted) (trace (snd (run (env_cold (Some 6)) sample_argv))) /\
  exit_status (fst (run (env_cold (Some 6)) sample_argv)) = Some 0.
Proof.
  assert (H : In (EPrint MInterrupted)
                 (trace (snd (run (env_cold (Some 6)) sample_argv)))).
  { vm_compute. do 6 right. left. reflexivity. }
  split; [exact H|].
  exact (proj1 (proj2 (@interrupted_run_exits_with_status_0
                         (env_cold (Some 6)) sample_argv H))).
Defined.

(** ** What is executed went to the panel and was confirmed *)

Lemma app_snoc_decomp {A} (t : list A) e pre x post :
  t ++ [e] = pre ++ x :: post ->
  (post = [] /\ pre = t /\ x = e) \/
  (exists post', post = post' ++ [e] /\ t = pre ++ x :: post').
Proof.
  intros H. destruct post as [|y post0].
  - left. change (pre ++ [x]) with (pre ++ [x]) in H.
    apply app_inj_tail in H as [-> ->]. auto.
  - right. assert (Hne : y :: post0 <> []) by discriminate.
    destruct (exists_last Hne) as (post' & l & Hl). rewrite Hl in *.
    change (pre ++ x :: post' ++ [l]) with (pre ++ (x :: post') ++ [l]) in H.
    rewrite app_assoc in H. apply app_inj_tail in H as [-> ->].
    now exists post'.
Qed.

Lemma confirmed_first_snoc t e :
  is_run e = false -> confirmed_first t -> confirmed_first (t ++ [e]).
Proof.
  intros He Ht pre c post Heq.
  apply app_snoc_decomp in Heq as [(_ & _ & Hx) | (post' & _ & Ht')].
  - subst e. discriminate.
  - exact (Ht _ _ _ Ht').
Qed.

Lemma confirmed_first_run t c :
  confirmed_first t -> In (EPrint (MSuggested c)) t -> In EInput t ->
  confirmed_first (t ++ [ERun c]).
Proof.
  intros Ht Hs Hi pre c' post Heq.
  apply app_snoc_decomp in Heq as [(_ & -> & Hx) | (post' & _ & Ht')].
  - injection Hx as ->. auto.
  - exact (Ht _ _ _ Ht').
Qed.

Lemma stable_displaying c printed asked :
  stable (displaying c printed asked) (fun e => is_run e = false).
Proof.
  split; try (intros s Hs; exact Hs).
  intros e s He (Ht & Hs & Hi). cbn [trace log]. split; [|split].
  - now apply confirmed_first_snoc.
  - intros H. apply in_or_app. left. auto.
  - intros H. apply in_or_app. left. auto.
Qed.

Lemma displaying_deliver E c printed asked :
  preserves (displaying c printed asked) (deliver E).
Proof.
  apply (preserves_deliver E (stable_displaying c printed asked)).
  intros e He. destruct e; simpl in *; auto; discriminate.
Qed.

(** An action that returns has left its event in the trace. *)
Lemma displaying_act E c printed asked e :
  is_run e = false ->
  triple (displaying c printed asked) (act (deliver E) e)
         (fun r s => displaying c printed asked s /\
                     (r = Normal tt -> In e (trace s))).
Proof.
  intros He s Hs. pose proof (@displaying_deliver E c printed asked s Hs) as Hd.
  unfold act, bind. destruct (deliver E s) as [[[] | x |] s1]; simpl in *.
  - split; [now apply (stable_log (stable_displaying c printed asked))|].
    intros _. apply in_or_app. right. now left.
  - split; [exact Hd | discriminate].
  - split; [exact Hd | discriminate].
Qed.

Lemma displaying_display_output E ask_mode content :
  preserves (displaying (sanitize_command content) false false)
            (display_output E ask_mode content).
Proof.
  set (c := sanitize_command content).
  pose proof (stable_displaying c false false) as Hst.
  pose proof (@displaying_deliver E c false false) as Hd.
  unfold display_output. fold c.
  destruct ask_mode; [now apply (preserves_console_print E Hst Hd)|].
  destruct c as [|x cs] eqn:Hc; [now apply (preserves_console_print E Hst Hd)|].
  rewrite <- Hc. clear Hst Hd.
  assert (Hweak : forall a b s, displaying c a b s -> displaying c false false s).
  { intros a b s (Ht & _ & _). split; [exact Ht|]. split; discriminate. }
  eapply triple_bind
    with (R := fun r s =>
                 match r with
                 | Normal _ => displaying c true false s
                 | _ => displaying c false false s
                 end).
  - intros s Hs.
    destruct (@displaying_act E c false false (EPrint (MSuggested c))
                              eq_refl s Hs) as [Hs' Hin].
    unfold console_print; cbn [markup_failure markup_of].
    destruct (fst (act (deliver E) (EPrint (MSuggested c)) s)) as [[] | e |];
      try exact Hs'.
    destruct Hs' as (Ht & _ & _). split; [exact Ht|].
    split; [intros _; now apply Hin | discriminate].
  - intros _. eapply triple_bind
      with (R := fun r s =>
                   match r with
                   | Normal _ => displaying c true true s
                   | _ => displaying c false false s
                   end).
    + intros s Hs. unfold console_input, bind.
      destruct (@displaying_act E c true false EInput eq_refl s Hs)
        as [Hs' Hin].
      destruct (act (deliver E) EInput s) as [[[] | e |] s1]; simpl in *;
        try (now apply (Hweak true false)).
      destruct Hs' as (Ht & Hsh & _). split; [exact Ht|].
      split; [exact Hsh | intros _; now apply Hin].
    + intros confirm s Hs.
      destruct (affirmative (lower E confirm)).
      * pose proof (@displaying_deliver E c true true s Hs) as Hd.
        unfold act, bind.
        destruct (deliver E s) as [[[] | e |] s1]; simpl in *;
          try (now apply (Hweak true true)).
        destruct Hd as (Ht & Hsh & Hi).
        split; [|split; discriminate].
        apply confirmed_first_run; auto.
      * apply (Hweak true true).
        now apply (preserves_console_print E (stable_displaying c true true)
                     (@displaying_deliver E c true true)).
    + intros e s Hs. exact Hs.
    + intros s Hs. exact Hs.
  - intros e s Hs. exact Hs.
  - intros s Hs. exact Hs.
Qed.

Lemma run_confirmed_first E argv : confirmed_first (trace (snd (run E argv))).
Proof.
  set (c := extracted_command E).
  pose proof (stable_displaying c false false) as Hst.
  pose proof (@displaying_deliver E c false false) as Hd.
  assert (H : displaying c false false (snd (run E argv))).
  { apply (@preserves_main E _ _ Hst).
    - intros e He. destruct e; simpl in *; auto; discriminate.
    - intros p s Hs. exact Hs.
    - apply (preserves_ask_and_display Hst Hd); [reflexivity|].
      intros content Hc. unfold c.
      rewrite (extracted_command_reply E Hc).
      apply displaying_display_output.
    - split; [|split; discriminate].
      intros pre x post Heq. destruct pre; discriminate. }
  exact (proj1 H).
Qed.

(** X13. In every run, interrupted or not, a command is executed only
    after [console.print] was called with the "Suggested Command" panel
    built from exactly that command, and returned, and after the prompt
    was answered; it is the command extracted from the reply, it is not
    empty, and the answer was affirmative. (What the panel shows of the
    command is rich's rendering: the [Syntax] has no word wrap, so a line
    wider than the panel is cropped.) *)
Theorem executed_command_was_passed_to_panel_and_confirmed
        (E : env) (argv : list str) (pre post : list event) (c : str) :
  trace (snd (run E argv)) = pre ++ ERun c :: post ->
  In (EPrint (MSuggested c)) pre /\
  In EInput pre /\
  c = extracted_command E /\
  c <> [] /\
  affirmative (lower E (confirm_input E)) = true.
Proof.
  intros Heq.
  destruct (run_confirmed_first E argv _ _ _ Heq) as [Hs Hi].
  split; [exact Hs|]. split; [exact Hi|].
  assert (Hsafe : Forall (fun e =>
                            match e with
                            | ERun c =>
                                c = extracted_command E /\ c <> [] /\
                                affirmative (lower E (confirm_input E)) = true
                            | _ => True
                            end)
                         (trace (snd (run E argv)))).
  { apply run_Forall.
    - intros e He. destruct e; simpl in *; auto; discriminate.
    - exact Logic.I.
    - intros content Hc. repeat split; auto. }
  rewrite Forall_forall in Hsafe.
  apply (Hsafe (ERun c)). rewrite Heq. apply in_or_app. right. now left.
Qed.

Lemma executed_command_was_passed_to_panel_and_confirmed_witness :
  trace (snd (run env_running sample_argv))
  = [EGet (Response 200); EGet (Response 200);
     EChat (chat_messages false (lit "copy ip"));
     EPrint (MSuggested ip_cmd); EInput] ++ ERun ip_cmd :: [] /\
  ip_cmd = extracted_command env_running.
Proof.
  assert (H : trace (snd (run env_running sample_argv))
              = [EGet (Response 200); EGet (Response 200);
                 EChat (chat_messages false (lit "copy ip"));
                 EPrint (MSuggested ip_cmd); EInput] ++ ERun ip_cmd :: [])
    by (vm_compute; reflexivity).
  split; [exact H|].
  exact (proj1 (proj2 (proj2 (@executed_command_was_passed_to_panel_and_confirmed
                                env_running sample_argv _ _ _ H)))).
Defined.

(** ** Which server processes a run acts on *)

Lemma stable_owned E : stable (owned E) (permitted E).
Proof.
  split; try (intros s Hs; exact Hs).
  intros e s He [Ht Hsp]. split; [|exact Hsp].
  cbn [trace log]. apply Forall_app. split; [assumption|]. now constructor.
Qed.

Lemma owned_deliver E : preserves (owned E) (deliver E).
Proof.
  intros s Hs.
  pose proof (stable_tick (stable_owned E) _ Hs) as Htick.
  unfold deliver. destruct (sigint E) as [n|]; [|exact Htick].
  destruct (n =? clock s)%nat; [|exact Htick].
  destruct (signal_handler_run E (tick s)) as (s' & -> & Ht & Hsp & _).
  cbn [snd]. destruct Htick as [Hall Hown]. split.
  - rewrite Ht. apply Forall_app. split; [exact Hall|].
    constructor; [exact Logic.I|].
    destruct (server_process (tick s)) as [h|] eqn:Hh; cbn [stop_events];
      [|constructor].
    specialize (Hown h eq_refl).
    destruct (exits_in_time E (waits (tick s)));
      repeat (apply Forall_cons; [exact Hown|]); apply Forall_nil.
  - intros h Hh. apply Hown. now rewrite <- Hsp.
Qed.

Lemma owned_probe E n :
  triple (fun s => owned E s /\ gets s = n)
         (is_ollama_running E (deliver E))
         (fun r s => owned E s /\
                     forall b, r = Normal b ->
                               gets s = S n /\
                               (b = false ->
                                unreachable (http_get E n) = true)).
Proof.
  intros s [Hs Hg].
  pose proof (@owned_deliver E s Hs) as Hd.
  pose proof (@deliver_normal E s) as Hn.
  unfold is_ollama_running, requests_get, bind.
  destruct (deliver E s) as [[[] | e |] s1]; simpl in *;
    try (split; [exact Hd | intros b; discriminate]).
  rewrite (Hn tt eq_refl) in *. cbn [gets tick]. rewrite Hg.
  assert (Hlog : forall o, owned E (log (EGet o) (count_get (tick s)))).
  { intros o. apply (stable_log (stable_owned E)); [exact Logic.I|].
    now apply (stable_count_get (stable_owned E)). }
  destruct (http_get E n) as [st | e] eqn:Hget; cbn.
  - split; [apply Hlog|]. intros b [= <-]. split; [now rewrite Hg | discriminate].
  - destruct (isinstance_ConnectionError e || isinstance_ReadTimeout e)
      eqn:Hc; cbn.
    + split; [apply Hlog|]. intros b [= <-]. split; [now rewrite Hg|].
      intros _. now rewrite <- caught_iff_unreachable.
    + split; [apply Hlog | intros b; discriminate].
Qed.

Lemma owned_act E n e :
  permitted E e ->
  triple (fun s => owned E s /\ gets s = n)
         (act (deliver E) e)
         (fun r s => owned E s /\ (r = Normal tt -> gets s = n)).
Proof.
  intros He s [Hs Hg].
  pose proof (@owned_deliver E s Hs) as Hd.
  pose proof (@deliver_normal E s) as Hn.
  unfold act, bind.
  destruct (deliver E s) as [[[] | x |] s1]; simpl in *;
    try (split; [exact Hd | discriminate]).
  rewrite (Hn tt eq_refl) in *.
  split; [now apply (stable_log (stable_owned E))|]. intros _. exact Hg.
Qed.

Ltac by_triple I P :=
  match goal with
  | |- I (snd (?m ?st)) =>
      let H := fresh in
      assert (H : triple P m (fun _ x => I x)); [|apply (H st)]
  end.

Lemma run_owned E argv : owned E (snd (run E argv)).
Proof.
  pose proof (stable_owned E) as Hst.
  pose proof (@owned_deliver E) as Hd.
  assert (Hinit : owned E initial) by (split; [constructor | discriminate]).
  unfold run, main. unfold bind at 1. rewrite detect_mode_run.
  cbv beta iota.
  destruct (List.length (argv_after argv) <? 2)%nat.
  { as_preserves.
    destruct (argv_after argv) as [|prog rest]; [apply preserves_raise|].
    apply preserves_bind; [|intros _; apply preserves_raise].
    now apply (preserves_console_print E Hst Hd). }
  by_triple (owned E) (fun s => owned E s /\ gets s = 0); [|now split].
  eapply triple_bind;
    [apply owned_probe | | now intros e s [Hs _] | now intros s [Hs _]].
  intros running s [Hs Hb]. destruct (Hb running eq_refl) as [Hg H0].
  clear Hb.
  by_triple (owned E) (fun s => owned E s /\ gets s = 1); [|now split].
  clear s Hs Hg.
  eapply triple_bind
    with (R := fun r s => owned E s /\ (r = Normal tt -> gets s = 1));
    [ | | now intros e s [Hs _] | now intros s [Hs _]].
  { destruct running; cbn [negb].
    - intros s [Hs Hg]. now split.
    - apply owned_act. exact (H0 eq_refl). }
  intros [] s [Hs Hg]. specialize (Hg eq_refl).
  by_triple (owned E) (fun s => owned E s /\ gets s = 1); [|now split].
  clear s Hs Hg.
  eapply triple_bind;
    [apply owned_probe | | now intros e s [Hs _] | now intros s [Hs _]].
  intros was s [Hs Hb]. destruct (Hb was eq_refl) as [_ H1]. clear Hb.
  as_preserves.
  apply preserves_try_finally.
  - apply preserves_try_except.
    + apply preserves_bind.
      * destruct was; cbn [negb]; [apply preserves_ret|].
        assert (Hnew : permitted E (ETerminate (new_process E)))
          by (split; [reflexivity | exact (H1 eq_refl)]).
        eapply triple_bind
          with (R := fun r s =>
                       owned E s /\
                       forall p, r = Normal p -> p = new_process E);
          [ | | now intros e s0 [Hs0 _] | now intros s0 [Hs0 _]].
        -- intros s0 Hs0. split.
           ++ now apply (preserves_start_ollama E Hst Hd).
           ++ intros p Hp. now apply start_ollama_returns in Hp.
        -- intros p s0 [[Ht Hown] Hp]. rewrite (Hp p eq_refl).
           split; [exact Ht|]. intros h [= <-]. exact Hnew.
      * intros _. apply (preserves_ask_and_display Hst Hd); [exact Logic.I|].
        intros content _.
        apply (preserves_display_output Hst Hd); intros; simpl; auto.
    + intros e. now apply (preserves_console_print E Hst Hd).
  - intros s0 Hs0. unfold bind at 1. unfold get_server_process.
    cbv beta iota.
    destruct (negb was && truthy (server_process s0)); [|exact Hs0].
    pose proof (proj2 Hs0) as Hown.
    assert (Hp : preserves (owned E)
                   (stop_ollama E (deliver E) (server_process s0) ;;
                    console_print E (deliver E) MPutToSleep)).
    { apply preserves_bind.
      - apply (preserves_stop_ollama E Hst Hd).
        intros h Hh. specialize (Hown h Hh).
        repeat split; apply Hown.
      - intros _. now apply (preserves_console_print E Hst Hd). }
    exact (Hp s0 Hs0).
Qed.

(** X14. In every run, interrupted or not: the reaper ([pkill]) is called only
    when the first probe found no server; a server is launched only when
    the second probe found none; and whatever is terminated, waited for
    or killed is the process this run launched, never another one. *)
Theorem server_actions_follow_failed_probes (E : env) (argv : list str) :
  let t := trace (snd (run E argv)) in
  (In EPkill t -> unreachable (http_get E 0) = true) /\
  (forall e h, In e t -> target e = Some h ->
               h = new_process E /\ unreachable (http_get E 1) = true).
Proof.
  intros t. destruct (run_owned E argv) as [Hall _]. fold t in Hall.
  rewrite Forall_forall in Hall. split.
  - intros Hin. exact (Hall _ Hin).
  - intros e h Hin Ht. specialize (Hall _ Hin).
    destruct e; simpl in *; try discriminate; injection Ht as <-; exact Hall.
Qed.

(** ** The words of the query *)

(** X19. The query is the words after the program name joined by single
    spaces, and nothing else of [sys.argv] reaches the run: giving the
    query as one quoted argument or word by word is the same run. *)
Theorem quoting_the_query_changes_nothing
        (E : env) (prog : str) (ws : list str) :
  ~ In DASH_A (prog :: ws) ->
  join SPACE ws <> DASH_A ->
  ws <> [] ->
  run E [prog; join SPACE ws] = run E (prog :: ws).
Proof.
  intros Hflag Hq Hws.
  assert (Hflag' : ~ In DASH_A [prog; join SPACE ws]).
  { intros [H | [H | []]].
    - apply Hflag. now left.
    - now apply Hq. }
  unfold run, main.
  rewrite (bind_normal _ _ _ (detect_mode_without_flag _ initial Hflag')).
  rewrite (bind_normal _ _ _ (detect_mode_without_flag _ initial Hflag)).
  cbv beta iota. destruct ws as [|w ws']; [contradiction|].
  reflexivity.
Qed.

Lemma quoting_the_query_changes_nothing_witness :
  ~ In DASH_A sample_argv /\
  run env_running [lit "pls"; lit "copy ip"] = run env_running sample_argv.
Proof.
  assert (H : ~ In DASH_A sample_argv).
  { intros [H | [H | [H | []]]]; discriminate. }
  split; [exact H|].
  refine (@quoting_the_query_changes_nothing
            env_running (lit "pls") [lit "copy"; lit "ip"] H _ _);
    discriminate.
Defined.

(** ** The deadline of [start_ollama] *)

Lemma poll_gives_up E k :
  sigint E = None ->
  forall fuel retries s,
    retries + k = 21 -> 1 <= k -> k <= fuel ->
    (forall i, i < k -> unreachable (http_get E (gets s + i)) = true) ->
    exists s',
      poll_until_running E (deliver E) fuel retries s
      = (Raised (SystemExit 1), s') /\
      trace s' = trace s ++ failed_polls E (gets s) k ++ [EPrint MStartError] /\
      server_process s' = server_process s.
Proof.
  intros Hsig. induction k as [|k IH]; intros fuel retries s Hk H1 Hf Hdown;
    [lia|].
  destruct fuel as [|fuel]; [lia|].
  cbn [poll_until_running].
  assert (H0 : unreachable (http_get E (gets s)) = true).
  { specialize (Hdown 0). rewrite Nat.add_0_r in Hdown. apply Hdown. lia. }
  rewrite (bind_normal _ _ _ (is_ollama_running_unreachable _ s Hsig H0)).
  cbn [negb].
  rewrite (bind_normal _ _ _ (act_none _ _ _ Hsig)).
  destruct k as [|k'].
  - assert (Hr : (20 <? retries + 1) = true) by (apply Nat.ltb_lt; lia).
    rewrite Hr. unfold console_print; cbn [markup_failure markup_of].
    rewrite (bind_normal _ _ _ (act_none _ _ _ Hsig)).
    eexists. split; [reflexivity|]. split; [|reflexivity].
    cbn [trace log tick count_get failed_polls]. now rewrite <- !app_assoc.
  - assert (Hr : (20 <? retries + 1) = false) by (apply Nat.ltb_ge; lia).
    rewrite Hr.
    match goal with
    | |- context [poll_until_running E (deliver E) fuel (retries + 1) ?s2] =>
        destruct (IH fuel (retries + 1) s2) as (s' & Hrun & Ht & Hsp);
          [lia | lia | lia | | ]
    end.
    + intros i Hi. cbn [gets log tick count_get].
      replace (S (gets s) + i) with (gets s + S i) by lia.
      apply Hdown. lia.
    + exists s'. split; [exact Hrun|]. rewrite Ht, Hsp.
      split; [|reflexivity].
      cbn [trace gets log tick count_get].
      cbn [failed_polls]. now rewrite <- !app_assoc.
Qed.

(** X8. When nothing interrupts and the first 21 polls after the launch fail,
    [start_ollama] prints the start error and leaves by [sys.exit(1)],
    whatever the server would answer later; it never asks the process it
    launched to terminate. *)
Theorem start_ollama_gives_up_after_21_polls (E : env) (s : state) :
  sigint E = None ->
  (forall i, i < 21 -> unreachable (http_get E (gets s + i)) = true) ->
  let r := start_ollama E (deliver E) s in
  fst r = Raised (SystemExit 1) /\
  trace (snd r)
  = trace s ++ EPopen (new_process E)
            :: failed_polls E (gets s) 21 ++ [EPrint MStartError] /\
  server_process (snd r) = server_process s /\
  stops_of (new_process E) (trace (snd r))
  = stops_of (new_process E) (trace s).
Proof.
  intros Hsig Hdown r. subst r.
  cut (exists s',
          start_ollama E (deliver E) s = (Raised (SystemExit 1), s') /\
          trace s' = trace s ++ EPopen (new_process E)
                             :: failed_polls E (gets s) 21
                             ++ [EPrint MStartError] /\
          server_process s' = server_process s).
  { intros (s' & -> & Ht & Hsp). cbn [fst snd].
    split; [reflexivity|]. split; [exact Ht|]. split; [exact Hsp|].
    rewrite Ht.
    assert (Hp : forall g n, stops_of (new_process E) (failed_polls E g n) = 0).
    { intros g n. revert g. induction n as [|n IH]; intros g; simpl; auto. }
    change (EPopen (new_process E) :: failed_polls E (gets s) 21
              ++ [EPrint MStartError])
      with ([EPopen (new_process E)] ++ failed_polls E (gets s) 21
              ++ [EPrint MStartError]).
    rewrite !stops_of_app, Hp. cbn [stops_of]. lia. }
  unfold start_ollama, start_ollama_fuel.
  rewrite (bind_normal _ _ _ (act_none _ _ _ Hsig)). cbv beta zeta.
  unfold bind at 1.
  match goal with
  | |- context [poll_until_running E (deliver E) 64 0 ?s1] =>
      destruct (@poll_gives_up E 21 Hsig 64 0 s1) as (s' & Hrun & Ht & Hsp);
        [lia | lia | lia | exact Hdown | ]
  end.
  exists s'. rewrite Hrun. split; [reflexivity|].
  rewrite Ht, Hsp. split; [|reflexivity].
  cbn [trace gets log tick]. now rewrite <- app_assoc.
Qed.

Lemma start_ollama_gives_up_after_21_polls_witness :
  sigint env_never_up = None /\
  fst (start_ollama env_never_up (deliver env_never_up) initial)
  = Raised (SystemExit 1).
Proof.
  split; [reflexivity|].
  exact (proj1 (@start_ollama_gives_up_after_21_polls
                  env_never_up initial eq_refl (fun i _ => eq_refl))).
Defined.

(** ** What is printed was accepted by the markup parser *)

Lemma printed_deliver E :
  preserves (fun s => Forall (printable E) (trace s)) (deliver E).
Proof.
  intros s Hs. unfold deliver.
  destruct (sigint E) as [n|]; [|exact Hs].
  destruct (n =? clock s)%nat; [|exact Hs].
  destruct (signal_handler_run E (tick s)) as (s' & -> & Ht & _).
  cbn [snd]. rewrite Ht. apply Forall_app. split; [exact Hs|].
  constructor; [reflexivity|].
  destruct (server_process (tick s)) as [h|]; cbn [stop_events];
    [|constructor].
  destruct (exits_in_time E (waits (tick s))); repeat constructor.
Qed.

Lemma printed_console_print E m :
  preserves (fun s => Forall (printable E) (trace s))
            (console_print E (deliver E) m).
Proof.
  unfold console_print. destruct (markup_failure E m) as [msg|] eqn:Hm.
  - apply preserves_bind; [apply printed_deliver|].
    intros _. apply preserves_raise.
  - apply (preserves_act (stable_Forall (printable E)) (@printed_deliver E)).
    exact Hm.
Qed.

Lemma run_prints_rendered E argv :
  Forall (printable E) (trace (snd (run E argv))).
Proof.
  pose proof (stable_Forall (printable E)) as Hst.
  pose proof (@printed_deliver E) as Hd.
  unfold run, main. unfold bind at 1. rewrite detect_mode_run. cbv beta iota.
  match goal with
  | |- Forall _ (trace (snd (?m initial))) =>
      cut (preserves (fun s => Forall (printable E) (trace s)) m);
        [intros H; apply (H initial); constructor|]
  end.
  apply preserves_if.
  { destruct (argv_after argv) as [|prog rest]; [apply preserves_raise|].
    apply preserves_bind; [apply printed_console_print|].
    intros _. apply preserves_raise. }
  apply preserves_bind.
  { now apply (preserves_is_ollama_running E Hst Hd). }
  intros running. apply preserves_bind.
  { apply preserves_if; [|apply preserves_ret].
    now apply (preserves_cleanup_zombies Hst Hd). }
  intros _. apply preserves_bind.
  { now apply (preserves_is_ollama_running E Hst Hd). }
  intros was. apply preserves_try_finally.
  - apply preserves_try_except; [|intros e; apply printed_console_print].
    apply preserves_bind.
    { apply preserves_if; [|apply preserves_ret].
      apply preserves_bind.
      - apply (preserves_start_ollama E Hst Hd); intros; exact Logic.I || reflexivity.
      - intros p s Hs. exact Hs. }
    intros _. apply (preserves_ask_and_display Hst Hd); [exact Logic.I|].
    intros content _. unfold display_output.
    destruct (ask_mode_of argv); [apply printed_console_print|].
    destruct (sanitize_command (strip content));
      [apply printed_console_print|].
    apply preserves_bind; [apply printed_console_print|]. intros _.
    apply preserves_bind.
    { apply preserves_bind; [now apply (preserves_act Hst Hd)|].
      intros _. apply preserves_ret. }
    intros confirm. apply preserves_if;
      [now apply (preserves_act Hst Hd) | apply printed_console_print].
  - apply preserves_bind; [intros s Hs; exact Hs|].
    intros sp. apply preserves_if; [|apply preserves_ret].
    apply preserves_bind; [|intros _; apply printed_console_print].
    apply (preserves_stop_ollama E Hst Hd). intros h _.
    repeat split; intros; exact Logic.I.
Qed.

(** ** The end of a run that reached the inference call *)

Lemma display_output_result E ask_mode content s :
  sigint E = None ->
  fst (display_output E ask_mode content s)
  = if ask_mode then
      match markup_error E content with
      | None => Normal tt
      | Some msg => Raised (PyError (MarkupError msg))
      end
    else Normal tt.
Proof.
  intros H.
  assert (Hns : forall s0, sigint E <> Some (clock s0))
    by (intros s0; rewrite H; discriminate).
  unfold display_output. destruct ask_mode.
  { destruct (markup_error E content) as [msg|] eqn:Hm.
    - now rewrite (@console_print_fails E (MAnswer content) s msg Hm (Hns s)).
    - now rewrite (@console_print_prints E (MAnswer content) s Hm (Hns s)). }
  unfold console_print; cbn [markup_failure markup_of].
  destruct (sanitize_command content) as [|c cs]; [now rewrite act_none|].
  rewrite (bind_normal _ _ _ (act_none _ _ _ H)).
  unfold console_input.
  rewrite (bind_normal _ _ _ (bind_normal _ _ _ (act_none _ _ _ H))).
  unfold ret.
  destruct (affirmative (lower E (confirm_input E)));
    now rewrite act_none by assumption.
Qed.

Lemma ask_and_display_result E ask_mode query s :
  sigint E = None ->
  fst (ask_and_display E ask_mode query s) = block_result E ask_mode.
Proof.
  intros H. unfold ask_and_display, ollama_chat, block_result.
  destruct (chat_result E) as [content | msg].
  - rewrite (bind_normal _ _ _ (bind_normal _ _ _ (act_none _ _ _ H))).
    unfold ret. now apply display_output_result.
  - now rewrite (bind_raised _ _ _ (bind_normal _ _ _ (act_none _ _ _ H))).
Qed.

Lemma block_result_cases E ask_mode :
  block_result E ask_mode = Normal tt \/
  exists e, block_result E ask_mode = Raised (PyError e).
Proof.
  unfold block_result. destruct (chat_result E) as [content | msg];
    [|right; now eexists].
  destruct ask_mode; [|now left].
  destruct (markup_error E (strip content)); [right; now eexists | now left].
Qed.

(** A run without SIGINT that made the inference call: its result is
    what the [except] clause makes of the block, the [finally] block
    returns, and an exception whose line rich accepts is in the output. *)
Lemma run_result_after_chat E argv :
  sigint E = None ->
  (exists m, In (EChat m) (trace (snd (run E argv)))) ->
  fst (run E argv) = caught E (block_result E (ask_mode_of argv)) /\
  (forall e, block_result E (ask_mode_of argv) = Raised (PyError e) ->
             markup_failure E (MError e) = None ->
             In (EPrint (MError e)) (trace (snd (run E argv)))).
Proof.
  intros Hsig (m & Hchat).
  assert (Hns : forall s0, sigint E <> Some (clock s0))
    by (intros s0; rewrite Hsig; discriminate).
  set (mode := ask_mode_of argv).
  set (P0 := fun s : state => Forall (fun e => is_chat e = false) (trace s)).
  set (reported := fun s : state =>
                     forall e, block_result E mode = Raised (PyError e) ->
                               markup_failure E (MError e) = None ->
                               In (EPrint (MError e)) (trace s)).
  set (Q := fun (r : result unit) (s : state) =>
              P0 s \/ (r = caught E (block_result E mode) /\ reported s)).
  assert (Hst : stable P0 (fun e => is_chat e = false))
    by apply stable_Forall.
  pose proof (preserves_deliver_none E Hst Hsig) as Hd.
  assert (Hmain : triple P0 (main E argv) Q).
  { intros s Hs. unfold main.
    rewrite (bind_normal _ _ _ (detect_mode_run argv s)). cbv beta iota.
    fold mode. revert s Hs.
    match goal with
    | |- forall s, P0 s -> Q (fst (?m s)) (snd (?m s)) =>
        change (triple P0 m Q)
    end.
    destruct (List.length (argv_after argv) <? 2)%nat.
    { eapply triple_weaken with (Q' := fun _ s => P0 s);
        [|intros s Hs; exact Hs|intros r s Hs; now left].
      destruct (argv_after argv) as [|prog rest]; [apply preserves_raise|].
      apply preserves_bind; [|intros _; apply preserves_raise].
      now apply (preserves_console_print E Hst Hd). }
    eapply triple_bind with (R := fun _ s => P0 s);
      [|intros running|intros e s Hs; now left|intros s Hs; now left].
    { now apply (preserves_is_ollama_running E Hst Hd). }
    eapply triple_bind with (R := fun _ s => P0 s);
      [|intros _|intros e s Hs; now left|intros s Hs; now left].
    { apply preserves_if; [|apply preserves_ret].
      now apply (preserves_cleanup_zombies Hst Hd). }
    eapply triple_bind with (R := fun _ s => P0 s);
      [|intros was|intros e s Hs; now left|intros s Hs; now left].
    { now apply (preserves_is_ollama_running E Hst Hd). }
    eapply triple_try_finally_returns with (R := Q).
    - eapply triple_try_except
        with (R := fun r s => P0 s \/ r = block_result E mode).
      + eapply triple_bind with (R := fun _ s => P0 s);
          [|intros _|intros e s Hs; now left|intros s Hs; now left].
        { apply preserves_if; [|apply preserves_ret].
          apply preserves_bind.
          - now apply (preserves_start_ollama E Hst Hd).
          - intros p s Hs. exact Hs. }
        intros s Hs. right. now apply ask_and_display_result.
      + intros e s [Hs | Hr].
        * left. now apply (preserves_console_print E Hst Hd).
        * right. rewrite <- Hr. cbn [caught].
          destruct (markup_failure E (MError e)) as [msg|] eqn:Hm.
          -- rewrite (@console_print_fails E (MError e) s msg Hm (Hns s)).
             split; [reflexivity|]. intros e' He' Hm'.
             assert (e' = e) by congruence. subst e'. congruence.
          -- rewrite (@console_print_prints E (MError e) s Hm (Hns s)).
             split; [reflexivity|]. intros e' He' _.
             assert (e' = e) by congruence. subst e'.
             cbn [snd trace log]. apply in_or_app. right. now left.
      + intros [] s [Hs | Hr]; [now left|]. right. rewrite <- Hr.
        split; [reflexivity|]. intros e He _. congruence.
      + intros c s [Hs | Hr]; [now left|].
        destruct (block_result_cases E mode) as [H | (e & H)];
          rewrite H in Hr; discriminate.
      + intros s [Hs | Hr]; [now left|].
        destruct (block_result_cases E mode) as [H | (e & H)];
          rewrite H in Hr; discriminate.
    - intros r s HQ _.
      destruct (@teardown_run E (negb was) s (or_introl Hsig))
        as (s' & u & Hrun & Ht & Hu & _).
      exists s'. split; [exact Hrun|].
      destruct HQ as [Hs | [Hr Hrep]]; [left | right].
      + unfold P0. rewrite Ht. apply Forall_app. split; [exact Hs|].
        eapply Forall_impl; [|exact Hu].
        intros e He. destruct e; simpl in *; auto; discriminate.
      + split; [exact Hr|]. intros e He Hm. rewrite Ht.
        apply in_or_app. left. now apply Hrep.
    - intros s [Hs | [Hr _]]; [now left|]. right. split; [exact Hr|].
      exfalso.
      destruct (block_result_cases E mode) as [H | (e & H)];
        rewrite H in Hr; cbn [caught] in Hr;
        [discriminate | destruct (markup_failure E (MError e)); discriminate]. }
  assert (HQ : Q (fst (run E argv)) (snd (run E argv))).
  { apply (Hmain initial). constructor. }
  destruct HQ as [Hno | [Hr Hrep]].
  { unfold P0 in Hno. rewrite Forall_forall in Hno.
    apply Hno in Hchat. discriminate. }
  split; [exact Hr | exact Hrep].
Qed.

(** X12. In a run without SIGINT that made the inference call, an
    exception of the call reaches the [except] clause, nothing is
    executed and no confirmation is asked. The clause prints the text of
    the exception inside a markup string: when rich accepts that line,
    it is printed and the run ends normally, with exit status 0; when
    the text makes the markup parser raise (as "[/INST]" does), nothing
    is printed and the run ends with that [MarkupError], exit status 1.
    The [finally] block runs in both cases. *)
Theorem inference_failure_is_caught_and_reported
        (E : env) (argv : list str) (msg : str) :
  sigint E = None ->
  (exists m, In (EChat m) (trace (snd (run E argv)))) ->
  chat_result E = ChatRaises msg ->
  (forall c, ~ In (ERun c) (trace (snd (run E argv)))) /\
  ~ In EInput (trace (snd (run E argv))) /\
  (markup_error E (error_line E (ChatError msg)) = None ->
   fst (run E argv) = Normal tt /\
   exit_status (fst (run E argv)) = Some 0 /\
   In (EPrint (MError (ChatError msg))) (trace (snd (run E argv)))) /\
  (forall msg', markup_error E (error_line E (ChatError msg)) = Some msg' ->
                fst (run E argv) = Raised (PyError (MarkupError msg')) /\
                exit_status (fst (run E argv)) = Some 1 /\
                ~ In (EPrint (MError (ChatError msg)))
                     (trace (snd (run E argv)))).
Proof.
  intros Hsig Hchat Hc.
  destruct (run_result_after_chat E argv Hsig Hchat) as [Hr Hrep].
  assert (Hb : block_result E (ask_mode_of argv)
               = Raised (PyError (ChatError msg)))
    by (unfold block_result; now rewrite Hc).
  rewrite Hb in Hr. cbn [caught] in Hr.
  change (markup_failure E (MError (ChatError msg)))
    with (markup_error E (error_line E (ChatError msg))) in Hr.
  assert (Hsafe : Forall (fun e => is_run e = false /\ is_input e = false)
                         (trace (snd (run E argv)))).
  { apply run_Forall.
    - intros e He. destruct e; simpl in *; auto; discriminate.
    - now split.
    - intros content Hc'. congruence. }
  rewrite Forall_forall in Hsafe.
  split; [intros c Hin; apply Hsafe in Hin as [Hin _]; discriminate|].
  split; [intros Hin; apply Hsafe in Hin as [_ Hin]; discriminate|].
  split.
  - intros Hm. rewrite Hm in Hr. split; [exact Hr|].
    split; [now rewrite Hr|]. apply (Hrep _ Hb). exact Hm.
  - intros msg' Hm. rewrite Hm in Hr. split; [exact Hr|].
    split; [now rewrite Hr|]. intros Hin.
    pose proof (run_prints_rendered E argv) as Hp.
    rewrite Forall_forall in Hp. specialize (Hp _ Hin).
    change (markup_error E (error_line E (ChatError msg)) = None) in Hp.
    congruence.
Qed.

Lemma inference_failure_is_caught_and_reported_witness :
  sigint env_bad_error_text = None /\
  chat_result env_bad_error_text = ChatRaises (lit "unexpected token [/INST]") /\
  exit_status (fst (run env_bad_error_text sample_argv)) = Some 1 /\
  stops_of 4242 (trace (snd (run env_bad_error_text sample_argv))) = 1.
Proof.
  assert (Hc : exists m, In (EChat m)
                            (trace (snd (run env_bad_error_text sample_argv)))).
  { eexists. vm_compute. do 9 right. left. reflexivity. }
  pose proof (@inference_failure_is_caught_and_reported
                env_bad_error_text sample_argv _ eq_refl Hc eq_refl)
    as (_ & _ & _ & Hbad).
  split; [reflexivity|]. split; [reflexivity|].
  split; [exact (proj1 (proj2 (Hbad _ eq_refl)))|].
  vm_compute. reflexivity.
Defined.

(** X17. In answer mode the reply goes, trimmed and not sanitized, into
    the Answer panel, whose text rich parses as markup, and no command is
    suggested. In a run without SIGINT that made the inference call:
    when the parser accepts the reply, the panel is printed (what it
    shows is rich's rendering of the reply) and the run ends normally;
    when the reply makes the parser raise (as "[/usr/local/bin]" does),
    no panel is printed, and the run ends as the [except] clause ends on
    that [MarkupError]: normally when its line is accepted, with a second
    [MarkupError] and exit status 1 when not. *)
Theorem answer_mode_hands_reply_to_rich
        (E : env) (argv : list str) (content : str) :
  ask_mode_of argv = true ->
  chat_result E = ChatReply content ->
  let t := trace (snd (run E argv)) in
  (forall c, In (EPrint (MAnswer c)) t ->
             c = strip content /\ markup_error E (strip content) = None) /\
  (forall c, ~ In (EPrint (MSuggested c)) t) /\
  (sigint E = None -> (exists m, In (EChat m) t) ->
   markup_error E (strip content) = None ->
   In (EPrint (MAnswer (strip content))) t /\ fst (run E argv) = Normal tt) /\
  (sigint E = None -> (exists m, In (EChat m) t) ->
   forall msg, markup_error E (strip content) = Some msg ->
     fst (run E argv)
     = match markup_error E (error_line E (MarkupError msg)) with
       | None => Normal tt
       | Some msg' => Raised (PyError (MarkupError msg'))
       end).
Proof.
  intros Hmode Hc t.
  assert (Hsafe : Forall (fun e =>
                            match e with
                            | EPrint (MAnswer c) => c = strip content
                            | EPrint (MSuggested _) => False
                            | _ => True
                            end) t).
  { apply run_Forall.
    - intros e He. destruct e as [ | | | | | | | | [] | | ];
        simpl in *; auto; discriminate.
    - exact Logic.I.
    - intros content' Hc'. rewrite Hmode.
      assert (content' = content) by congruence. subst content'.
      repeat split; auto; discriminate. }
  rewrite Forall_forall in Hsafe.
  pose proof (run_prints_rendered E argv) as Hp.
  rewrite Forall_forall in Hp. fold t in Hp.
  assert (Hb : block_result E (ask_mode_of argv)
               = match markup_error E (strip content) with
                 | None => Normal tt
                 | Some msg => Raised (PyError (MarkupError msg))
                 end)
    by (unfold block_result; now rewrite Hc, Hmode).
  split; [|split; [|split]].
  - intros c Hin. pose proof (Hsafe _ Hin) as Heq. cbn in Heq. subst c.
    split; [reflexivity|]. exact (Hp _ Hin).
  - intros c Hin. exact (Hsafe _ Hin).
  - intros Hsig Hchat Hm. split.
    + revert Hchat.
      apply (@run_trace_invariant E argv
               (fun t => (exists m, In (EChat m) t) ->
                         In (EPrint (MAnswer (strip content))) t)
               (fun e => is_chat e = false)); try assumption.
      * intros t0 e He Ht (m & Hin). apply in_or_app. left. apply Ht.
        apply in_app_or in Hin as [Hin | [Heq | []]];
          [now exists m | subst e; discriminate].
      * intros e He. destruct e; simpl in *; auto; discriminate.
      * intros t0 _ _. apply in_or_app. right.
        rewrite Hc, Hmode. unfold display_events. rewrite Hm.
        simpl. tauto.
      * intros (m & []).
    + destruct (run_result_after_chat E argv Hsig Hchat) as [Hr _].
      rewrite Hb, Hm in Hr. exact Hr.
  - intros Hsig Hchat msg Hm.
    destruct (run_result_after_chat E argv Hsig Hchat) as [Hr _].
    rewrite Hb, Hm in Hr. exact Hr.
Qed.

Lemma answer_mode_hands_reply_to_rich_witness :
  ask_mode_of answer_argv = true /\
  chat_result env_bad_answer = ChatReply (lit "[/usr/local/bin]") /\
  exit_status (fst (run env_bad_answer answer_argv)) = Some 1 /\
  forall c, ~ In (EPrint (MAnswer c)) (trace (snd (run env_bad_answer answer_argv))).
Proof.
  pose proof (@answer_mode_hands_reply_to_rich
                env_bad_answer answer_argv _ eq_refl eq_refl)
    as (Hans & _ & _ & Hbad).
  assert (Hc : exists m, In (EChat m)
                            (trace (snd (run env_bad_answer answer_argv)))).
  { eexists. vm_compute. do 2 right. left. reflexivity. }
  split; [reflexivity|]. split; [reflexivity|]. split.
  - rewrite (Hbad eq_refl Hc _ eq_refl). reflexivity.
  - intros c Hin. apply Hans in Hin as [_ Hm]. discriminate Hm.
Defined.

(** ** A server that answers the probes *)

(** C5 (as stated it fails, see the counterexample below). When the
    server answers the first probe, the reaper is not called in any run.
    When it answers both probes of the start decision (lines 102 and
    105), the run, however it ends and whenever it is interrupted, takes
    no action on any server process: no pkill, no launch, no terminate
    and no kill are in its trace, and it ends without a handle (nothing
    for the teardown to stop). *)
Theorem already_running_server_is_untouched (E : env) (argv : list str) :
  healthy (http_get E 0) = true ->
  let s := snd (run E argv) in
  ~ In EPkill (trace s) /\
  (healthy (http_get E 1) = true ->
   Forall (fun e => touches_server e = false) (trace s) /\
   server_process s = None /\
   count is_popen (trace s) = 0 /\
   (forall h, stops_of h (trace s) = 0)).
Proof.
  intros H0 s. split.
  - intros Hin. destruct (run_owned E argv) as [Hall _].
    rewrite Forall_forall in Hall. specialize (Hall _ Hin). cbn in Hall.
    destruct (http_get E 0); [discriminate Hall | discriminate H0].
  - intros H1. exact (both_probes_answered_untouched E argv H0 H1).
Qed.

Lemma already_running_server_is_untouched_witness :
  healthy (http_get env_running 0) = true /\
  healthy (http_get env_running 1) = true /\
  Forall (fun e => touches_server e = false)
         (trace (snd (run env_running sample_argv))) /\
  server_process (snd (run env_running sample_argv)) = None.
Proof.
  split; [reflexivity|]. split; [reflexivity|].
  pose proof (proj2 (@already_running_server_is_untouched
                       env_running sample_argv eq_refl) eq_refl)
    as (Ht & Hsp & _).
  split; assumption.
Defined.

(** C5, counterexample: a running server that answers the first probe
    and misses the second (a read timeout) is "already healthy when the
    invocation begins", yet [main] launches a server of its own and
    stops it at the end. *)
Lemma answered_first_probe_does_not_prevent_launch :
  healthy (http_get env_missed_probe 0) = true /\
  In (EPopen 4242) (trace (snd (run env_missed_probe sample_argv))) /\
  count is_popen (trace (snd (run env_missed_probe sample_argv))) = 1 /\
  stops_of 4242 (trace (snd (run env_missed_probe sample_argv))) = 1 /\
  ~ Forall (fun e => touches_server e = false)
           (trace (snd (run env_missed_probe sample_argv))).
Proof.
  split; [reflexivity|]. split; [vm_compute; tauto|].
  split; [reflexivity|]. split; [reflexivity|].
  intros H. rewrite Forall_forall in H.
  assert (Hin : In (EPopen 4242) (trace (snd (run env_missed_probe sample_argv))))
    by (vm_compute; tauto).
  apply H in Hin. discriminate.
Qed.

End SessionFacts.
